(** * teambition-sdk: the request layer and the buffering engine

    A shallow embedding of [src/SDKFetch.ts] (class [SDKFetch]) and of
    [src/Net/Http.ts] (the class [Http] and [createMethod] in its first
    half, the class [Net] in its second),
    with the properties their documentation states about them and
    further properties of the code. The schema of [src/unnamed/part_000]
    serves as an example.

    Conventions.
    - JavaScript values are the inductive [JsVal]; objects keep their
      properties in an association list, in insertion order.
    - A [Map] of the source is a [gmap].
    - A cold observable is a function from the world to an outcome: the
      values it emits, how it ends, and the world it leaves behind.
      Nothing runs until such a function is applied, exactly as nothing
      runs in the source until the stream is subscribed. *)

From Stdlib Require Import ZArith Ascii String List Bool Lia DecimalString.
From stdpp Require Import base gmap strings list.

Open Scope string_scope.

Set Warnings "-register-all".

(** ** JavaScript values *)

Module Js.

Inductive JsVal : Type :=
| VUndefined
| VNull
| VBool (b : bool)
| VNum (n : Z)
| VStr (s : string)
| VArr (l : list JsVal)
| VObj (o : list (string * JsVal)).

(** An object literal: own enumerable properties in insertion order. *)
Abbreviation Props := (list (string * JsVal)).

(** Property lists over any kind of value: lookup of the first binding,
    assignment (overwrite in place or append), [delete o[k]], and
    [Object.assign]. *)
Fixpoint alist_get {V : Type} (k : string) (o : list (string * V)) : option V :=
  match o with
  | [] => None
  | (k', v) :: rest => if String.eqb k k' then Some v else alist_get k rest
  end.

Fixpoint alist_set {V : Type} (k : string) (v : V) (o : list (string * V))
    : list (string * V) :=
  match o with
  | [] => [(k, v)]
  | (k', v') :: rest =>
      if String.eqb k k' then (k, v) :: rest else (k', v') :: alist_set k v rest
  end.

Definition alist_remove {V : Type} (k : string) (o : list (string * V))
    : list (string * V) :=
  List.filter (fun kv => negb (String.eqb k (fst kv))) o.

Definition alist_assign {V : Type} (target source : list (string * V))
    : list (string * V) :=
  fold_left (fun acc kv => alist_set (fst kv) (snd kv) acc) source target.

(** [!!v] of JavaScript. *)
Definition truthy (v : JsVal) : bool :=
  match v with
  | VUndefined | VNull => false
  | VBool b => b
  | VNum n => negb (n =? 0)%Z
  | VStr s => negb (String.eqb s "")
  | VArr _ | VObj _ => true
  end.

(** [typeof v === 'object'] (true of [null], of arrays and of objects). *)
Definition typeof_object (v : JsVal) : bool :=
  match v with
  | VNull | VArr _ | VObj _ => true
  | _ => false
  end.

(** [typeof v !== 'undefined']. *)
Definition defined (v : JsVal) : bool :=
  match v with
  | VUndefined => false
  | _ => true
  end.

(** [Array.isArray v]. *)
Definition isArray (v : JsVal) : bool :=
  match v with
  | VArr _ => true
  | _ => false
  end.

Definition string_of_Z (n : Z) : string :=
  NilZero.string_of_int (Z.to_int n).

(** The string a template literal [`${v}`] renders (numbers are the
    integers here). *)
Fixpoint ToString (v : JsVal) : string :=
  match v with
  | VUndefined => "undefined"
  | VNull => "null"
  | VBool true => "true"
  | VBool false => "false"
  | VNum n => string_of_Z n
  | VStr s => s
  | VArr l =>
      String.concat ","
        (map (fun e => match e with
                       | VUndefined | VNull => ""
                       | _ => ToString e
                       end) l)
  | VObj _ => "[object Object]"
  end.

(** [o[k]]: the first binding of [k], [undefined] when there is none. *)
Definition prop_get (k : string) (o : Props) : JsVal :=
  match alist_get k o with
  | Some v => v
  | None => VUndefined
  end.

(** The own enumerable properties spread by [{...v}]: those of an object,
    none for [undefined], [null] and the other primitives modelled here
    (the characters of a string are not modelled). *)
Definition spread (v : JsVal) : Props :=
  match v with
  | VObj o => o
  | _ => []
  end.

(** [v[k]] on a value. *)
Definition member (v : JsVal) (k : string) : JsVal :=
  match v with
  | VObj o => prop_get k o
  | _ => VUndefined
  end.

Fixpoint indexed_from (i : nat) (l : list JsVal) : Props :=
  match l with
  | [] => []
  | x :: rest => (string_of_Z (Z.of_nat i), x) :: indexed_from (S i) rest
  end.

(** The (key, value) pairs [forEach] of [utils] visits: the elements of an
    array with their indices, the own properties of an object. *)
Definition entries (v : JsVal) : Props :=
  match v with
  | VArr l => indexed_from 0 l
  | VObj o => o
  | _ => []
  end.

(** Modelled from the spec: [forEach] of [utils] is not among the sources.
    It visits the entries of its target in order (the drain of section
    4.2 is "in original order"), and, as the constructor of [Net] relies
    on, stops as soon as the callback returns [false]. The callback is a
    state transformer that also says whether to go on. *)
Fixpoint forEach {A S : Type} (target : list A)
    (eachFunc : A -> S -> S * bool) (s : S) : S :=
  match target with
  | [] => s
  | x :: rest =>
      let (s', go_on) := eachFunc x s in
      if go_on then forEach rest eachFunc s' else s'
  end.

(** Modelled from the spec: [isEmptyObject] of [utils] is not among the
    sources; an object is empty when it has no own enumerable property. *)
Definition isEmptyObject (v : JsVal) : bool :=
  match entries v with
  | [] => true
  | _ => false
  end.

(** Structural equality of values, for the primitives the comparison
    [===] of JavaScript. *)
Fixpoint eqb (a b : JsVal) : bool :=
  match a, b with
  | VUndefined, VUndefined => true
  | VNull, VNull => true
  | VBool x, VBool y => Bool.eqb x y
  | VNum x, VNum y => Z.eqb x y
  | VStr x, VStr y => String.eqb x y
  | VArr l1, VArr l2 =>
      (fix go (l1 l2 : list JsVal) : bool :=
         match l1, l2 with
         | [], [] => true
         | x :: xs, y :: ys => eqb x y && go xs ys
         | _, _ => false
         end) l1 l2
  | VObj o1, VObj o2 =>
      (fix go (o1 o2 : Props) : bool :=
         match o1, o2 with
         | [], [] => true
         | (k1, x) :: xs, (k2, y) :: ys => String.eqb k1 k2 && eqb x y && go xs ys
         | _, _ => false
         end) o1 o2
  | _, _ => false
  end.

(** [s.indexOf(c) !== -1] for a one-character needle. *)
Fixpoint includes_char (c : ascii) (s : string) : bool :=
  match s with
  | EmptyString => false
  | String c' rest => if Ascii.eqb c c' then true else includes_char c rest
  end.

End Js.

Import Js.

(** ** [SDKFetch] and the [Http] objects it configures ([src/SDKFetch.ts],
    first half of [src/Net/Http.ts]) *)

Module Fetch.

(** Objects that are shared by reference live in a heap. A property holds
    a literal value or a reference to another heap object, so that a
    shallow copy can be told from a deep one. *)
Inductive HVal : Type :=
| HLit (v : JsVal)
| HRef (l : nat).

Abbreviation HObj := (list (string * HVal)).

Definition hval_truthy (v : HVal) : bool :=
  match v with
  | HLit v => truthy v
  | HRef _ => true
  end.

Definition alloc (o : HObj) (h : gmap nat HObj) : nat * gmap nat HObj :=
  let l := fresh (dom h) in (l, <[l := o]> h).

Definition heap_read (l : nat) (h : gmap nat HObj) : HObj :=
  default [] (h !! l).

(** [obj[k] = v] and [delete obj[k]] through a reference. *)
Definition heap_write (l : nat) (k : string) (v : HVal) (h : gmap nat HObj)
    : gmap nat HObj :=
  <[l := alist_set k v (heap_read l h)]> h.

Definition heap_delete (l : nat) (k : string) (h : gmap nat HObj)
    : gmap nat HObj :=
  <[l := alist_remove k (heap_read l h)]> h.

(** *** [Http] *)

Record Http : Type := mkHttp {
  url : string;
  _opts : nat;
  includeHeaders : bool
}.

(** [new Http(url, errorAdapter$, includeHeaders)]: [_opts] starts as
    [Http.defaultOpts()], two fresh objects. *)
Definition Http_new (u : string) (incl : bool) (h : gmap nat HObj)
    : Http * gmap nat HObj :=
  let (lh, h1) := alloc [] h in
  let (lo, h2) :=
    alloc [("headers", HRef lh); ("credentials", HLit (VStr "include"))] h1 in
  (mkHttp u lo incl, h2).

Definition Http_headers_ref (http : Http) (h : gmap nat HObj) : option nat :=
  match alist_get "headers" (heap_read (_opts http) h) with
  | Some (HRef l) => Some l
  | _ => None
  end.

(** [setHeaders]: [this._opts.headers = { ...this._opts.headers, ...headers }];
    the argument is only read. *)
Definition Http_setHeaders (hs : HObj) (http : Http) (h : gmap nat HObj)
    : gmap nat HObj :=
  let old := match Http_headers_ref http h with
             | Some l => heap_read l h
             | None => []
             end in
  let (l, h1) := alloc (alist_assign old hs) h in
  heap_write (_opts http) "headers" (HRef l) h1.

(** [setToken]: [delete this._opts.credentials], then
    [this._opts.headers.Authorization = `OAuth2 ${token}`], a write into the
    object [_opts.headers] points to. *)
Definition Http_setToken (tok : string) (http : Http) (h : gmap nat HObj)
    : gmap nat HObj :=
  let h1 := heap_delete (_opts http) "credentials" h in
  match Http_headers_ref http h1 with
  | Some l => heap_write l "Authorization" (HLit (VStr ("OAuth2 " +:+ tok))) h1
  | None => h1
  end.

(** [setOpts]: [this._opts = { ...this._opts, ...opts }], a new object. *)
Definition Http_setOpts (opts : HObj) (http : Http) (h : gmap nat HObj)
    : Http * gmap nat HObj :=
  let (l, h1) := alloc (alist_assign (heap_read (_opts http) h) opts) h in
  (mkHttp (url http) l (includeHeaders http), h1).

Definition Http_setUrl (u : string) (http : Http) : Http :=
  mkHttp u (_opts http) (includeHeaders http).

(** [restore]: [this._opts = Http.defaultOpts()], two new objects. *)
Definition Http_restore (http : Http) (h : gmap nat HObj)
    : Http * gmap nat HObj :=
  let (lh, h1) := alloc [] h in
  let (lo, h2) :=
    alloc [("headers", HRef lh); ("credentials", HLit (VStr "include"))] h1 in
  (mkHttp (url http) lo (includeHeaders http), h2).

(** *** [SDKFetch] *)

(** [SDKFetchOptions]: the named entries, and the remaining ("unnamed")
    ones that [getUnnamedOptions] collects. [o_headers] is the content of
    the [headers] entry, its [merge] flag included. *)
Record SDKFetchOptions : Type := mkOptions {
  o_apiHost : option string;
  o_token : option string;
  o_headers : option HObj;
  o_wrapped : bool;
  o_includeHeaders : bool;
  o_unnamed : HObj
}.

Definition no_options : SDKFetchOptions :=
  mkOptions None None None false false [].

Definition getUnnamedOptions (options : SDKFetchOptions) : HObj :=
  o_unnamed options.

(** [a || b] on an optional string: the empty string is falsy too. *)
Definition string_or (a : option string) (b : string) : string :=
  match a with
  | Some s => if String.eqb s "" then b else s
  | None => b
  end.

(** The private fields of an instance; [headers] and [options] are
    references to objects the instance was given. *)
Record SDKFetch : Type := mkSDKFetch {
  apiHost : string;
  token : string;
  headers : nat;
  options : nat
}.

(** [defaultSDKFetchHeaders()]. *)
Definition defaultSDKFetchHeaders : HObj :=
  [("Accept", HLit (VStr "application/json"));
   ("Content-Type", HLit (VStr "application/json"))].

(** One deferred stream built by [get]: the [Observable.defer(...)] with its
    [finalize], identified by [d_id]. [d_key] is the [urlWithQuery] its
    finalizer deletes, [d_http] and [d_urlWithTail] are what its factory
    uses to open a request. *)
Record Dist : Type := mkDist {
  d_id : nat;
  d_key : string;
  d_urlWithTail : string;
  d_http : Http
}.

(** The static part of the class together with what the streams it handed
    out are doing.
    - [FetchStack]: the static map, from [urlWithQuery] to a stream.
    - [dists]: every stream [get] created, by identity.
    - [inflight]: the live subscriptions, as (subscription, stream); each
      one holds one open transport call.
    - [calls]: the URL of every transport call opened so far. *)
Record World : Type := mkWorld {
  heap : gmap nat HObj;
  FetchStack : gmap string nat;
  dists : list Dist;
  inflight : list (nat * nat);
  calls : list string;
  next_sub : nat
}.

Definition set_heap (h : gmap nat HObj) (w : World) : World :=
  mkWorld h (FetchStack w) (dists w) (inflight w) (calls w) (next_sub w).

Fixpoint alist_nat_get {V : Type} (k : nat) (o : list (nat * V)) : option V :=
  match o with
  | [] => None
  | (k', v) :: rest => if Nat.eqb k k' then Some v else alist_nat_get k rest
  end.

Definition urlWithPath (this : SDKFetch) (path : string)
    (host : option string) : string :=
  string_or host (apiHost this) +:+ "/" +:+ path.

(** The callback [_buildQuery] hands to [forEach]. The state is [result]
    together with the warnings given to [SDKLogger.warn]. *)
Definition buildQuery_each (entry : string * JsVal)
    (st : list string * list string) : (list string * list string) * bool :=
  let '(key, val) := entry in
  let '(result, warned) := st in
  if String.eqb key "_" then
    ((result,
      (warned ++ ["query should not contain key '_', it will be ignored"])%list),
     true)
  else
    match val with
    | VArr l =>
        ((fold_left
            (fun acc _val =>
               if defined _val then (acc ++ [key +:+ "=" +:+ ToString _val])%list
               else acc) l result,
          warned), true)
    | _ =>
        if defined val
        then (((result ++ [key +:+ "=" +:+ ToString val])%list, warned), true)
        else ((result, warned), true)
    end.

(** [_buildQuery(url, query)]: the URL with its query string, and the
    warnings logged on the way. *)
Definition _buildQuery (u : string) (query : JsVal) : string * list string :=
  if negb (typeof_object query) || negb (truthy query) then (u, [])
  else
    let '(result, warned) := forEach (entries query) buildQuery_each ([], []) in
    let _query :=
      if includes_char "?" u
      then match result with
           | [] => ""
           | _ => "&" +:+ String.concat "&" result
           end
      else match result with
           | [] => ""
           | _ => "?" +:+ String.concat "&" result
           end in
    (u +:+ _query, warned).

(** The parameters of a query, said directly: what one entry of the
    query object contributes to the query string. An entry named ["_"]
    contributes nothing, an undefined value nothing, an array one
    parameter for each of its defined elements, any other value one
    parameter. *)
Definition params_of_entry (entry : string * JsVal) : list (string * string) :=
  let (key, val) := entry in
  if String.eqb key "_" then []
  else
    match val with
    | VArr l => map (fun v => (key, ToString v)) (List.filter defined l)
    | _ => if defined val then [(key, ToString val)] else []
    end.

Definition render_param (p : string * string) : string :=
  fst p +:+ "=" +:+ snd p.

Definition warnings_of_entry (entry : string * JsVal) : list string :=
  if String.eqb (fst entry) "_"
  then ["query should not contain key '_', it will be ignored"]
  else [].

(** [setOptionsPerRequest(http, fetchOptions)]. *)
Definition setOptionsPerRequest (this : SDKFetch) (http : Http)
    (fetchOptions : SDKFetchOptions) (h : gmap nat HObj)
    : Http * gmap nat HObj :=
  let hdrs :=
    match o_headers fetchOptions with
    | Some fh =>
        let merge := match alist_get "merge" fh with
                     | Some v => hval_truthy v
                     | None => false
                     end in
        let hdrs := alist_remove "merge" fh in
        if merge then alist_assign (heap_read (headers this) h) hdrs else hdrs
    | None => heap_read (headers this) h
    end in
  let tok := string_or (o_token fetchOptions) (token this) in
  let opts := match getUnnamedOptions fetchOptions with
              | [] => heap_read (options this) h
              | o => o
              end in
  let h1 := Http_setHeaders hdrs http h in
  let h2 := if String.eqb tok "" then h1 else Http_setToken tok http h1 in
  match opts with
  | [] => (http, h2)
  | _ => Http_setOpts opts http h2
  end.

(** What a request method hands back: the stream itself, or, with
    [wrapped], the [Http] object whose [request] is that stream. *)
Inductive Returned : Type :=
| Stream (d : nat)
| Wrapped (http : Http) (d : nat).

Definition stream_of (r : Returned) : nat :=
  match r with
  | Stream d => d
  | Wrapped _ d => d
  end.

(** [get(path, query, options)]. [tail] is [SDKFetch.fetchTail || Date.now()]
    as rendered into the URL. The stream is only created and stored here;
    its factory runs at subscription, see [subscribe]. *)
Definition get (this : SDKFetch) (path : string) (query : JsVal)
    (opts : SDKFetchOptions) (tail : string) (w : World)
    : Returned * list string * World :=
  let u := urlWithPath this path (o_apiHost opts) in
  let '(urlWithQuery, warned) :=
    if truthy query then _buildQuery u query else (u, []) in
  let '(http0, h0) := Http_new "" (o_includeHeaders opts) (heap w) in
  let '(http, h1) := setOptionsPerRequest this http0 opts h0 in
  let w1 := set_heap h1 w in
  let w2 :=
    match FetchStack w1 !! urlWithQuery with
    | Some _ => w1
    | None =>
        let urlWithTail :=
          if truthy query && negb (isEmptyObject query)
          then urlWithQuery +:+ "&_=" +:+ tail
          else urlWithQuery +:+ "?_=" +:+ tail in
        let id := length (dists w1) in
        mkWorld (heap w1) (<[urlWithQuery := id]> (FetchStack w1))
          (dists w1 ++ [mkDist id urlWithQuery urlWithTail http])%list
          (inflight w1) (calls w1) (next_sub w1)
    end in
  let d := default 0 (FetchStack w2 !! urlWithQuery) in
  ((if o_wrapped opts then Wrapped http d else Stream d), warned, w2).

(** Subscribing to the stream [d]. [Observable.defer] calls its factory
    once for every subscriber, so every subscription runs
    [http.setUrl(urlWithTail).get()] and [request.send()] anew and
    subscribes to that new cold request through a [publishReplay(1)],
    [refCount()] pair of its own: one transport call per subscription.
    The result is the subscription's identifier. *)
Definition subscribe (d : nat) (w : World) : option nat * World :=
  match dists w !! d with
  | Some dist =>
      (Some (next_sub w),
       mkWorld (heap w) (FetchStack w) (dists w)
         (inflight w ++ [(next_sub w, d)])%list
         (calls w ++ [d_urlWithTail dist])%list
         (S (next_sub w)))
  | None => (None, w)
  end.

(** How a subscription comes to its end. *)
Inductive Ending : Type :=
| Completed
| Failed
| Unsubscribed.

(** The end of subscription [sub]: whichever way it ends, the [finalize]
    callback of its stream runs, [SDKFetch.FetchStack.delete(urlWithQuery)]. *)
Definition settle (sub : nat) (e : Ending) (w : World) : World :=
  match alist_nat_get sub (inflight w) with
  | Some d =>
      match dists w !! d with
      | Some dist =>
          mkWorld (heap w) (delete (d_key dist) (FetchStack w)) (dists w)
            (List.filter (fun sd => negb (Nat.eqb (fst sd) sub)) (inflight w))
            (calls w) (next_sub w)
      | None => w
      end
  | None => w
  end.

(** The transport calls that are open for the key [k]. *)
Definition inflight_for (k : string) (w : World) : list nat :=
  map fst
    (List.filter
       (fun sd => match dists w !! snd sd with
                  | Some dist => String.eqb (d_key dist) k
                  | None => false
                  end) (inflight w)).

(** [post], [put] and [delete] share their body: a new [Http], the
    per-request options, then [http.setUrl(url).post(body)], which only
    builds a cold request. *)
Definition send_body (this : SDKFetch) (path : string)
    (opts : SDKFetchOptions) (w : World) : Http * World :=
  let '(http0, h0) := Http_new "" (o_includeHeaders opts) (heap w) in
  let u := urlWithPath this path (o_apiHost opts) in
  let '(http, h1) := setOptionsPerRequest this http0 opts h0 in
  (Http_setUrl u http, set_heap h1 w).

Definition post (this : SDKFetch) (path : string) (body : JsVal)
    (opts : SDKFetchOptions) (w : World) : Http * World :=
  send_body this path opts w.

Definition put (this : SDKFetch) (path : string) (body : JsVal)
    (opts : SDKFetchOptions) (w : World) : Http * World :=
  send_body this path opts w.

Definition setAPIHost (host : string) (this : SDKFetch) : SDKFetch :=
  mkSDKFetch host (token this) (headers this) (options this).

Definition getAPIHost (this : SDKFetch) : string := apiHost this.

Definition setHeaders (hs : nat) (this : SDKFetch) : SDKFetch :=
  mkSDKFetch (apiHost this) (token this) hs (options this).

(** [getHeaders()]: [{ ...this.headers }], a new object. *)
Definition getHeaders (this : SDKFetch) (w : World) : nat * World :=
  let (l, h) := alloc (heap_read (headers this) (heap w)) (heap w) in
  (l, set_heap h w).

Definition setToken (t : string) (this : SDKFetch) : SDKFetch :=
  mkSDKFetch (apiHost this) t (headers this) (options this).

Definition getToken (this : SDKFetch) : string := token this.

Definition setOptions (os : nat) (this : SDKFetch) : SDKFetch :=
  mkSDKFetch (apiHost this) (token this) (headers this) os.

(** [getOptions()]: [{ ...this.options }], a new object. *)
Definition getOptions (this : SDKFetch) (w : World) : nat * World :=
  let (l, h) := alloc (heap_read (options this) (heap w)) (heap w) in
  (l, set_heap h w).

Definition getUserMe (this : SDKFetch) (tail : string) (w : World)
    : Returned * list string * World :=
  get this "users/me" VUndefined no_options tail w.

(** The [delete] method of the class. *)
Definition delete_ (this : SDKFetch) (path : string) (body : JsVal)
    (opts : SDKFetchOptions) (w : World) : Http * World :=
  send_body this path opts w.

(** The public methods of an instance, as calls. *)
Inductive Call : Type :=
| CallGet (path : string) (query : JsVal) (opts : SDKFetchOptions)
    (tail : string)
| CallPost (path : string) (body : JsVal) (opts : SDKFetchOptions)
| CallPut (path : string) (body : JsVal) (opts : SDKFetchOptions)
| CallDelete (path : string) (body : JsVal) (opts : SDKFetchOptions)
| CallSetAPIHost (host : string)
| CallGetAPIHost
| CallSetHeaders (hs : nat)
| CallGetHeaders
| CallSetToken (t : string)
| CallGetToken
| CallSetOptions (os : nat)
| CallGetOptions
| CallGetUserMe (tail : string).

(** The instance and the world after a call (what the call returns is
    dropped). *)
Definition call (c : Call) (this : SDKFetch) (w : World) : SDKFetch * World :=
  match c with
  | CallGet path query opts tail => (this, snd (get this path query opts tail w))
  | CallPost path body opts => (this, snd (post this path body opts w))
  | CallPut path body opts => (this, snd (put this path body opts w))
  | CallDelete path body opts => (this, snd (delete_ this path body opts w))
  | CallSetAPIHost host => (setAPIHost host this, w)
  | CallGetAPIHost => (this, w)
  | CallSetHeaders hs => (setHeaders hs this, w)
  | CallGetHeaders => (this, snd (getHeaders this w))
  | CallSetToken t => (setToken t this, w)
  | CallGetToken => (this, w)
  | CallSetOptions os => (setOptions os this, w)
  | CallGetOptions => (this, snd (getOptions this w))
  | CallGetUserMe tail => (this, snd (getUserMe this tail w))
  end.

(** [new SDKFetch()] with the default arguments, in a world where nothing
    has happened yet. *)
Definition SDKFetch_new : SDKFetch * World :=
  let (lh, h1) := alloc defaultSDKFetchHeaders ∅ in
  let (lo, h2) := alloc [] h1 in
  (mkSDKFetch "https://www.teambition.com/api" "" lh lo,
   mkWorld h2 ∅ [] [] [] 0).

(** What a caller can do to an object it holds a reference to. *)
Inductive Mutation : Type :=
| SetProp (k : string) (v : HVal)
| DeleteProp (k : string).

Definition mutate (l : nat) (ms : list Mutation) (h : gmap nat HObj)
    : gmap nat HObj :=
  fold_left
    (fun h m => match m with
                | SetProp k v => heap_write l k v h
                | DeleteProp k => heap_delete l k h
                end) ms h.

(** [h'] still holds, unchanged, every object [h0] held. *)
Definition keeps (h0 h' : gmap nat HObj) : Prop :=
  forall l, l ∈ dom h0 -> h' !! l = h0 !! l.

(** The headers object of an [Http] is one of the new ones, as long as its
    [_opts] is. *)
Definition private (h0 : gmap nat HObj) (http : Http) (h : gmap nat HObj)
    : Prop :=
  (_opts http ∉ dom h0)
  /\ match Http_headers_ref http h with
     | Some l => l ∉ dom h0
     | None => True
     end.

(** *** What a request sends: [createMethod] (first half of [src/Net/Http.ts])

    [createMethod] has two branches: one goes through [Observable.ajax]
    and is taken when [testable.UseXMLHTTPRequest] is set and there is a
    [window]; the other one goes through [fetch]. *)

(** The binding of [k] that wins when the entries of [o] are assigned one
    after the other, as a spread does: the last one. *)
Definition last_binding {V : Type} (k : string) (o : list (string * V))
    : option V :=
  alist_get k (rev o).

(** [type AllowedHttpMethod]. *)
Inductive AllowedHttpMethod : Type :=
| GET
| POST
| PUT
| DELETE.

Definition method_name (method : AllowedHttpMethod) : string :=
  match method with
  | GET => "get"
  | POST => "post"
  | PUT => "put"
  | DELETE => "delete"
  end.

(** [type MethodParams]. [errorAdapter$] is left out: what is sent to it
    is part of what [createMethod] returns here. [p_opts] is the reference
    [params()] copied from [this._opts] when the request was built. *)
Record MethodParams : Type := mkParams {
  p_url : string;
  p_body : JsVal;
  p_opts : nat;
  p_includeHeaders : bool
}.

(** [{ ...this.params(), body }] of [Http.post], [put] and [delete];
    [Http.get] passes [this.params()], whose [body] is [undefined]. *)
Definition params (http : Http) (body : JsVal) : MethodParams :=
  mkParams (url http) body (_opts http) (includeHeaders http).

(** The [_options] given to [fetch]: [{ ..._opts, method }], then
    [_options.body] when the body is truthy, stringified when it is an
    object. They are built when the request is subscribed, from the
    object [_opts] refers to at that time. *)
Definition fetch_options (JSON_stringify : JsVal -> string)
    (method : AllowedHttpMethod) (p : MethodParams) (h : gmap nat HObj)
    : HObj :=
  let _options :=
    alist_set "method" (HLit (VStr (method_name method)))
      (heap_read (p_opts p) h) in
  if truthy (p_body p)
  then alist_set "body"
         (HLit (if typeof_object (p_body p)
                then VStr (JSON_stringify (p_body p))
                else p_body p))
         _options
  else _options.

(** The object [_options.headers] refers to. *)
Definition fetch_headers (JSON_stringify : JsVal -> string)
    (method : AllowedHttpMethod) (p : MethodParams) (h : gmap nat HObj)
    : HObj :=
  match alist_get "headers" (fetch_options JSON_stringify method p h) with
  | Some (HRef l) => heap_read l h
  | _ => []
  end.

(** What [Observable.ajax] is given in the first branch, built when the
    method of [Http] is called, from the object [_opts] refers to at that
    time: the body as it is, the headers by reference. *)
Definition ajax_request (method : AllowedHttpMethod) (p : MethodParams)
    (h : gmap nat HObj) : HObj :=
  let _opts := heap_read (p_opts p) h in
  [("url", HLit (VStr (p_url p)));
   ("body", HLit (p_body p));
   ("method", HLit (VStr (method_name method)));
   ("headers", default (HLit VUndefined) (alist_get "headers" _opts));
   ("withCredentials",
    HLit (VBool match alist_get "credentials" _opts with
                | Some (HLit (VStr c)) => String.eqb c "include"
                | _ => false
                end));
   ("responseType",
    match alist_get "responseType" _opts with
    | Some v => if hval_truthy v then v else HLit (VStr "json")
    | None => HLit (VStr "json")
    end);
   ("crossDomain",
    HLit (VBool match alist_get "crossDomain" _opts with
                | Some (HLit VUndefined) | None => true
                | Some v => hval_truthy v
                end))].

(** A [Response]: what [fetch] resolves with, and what the handler of
    [catchError] builds in the first branch. [response_text] is what the
    promise of [text()] settles with, [inl] for a rejection. *)
Record Response : Type := mkResponse {
  status : Z;
  statusText : string;
  response_headers : JsVal;
  response_text : JsVal + string
}.

(** What [fetch] answers: a response, or a rejection. *)
Inductive FetchAnswer : Type :=
| Resolved (response : Response)
| Rejected (reason : JsVal).

(** The [xhr] of what [Observable.ajax] answers, as far as it is read;
    [getAllResponseHeaders] is the string the method of that name
    returns. *)
Record XMLHttpRequest : Type := mkXhr {
  xhr_status : Z;
  xhr_statusText : string;
  xhr_response : JsVal;
  getAllResponseHeaders : string
}.

(** What [Observable.ajax] answers: an [AjaxResponse], with its
    [response] and its [xhr], or an [AjaxError], with its [xhr]. *)
Inductive AjaxAnswer : Type :=
| AjaxResponse (response : JsVal) (xhr : XMLHttpRequest)
| AjaxError (xhr : XMLHttpRequest).

(** The branch [createMethod] takes, with what the transport of that
    branch answers: [ViaAjax] when [testable.UseXMLHTTPRequest] is set
    and [typeof window] is not ['undefined'], [ViaFetch] otherwise. *)
Inductive Transport : Type :=
| ViaAjax (answer : AjaxAnswer)
| ViaFetch (answer : FetchAnswer).

(** [interface HttpErrorMessage]; [error] is whatever reached the [catch]
    of the promise chain (a response or a reason), or the response the
    handler of [catchError] has built. *)
Record HttpErrorMessage : Type := mkHttpError {
  error : FetchAnswer;
  e_method : AllowedHttpMethod;
  e_url : string;
  e_body : JsVal
}.

(** What the observer of a request is told: [next(result)] followed by
    [complete()], or [error(sdkError)], or the error of something that
    was thrown while [sdkError] was being built. *)
Inductive Notification : Type :=
| Next (result : JsVal)
| Error (sdkError : HttpErrorMessage)
| Thrown (e : JsVal).

(** [createMethod(method)(params)], subscribed: what the observer is
    told, and what is sent to [errorAdapter$] (10 ms later).

    Taken as parameters: [JSON.parse], which answers [None] where it
    throws; [JSON.stringify]; [headers2Object] and [parseHeaders] of
    [utils], which are not among the sources; and [Response_new text
    status statusText init], which stands for
    [new Response(new Blob([text]), { status, statusText, headers })]
    with [headers] being [new Headers(init)], or [new Headers()] when
    [init] is [None], and answers [inl] with what one of the constructors
    throws.

    In the first branch [JSON.parse] is given [value.response], whatever
    it is, and turns it into a string first. The subscriber is taken not
    to throw from [next] and [complete]. *)
Definition createMethod (JSON_parse : string -> option JsVal)
    (JSON_stringify : JsVal -> string)
    (headers2Object : JsVal -> JsVal) (parseHeaders : string -> JsVal)
    (Response_new : string -> Z -> string -> option JsVal -> JsVal + Response)
    (method : AllowedHttpMethod) (p : MethodParams) (transport : Transport)
    : Notification * list HttpErrorMessage :=
  match transport with
  | ViaAjax (AjaxResponse resp xhr) =>
      let result :=
        match JSON_parse (ToString resp) with
        | Some respBody =>
            if negb (p_includeHeaders p)
            then VObj [("headers", parseHeaders (getAllResponseHeaders xhr));
                       ("body", respBody)]
            else respBody
        | None => resp
        end in
      (Next result, [])
  | ViaAjax (AjaxError xhr) =>
      let headers := getAllResponseHeaders xhr in
      match Response_new (JSON_stringify (xhr_response xhr))
              (xhr_status xhr) (xhr_statusText xhr)
              (if negb (String.length headers =? 0)%nat
               then Some (parseHeaders headers) else None) with
      | inr response =>
          let sdkError :=
            mkHttpError (Resolved response) method (p_url p) (p_body p) in
          (Error sdkError, [sdkError])
      | inl e => (Thrown e, [])
      end
  | ViaFetch answer =>
      let failed (e : FetchAnswer) :=
        let sdkError := mkHttpError e method (p_url p) (p_body p) in
        (Error sdkError, [sdkError]) in
      match answer with
      | Resolved response =>
          if (200 <=? status response)%Z && (status response <? 400)%Z then
            match response_text response with
            | inr respText =>
                let result :=
                  match JSON_parse respText with
                  | Some respBody =>
                      if negb (p_includeHeaders p) then respBody
                      else VObj [("headers",
                                  headers2Object (response_headers response));
                                 ("body", respBody)]
                  | None => VStr respText
                  end in
                (Next result, [])
            | inl reason => failed (Rejected reason)
            end
          else failed (Resolved response)
      | Rejected reason => failed (Rejected reason)
      end
  end.

(** The request [post], [put] or [delete] of [SDKFetch] builds, with the
    heap it reads its options from. *)
Definition request_of (this : SDKFetch) (path : string) (body : JsVal)
    (opts : SDKFetchOptions) (w : World) : MethodParams * gmap nat HObj :=
  (params (fst (send_body this path opts w)) body,
   heap (snd (send_body this path opts w))).

(** The [merge] flag of the [headers] entry of the options. *)
Definition merge_flag (fh : HObj) : bool :=
  match alist_get "merge" fh with
  | Some v => hval_truthy v
  | None => false
  end.

(** The token [setOptionsPerRequest] settles on, and the options it hands
    to [setOpts]. *)
Definition chosen_token (this : SDKFetch) (opts : SDKFetchOptions) : string :=
  string_or (o_token opts) (token this).

Definition chosen_options (this : SDKFetch) (opts : SDKFetchOptions)
    (h : gmap nat HObj) : HObj :=
  match o_unnamed opts with
  | [] => heap_read (options this) h
  | o => o
  end.

(** What [get] puts between [urlWithQuery] and the tail. *)
Definition tail_separator (query : JsVal) : string :=
  if truthy query && negb (isEmptyObject query) then "&_=" else "?_=".

(** For the examples: a second instance, which has a token; options
    that add a header to those of the instance; the first page of the
    tasks; and the world in which the first instance has asked for that
    page and subscribed. *)
Definition with_token : SDKFetch := setToken "abc" (fst SDKFetch_new).

Definition traced : SDKFetchOptions :=
  mkOptions None None
    (Some [("X-Trace", HLit (VStr "1")); ("merge", HLit (VBool true))])
    false false [].

Definition page1 : JsVal := VObj [("page", VNum 1)].

Definition page1_asked : World :=
  let a := get (fst SDKFetch_new) "tasks" page1 no_options "7" (snd SDKFetch_new) in
  snd (subscribe (stream_of (fst (fst a))) (snd a)).

End Fetch.

(** ** The buffering engine: class [Net] (second half of [src/Net/Http.ts]) *)

Module Engine.

(** [enum CacheStrategy { Request = 200, Cache }]: both members are truthy,
    which is what [lift] tests to tell a read from a write. *)
Inductive CacheStrategy : Type :=
| Request
| Cache.

(** Anything can be thrown or sent down the error channel of a stream. *)
Abbreviation Error := JsVal.

(** Exceptions thrown synchronously by the methods of [Net]. *)
Inductive Exception : Type :=
| TypeError (message : string).

(** What a network stream answers. The transport answers once:
    [createMethod] in [Http.ts] sends one [next] followed by [complete], or
    one [error]. *)
Inductive Reply : Type :=
| Emits (v : JsVal)
| Throws (e : Error).

(** A request stream handed in by a caller: [r_id] tells the streams apart
    in the trace, [reply] is what the transport answers when the stream is
    subscribed. *)
Record RequestStream : Type := mkRequest {
  r_id : nat;
  reply : Reply
}.

(** [interface ApiResult<T, U extends CacheStrategy>]. Optional entries
    that are objects or arrays are options; [assocFields] is a value, and
    [VUndefined] when absent. *)
Record ApiResult : Type := mkApiResult {
  request : RequestStream;
  query : JsVal;
  tableName : string;
  cacheValidate : CacheStrategy;
  required : option (list string);
  assocFields : JsVal;
  excludeFields : option (list string);
  padding : option (JsVal -> Reply)
}.

(** The [method] of a [CUDApiResult]: ['create' | 'update' | 'delete']. *)
Inductive CUDMethod : Type :=
| Create
| Update
| Delete.

(** [type CUDApiResult<T> = CApiResult<T> | UDResult<T>]; [clause] is only
    read for [Delete]. *)
Record CUDApiResult : Type := mkCUD {
  cud_request : RequestStream;
  cud_tableName : string;
  cud_method : CUDMethod;
  clause : JsVal
}.

(** The method of the store a buffered write names. [bufferCUDResponse]
    writes ['upsert'] for a create or an update and keeps ['delete'];
    [persist] then calls [database[v.method]]. *)
Inductive StoreMethod : Type :=
| MUpsert
| MDelete.

(** [type SocketMessage]. *)
Record SocketMessage : Type := mkSocketMessage {
  sm_id : string;
  sm_method : string;
  sm_data : JsVal
}.

(** [type BufferObject]: the three kinds of buffered operation. A
    [BehaviorSubject] is named by its index in the world. *)
Inductive BufferObject : Type :=
| CUD (tableName : string) (method : StoreMethod) (value : JsVal)
| SocketCUD (arg : string) (socketMessage : SocketMessage) (pkName : string)
    (type : JsVal)
| Selector (realSelectorInfo : ApiResult) (proxySelector : nat).

(** A selector of the store layer, as far as the engine can tell two
    apart: where its rows come from and the operator attached to it by
    [map]. The only operator the engine attaches is [validate(result)],
    so the operator is named by its [result].
    - [FromStore db table q] is the selector of
      [db.get(table, q, JoinMode.explicit)].
    - [FromRequest request q table] is the [ProxySelector] that stands in
      before a store is attached: its rows are the network answer. *)
Inductive SelectorSource : Type :=
| FromStore (db : nat) (table : string) (q : JsVal)
| FromRequest (request : RequestStream) (q : JsVal) (table : string).

Record SelectorMeta : Type := mkSelector {
  source : SelectorSource;
  mapFn : option ApiResult
}.

(** The fields of a [Net] instance. *)
Record Net : Type := mkNet {
  fields : gmap string (list string);
  database : option nat;
  requestMap : gmap string bool;
  primaryKeys : gmap string string;
  persistedDataBuffer : list BufferObject
}.

(** What can be observed from outside, in the order it happens. *)
Inductive Event : Type :=
| Fetched (r : nat)
| Upserted (db : nat) (table : string) (v : JsVal)
| Deleted (db : nat) (table : string) (clause : JsVal)
| DirtyMerged (db : nat) (id : string) (type data : JsVal)
| Got (db : nat) (table : string) (q : JsVal)
| RowsRead (db : nat) (table : string) (q : JsVal)
| Marked (cacheKey : string)
| Padded (missedId : JsVal)
| Forwarded (subject : nat)
| Logged (e : Error).

(** The collaborators the engine is written against and that are not part
    of it: the store ([reactivedb]), the dirty-field handlers and
    [JSON.stringify].
    - A store operation is a cold stream that answers once (section 6 of
      the specification: the store hands back streams): nothing is done to
      the store before the stream is subscribed, and then the answer is
      the new content of the store, or an error.
    - [Dirty.handleSocketMessage] of [utils/Dirty] is not among the
      sources and is taken as it is used: it answers with a stream that
      merges into the store, [Some] of a store operation, or with [null],
      [None]. *)
Class Collaborators : Type := {
  Store : Type;
  db_upsert : string -> JsVal -> Store -> Error + Store;
  db_delete : string -> JsVal -> Store -> Error + Store;
  db_get : string -> JsVal -> Store -> Error + list JsVal;
  handleSocketMessage :
    string -> JsVal -> JsVal -> option (Store -> Error + Store);
  JSON_stringify : JsVal -> string
}.

Section WithCollaborators.

Context {X : Collaborators}.

(** The engine, the stores it may be attached to (by identity), the
    current value of every [BehaviorSubject], and the trace. *)
Record World : Type := mkWorld {
  net : Net;
  stores : nat -> Store;
  subjects : list SelectorMeta;
  trace : list Event
}.

Definition set_net (n : Net) (w : World) : World :=
  mkWorld n (stores w) (subjects w) (trace w).

Definition set_store (db : nat) (s : Store) (w : World) : World :=
  mkWorld (net w) (fun d => if Nat.eqb d db then s else stores w d)
    (subjects w) (trace w).

Definition log (e : Event) (w : World) : World :=
  mkWorld (net w) (stores w) (subjects w) (trace w ++ [e])%list.

(** *** Cold observables *)

(** The result of subscribing to a stream and letting it run: the values
    it emitted, the error it ended with ([None]: it completed), and the
    world it left. A stream is run to its end where it is subscribed: the
    answers of the network and of the store are taken to arrive before
    anything else is done to the engine. The order of the effects of one
    stream is the order its operators impose. *)
Record Outcome (A : Type) : Type := mkOutcome {
  emitted : list A;
  failure : option Error;
  after : World
}.

Arguments mkOutcome {A} _ _ _.
Arguments emitted {A} _.
Arguments failure {A} _.
Arguments after {A} _.

Definition Observable (A : Type) : Type := World -> Outcome A.

(** [Observable.of(v)] and [Observable.throw(e)]. *)
Definition Observable_of {A : Type} (v : A) : Observable A :=
  fun w => mkOutcome [v] None w.

Definition Observable_throw {A : Type} (e : Error) : Observable A :=
  fun w => mkOutcome [] (Some e) w.

(** The inner streams of a [concatMap] or [concatAll], one after the
    other: the next one is subscribed when the one before it completes,
    and none after one that fails. *)
Fixpoint concat_each {A B : Type} (project : A -> Observable B)
    (vs : list A) (w : World) : Outcome B :=
  match vs with
  | [] => mkOutcome [] None w
  | v :: rest =>
      let o := project v w in
      match failure o with
      | Some e => o
      | None =>
          let o' := concat_each project rest (after o) in
          mkOutcome (emitted o ++ emitted o')%list (failure o') (after o')
      end
  end.

Definition concatMap {A B : Type} (project : A -> Observable B)
    (src : Observable A) : Observable B :=
  fun w =>
    let o := src w in
    let o' := concat_each project (emitted o) (after o) in
    match failure o' with
    | Some e => o'
    | None => mkOutcome (emitted o') (failure o) (after o')
    end.

(** [Observable.from(queue).pipe(concatAll())]. *)
Definition concatAll {A : Type} (queue : list (Observable A)) : Observable A :=
  concat_each (fun inner => inner) queue.

(** [tap(f)] on the values, with a side effect on the world. *)
Definition tap {A : Type} (f : A -> World -> World) (src : Observable A)
    : Observable A :=
  fun w =>
    let o := src w in
    mkOutcome (emitted o) (failure o) (fold_left (fun w v => f v w) (emitted o) (after o)).

(** [tap({ error })]: the error passes through. *)
Definition tapError {A : Type} (f : Error -> World -> World)
    (src : Observable A) : Observable A :=
  fun w =>
    let o := src w in
    match failure o with
    | Some e => mkOutcome (emitted o) (Some e) (f e (after o))
    | None => o
    end.

Definition mapTo {A B : Type} (b : B) (src : Observable A) : Observable B :=
  fun w =>
    let o := src w in
    mkOutcome (map (fun _ => b) (emitted o)) (failure o) (after o).

Definition mapEach {A B : Type} (f : A -> B) (src : Observable A)
    : Observable B :=
  fun w =>
    let o := src w in
    mkOutcome (map f (emitted o)) (failure o) (after o).

(** Subscribing to a caller's request stream: one transport call. *)
Definition subscribe (r : RequestStream) : Observable JsVal :=
  fun w =>
    let w1 := log (Fetched (r_id r)) w in
    match reply r with
    | Emits v => mkOutcome [v] None w1
    | Throws e => mkOutcome [] (Some e) w1
    end.

(** *** The store, as streams *)

Definition run_store (op : Store -> Error + Store) (db : nat)
    : Observable unit :=
  fun w =>
    match op (stores w db) with
    | inr s => mkOutcome [tt] None (set_store db s w)
    | inl e => mkOutcome [] (Some e) w
    end.

(** [database.upsert(table, v)] and [database.delete(table, clause)]. *)
Definition upsert (db : nat) (table : string) (v : JsVal) : Observable unit :=
  fun w => run_store (db_upsert table v) db (log (Upserted db table v) w).

Definition delete (db : nat) (table : string) (c : JsVal) : Observable unit :=
  fun w => run_store (db_delete table c) db (log (Deleted db table c) w).

(** The error of calling a method on [this.database!] while it is still
    [undefined]. *)
Definition undefined_database : Error :=
  VStr "TypeError: Cannot read property of undefined".

(** A store operation on [this.database!] as it is when the stream runs. *)
Definition on_database {A : Type} (db : option nat)
    (op : nat -> Observable A) : Observable A :=
  match db with
  | Some d => op d
  | None => Observable_throw undefined_database
  end.

(** [type QueryToken]: the stream of its selectors. *)
Record QueryToken : Type := mkQueryToken {
  selector_ : Observable SelectorMeta
}.

(** [token.map(fn)]: every selector of the token gets [fn] as its
    operator. *)
Definition QueryToken_map (fn : ApiResult) (token : QueryToken) : QueryToken :=
  mkQueryToken
    (mapEach (fun s => mkSelector (source s) (Some fn)) (selector_ token)).

(** [dbGetWithSelfJoinEnabled(db, table, query)]:
    [db.get(table, query, JoinMode.explicit)]. *)
Definition dbGetWithSelfJoinEnabled (db : nat) (table : string) (q : JsVal)
    : QueryToken :=
  mkQueryToken
    (fun w => mkOutcome [mkSelector (FromStore db table q) None] None
                (log (Got db table q) w)).

(** *** The constructor *)

(** The two entries of a column definition the constructor reads. *)
Record ColumnDef : Type := mkColumn {
  virtual : bool;
  primaryKey : bool
}.

Definition SchemaDef : Type := list (string * ColumnDef).

(** [constructor(schemas)]: for each schema its non-virtual column names
    and the first column marked as primary key. *)
Definition Net_new (schemas : list (string * SchemaDef)) : Net :=
  let '(fs, pks) :=
    forEach schemas
      (fun (d : string * SchemaDef) (st : gmap string (list string) * gmap string string) =>
         let '(name, schema) := d in
         let '(fs, pks) := st in
         let fs' :=
           <[name := map fst (List.filter (fun kv => negb (virtual (snd kv))) schema)]> fs in
         let pks' :=
           forEach schema
             (fun (col : string * ColumnDef) (pks : gmap string string) =>
                if primaryKey (snd col)
                then (<[name := fst col]> pks, false)
                else (pks, true)) pks in
         ((fs', pks'), true))
      (∅, ∅) in
  mkNet fs None ∅ pks [].

(** *** Reads *)

Definition genCacheKey (tableName : string) (q : JsVal) : string :=
  tableName +:+ ":" +:+ JSON_stringify q.

(** [getInfoFromResult(result)]: throws for a table without schema,
    otherwise the query extended with the fields to select. *)
Definition getInfoFromResult (this : Net) (result : ApiResult)
    : Exception + (RequestStream * JsVal * CacheStrategy * string) :=
  match fields this !! tableName result with
  | None =>
      inl (TypeError ("table: " +:+ tableName result +:+ " is not defined"))
  | Some preDefinedFields =>
      let fields0 :=
        if truthy (assocFields result) then [assocFields result] else [] in
      let set := default [] (excludeFields result) in
      let fields :=
        forEach preDefinedFields
          (fun f (acc : list JsVal) =>
             (if existsb (String.eqb f) set then acc else (acc ++ [VStr f])%list,
              true))
          fields0 in
      let q := VObj (alist_set "fields" (VArr fields) (spread (query result))) in
      inr (request result, q, cacheValidate result, tableName result)
  end.

(** [this.requestMap.set(cacheKey, true)]. *)
Definition mark (cacheKey : string) (w : World) : World :=
  let this := net w in
  log (Marked cacheKey)
    (set_net (mkNet (fields this) (database this)
                (<[cacheKey := true]> (requestMap this))
                (primaryKeys this) (persistedDataBuffer this)) w).

(** The pipeline of a read that goes to the network first:
    [response$.pipe(concatMap(v => database.upsert(tableName, v)), ...,
    concatMap(() => dbGetWithSelfJoinEnabled(database, tableName, q).selector$))],
    with the [tap] that marks the cache key in between when [marking]. *)
Definition fetch_then_get (database : option nat) (request : RequestStream)
    (tableName : string) (q : JsVal) (marking : option string)
    : Observable SelectorMeta :=
  let upserted :=
    concatMap (fun v => on_database database (fun d => upsert d tableName v))
      (subscribe request) in
  let marked :=
    match marking with
    | Some cacheKey => tap (fun _ => mark cacheKey) upserted
    | None => upserted
    end in
  concatMap
    (fun _ => on_database database
                (fun d => selector_ (dbGetWithSelfJoinEnabled d tableName q)))
    marked.

(** [handleRequestCache(result)]. [database] and [requestCache] are read
    when the method is called; the streams run later. The [default] arm of
    the [switch] cannot be reached with a [cacheValidate] of the declared
    type. [token.map(this.validate(result))] is in the arm of
    [CacheStrategy.Request] only. *)
Definition handleRequestCache (this : Net) (result : ApiResult)
    : Exception + QueryToken :=
  match getInfoFromResult this result with
  | inl e => inl e
  | inr (request, q, cacheValidate, tableName) =>
      let database := database this in
      let cacheKey := genCacheKey tableName q in
      let requestCache := default false (requestMap this !! cacheKey) in
      match cacheValidate with
      | Request =>
          if negb requestCache then
            inr (QueryToken_map result
                   (mkQueryToken
                      (fetch_then_get database request tableName q (Some cacheKey))))
          else
            match database with
            | Some d =>
                inr (QueryToken_map result (dbGetWithSelfJoinEnabled d tableName q))
            | None => inl (TypeError "Cannot read property 'get' of undefined")
            end
      | Cache =>
          inr (mkQueryToken (fetch_then_get database request tableName q None))
      end
  end.

(** *** Field completion: [validate] *)

(** [typeof padding === 'function'], [Array.isArray(required)] and [pk]
    truthy, all at once: what padding needs to be possible at all. *)
Definition padding_setup (this : Net) (result : ApiResult)
    : option ((JsVal -> Reply) * string * list string) :=
  match required result, padding result, primaryKeys this !! tableName result with
  | Some req, Some pad, Some pk =>
      if String.eqb pk "" then None else Some (pad, pk, req)
  | _, _, _ => None
  end.

(** [required.every(k => typeof datum[k] !== 'undefined')]. *)
Definition complete (req : list string) (datum : JsVal) : bool :=
  forallb (fun k => defined (member datum k)) req.

(** The projection of the [mergeMap], up to the call of [padding]: [None]
    for a record that is passed on as it is, otherwise the answer the
    padding stream is going to give. *)
Definition ask_padding (setup : option ((JsVal -> Reply) * string * list string))
    (datum : JsVal) (w : World) : option Reply * World :=
  match setup with
  | Some (pad, pk, req) =>
      if complete req datum then (None, w)
      else (Some (pad (member datum pk)), log (Padded (member datum pk)) w)
  | None => (None, w)
  end.

Fixpoint ask_paddings (setup : option ((JsVal -> Reply) * string * list string))
    (data : list JsVal) (w : World) : list (JsVal * option Reply) * World :=
  match data with
  | [] => ([], w)
  | datum :: rest =>
      let (p, w1) := ask_padding setup datum w in
      let (ps, w2) := ask_paddings setup rest w1 in
      ((datum, p) :: ps, w2)
  end.

(** [r != null]. *)
Definition not_nullish (r : JsVal) : bool :=
  match r with
  | VUndefined | VNull => false
  | _ => true
  end.

(** [Object.assign(datum, r)]. *)
Definition Object_assign (datum r : JsVal) : JsVal :=
  match datum with
  | VObj o => VObj (alist_assign o (spread r))
  | _ => datum
  end.

(** What the inner streams of the [mergeMap] have done once they have all
    ended: the records as they now are, how many values came out of the
    inner streams, and the first error. *)
Record Settled : Type := mkSettled {
  records : list JsVal;
  count : nat;
  first_error : option Error;
  settled_in : World
}.

(** The answers of the padding streams, taken in the order of the
    records. [mergeMap] has subscribed to all of them before the first
    answer; the order in which the answers arrive is the network's, and
    the order of the records is one such order. For a non-null answer
    [r]: [this.database!.upsert(tableName, r)], then
    [Object.assign(datum, r)]. *)
Fixpoint settle_paddings (tableName : string)
    (ps : list (JsVal * option Reply)) (w : World) : Settled :=
  match ps with
  | [] => mkSettled [] 0 None w
  | (datum, None) :: rest =>
      let s := settle_paddings tableName rest w in
      mkSettled (datum :: records s) (S (count s)) (first_error s) (settled_in s)
  | (datum, Some (Throws e)) :: rest =>
      mkSettled (datum :: map fst rest) 0 (Some e) w
  | (datum, Some (Emits r)) :: rest =>
      if not_nullish r then
        let o := on_database (database (net w))
                   (fun d => upsert d tableName r) w in
        match failure o with
        | Some e => mkSettled (datum :: map fst rest) 0 (Some e) (after o)
        | None =>
            let s := settle_paddings tableName rest (after o) in
            mkSettled (Object_assign datum r :: records s) (S (count s))
              (first_error s) (settled_in s)
        end
      else
        let s := settle_paddings tableName rest w in
        mkSettled (datum :: records s) (count s) (first_error s) (settled_in s)
  end.

(** [validate(result)], the operator called [SDK_VALIDATE]: a [switchMap]
    over the rows of a read. [forkJoin] of the one merged stream emits
    when that stream has completed, and only if it emitted at all;
    [mapTo(data)] then hands on the array of the (updated) records. The
    primary key is that of [this.primaryKeys], which nothing changes after
    the constructor. *)
Definition validate (result : ApiResult) (data : list JsVal)
    : Observable (list JsVal) :=
  fun w =>
    match data with
    | [] => Observable_of data w
    | _ =>
        let (ps, w1) := ask_paddings (padding_setup (net w) result) data w in
        let s := settle_paddings (tableName result) ps w1 in
        match first_error s with
        | Some e => mkOutcome [] (Some e) (settled_in s)
        | None =>
            match count s with
            | O => mkOutcome [] None (settled_in s)
            | S _ => mkOutcome [records s] None (settled_in s)
            end
        end
    end.

(** [Array.isArray(r) ? r : [r]]. *)
Definition as_rows (v : JsVal) : list JsVal :=
  match v with
  | VArr l => l
  | _ => [v]
  end.

(** The rows of a selector, through the operator attached to it. *)
Definition values (s : SelectorMeta) : Observable (list JsVal) :=
  let rows : Observable (list JsVal) :=
    match source s with
    | FromStore db table q =>
        fun w =>
          let w1 := log (RowsRead db table q) w in
          match db_get table q (stores w db) with
          | inr rows => mkOutcome [rows] None w1
          | inl e => mkOutcome [] (Some e) w1
          end
    | FromRequest request _ _ => mapEach as_rows (subscribe request)
    end in
  match mapFn s with
  | Some result => concatMap (validate result) rows
  | None => rows
  end.

(** [token.values()]: the rows of the selectors of the token. *)
Definition QueryToken_values (token : QueryToken) : Observable (list JsVal) :=
  concatMap values (selector_ token).

(** *** Buffering, before a store is attached *)

Definition push (v : BufferObject) (w : World) : World :=
  let this := net w in
  set_net (mkNet (fields this) (database this) (requestMap this)
             (primaryKeys this) (persistedDataBuffer this ++ [v])%list) w.

(** The stream of a [BehaviorSubject]: its current value. *)
Definition subject_stream (subject : nat) : Observable SelectorMeta :=
  fun w =>
    match subjects w !! subject with
    | Some s => mkOutcome [s] None w
    | None => mkOutcome [] None w
    end.

(** [cacheControl$.next(selector)]. *)
Definition forward (subject : nat) (s : SelectorMeta) (w : World) : World :=
  log (Forwarded subject)
    (mkWorld (net w) (stores w) (<[subject := s]> (subjects w)) (trace w)).

(** [bufferResponse(result)]. *)
Definition bufferResponse (result : ApiResult) (w : World)
    : Exception + (QueryToken * World) :=
  match getInfoFromResult (net w) result with
  | inl e => inl e
  | inr (request, q, _, tableName) =>
      let proxySelector := mkSelector (FromRequest request q tableName) None in
      let cacheControl := length (subjects w) in
      let w1 :=
        mkWorld (net w) (stores w) (subjects w ++ [proxySelector])%list (trace w) in
      inr (QueryToken_map result (mkQueryToken (subject_stream cacheControl)),
           push (Selector result cacheControl) w1)
  end.

(** [handleApiResult(result)]. *)
Definition handleApiResult (result : ApiResult) (w : World)
    : Exception + (QueryToken * World) :=
  match database (net w) with
  | None => bufferResponse result w
  | Some _ =>
      match handleRequestCache (net w) result with
      | inl e => inl e
      | inr token => inr (token, w)
      end
  end.

(** [bufferCUDResponse(result)]: the write is pushed when the request
    answers. *)
Definition bufferCUDResponse (result : CUDApiResult) : Observable JsVal :=
  tap (fun v =>
         push (CUD (cud_tableName result)
                 (match cud_method result with
                  | Create | Update => MUpsert
                  | Delete => MDelete
                  end)
                 (match cud_method result with
                  | Delete => clause result
                  | _ => v
                  end)))
    (subscribe (cud_request result)).

(** [handleCUDAResult(result)]. The [default] arm of the [switch] cannot be
    reached with a [method] of the declared type. *)
Definition handleCUDAResult (this : Net) (result : CUDApiResult)
    : Observable JsVal :=
  match database this with
  | None => bufferCUDResponse result
  | Some database =>
      concatMap
        (fun v =>
           let destination :=
             match cud_method result with
             | Create => upsert database (cud_tableName result) v
             | Update => upsert database (cud_tableName result) v
             | Delete => delete database (cud_tableName result) (clause result)
             end in
           mapTo v destination)
        (subscribe (cud_request result))
  end.

(** What [lift] is given and what it returns. *)
Inductive Lifted : Type :=
| Token (token : QueryToken)
| Written (stream : Observable JsVal).

(** [lift(result)]: a descriptor with a [cacheValidate] is a read. *)
Definition lift (result : ApiResult + CUDApiResult) (w : World)
    : Exception + (Lifted * World) :=
  match result with
  | inl read =>
      match handleApiResult read w with
      | inl e => inl e
      | inr (token, w1) => inr (Token token, w1)
      end
  | inr write => inr (Written (handleCUDAResult (net w) write), w)
  end.

(** [bufferSocketPush(arg, socketMessage, pkName, type)]; the stream it
    returns is [Observable.of(null)]. *)
Definition bufferSocketPush (arg : string) (socketMessage : SocketMessage)
    (pkName : string) (type : JsVal) (w : World) : World :=
  push (SocketCUD arg socketMessage pkName type) w.

(** *** Attaching a store: [persist] *)

(** [Dirty.handleSocketMessage(id, type, data, database)] as a stream. *)
Definition dirtyStream (db : nat) (id : string) (type data : JsVal)
    (merge : Store -> Error + Store) : Observable unit :=
  fun w => run_store merge db (log (DirtyMerged db id type data) w).

(** [socketMessage.id || socketMessage.data]. *)
Definition id_or_data (socketMessage : SocketMessage) : JsVal :=
  if truthy (VStr (sm_id socketMessage))
  then VStr (sm_id socketMessage)
  else sm_data socketMessage.

(** The body of the loop of [persist] for one buffered operation: the
    stream it pushes on [asyncQueue], if any. [database] is the argument of
    [persist]; a pending read goes through [this.handleRequestCache], which
    uses [this.database]. *)
Definition materialize (this : Net) (database : nat) (v : BufferObject)
    : Exception + option (Observable unit) :=
  match v with
  | CUD tableName MUpsert value => inr (Some (upsert database tableName value))
  | CUD tableName MDelete value => inr (Some (delete database tableName value))
  | SocketCUD arg socketMessage pkName type =>
      let method := sm_method socketMessage in
      if String.eqb method "destroy" || String.eqb method "remove" then
        inr (Some (delete database arg
                     (VObj [("where", VObj [(pkName, id_or_data socketMessage)])])))
      else if String.eqb method "new" then
        inr (Some (upsert database arg (sm_data socketMessage)))
      else if String.eqb method "change" then
        match handleSocketMessage (sm_id socketMessage) type (sm_data socketMessage) with
        | Some merge =>
            inr (Some (dirtyStream database (sm_id socketMessage) type
                         (sm_data socketMessage) merge))
        | None =>
            inr (Some (upsert database arg
                         (VObj (alist_set pkName (VStr (sm_id socketMessage))
                                  (spread (sm_data socketMessage))))))
        end
      else inr None
  | Selector realSelectorInfo cacheControl =>
      match handleRequestCache this realSelectorInfo with
      | inl e => inl e
      | inr token =>
          inr (Some (mapTo tt (tap (forward cacheControl) (selector_ token))))
      end
  end.

(** The loop of [persist]: [asyncQueue] after the buffered operations
    have been visited, or the exception that ended the loop. *)
Definition schedule (this : Net) (database : nat) (buffer : list BufferObject)
    : list (Observable unit) * option Exception :=
  forEach buffer
    (fun v (st : list (Observable unit) * option Exception) =>
       match materialize this database v with
       | inl e => ((fst st, Some e), false)
       | inr (Some p) => (((fst st ++ [p])%list, None), true)
       | inr None => (st, true)
       end)
    ([], None).

(** [await err.toPromise()] in the [error] handler of the [tap] at the end
    of [persist]. The errors that reach the handler are those of the
    request streams and of the store: plain values, none of them a
    stream. Their [toPromise] is [undefined], calling it throws inside
    the [async] handler, and the promise of the handler is rejected.
    [None]: the [await] does not come back. *)
Definition await_toPromise (err : Error) : option JsVal := None.

(** The [error] handler itself:
    [async err => { const errObj = await err.toPromise();
    SDKLogger.error(errObj.message) }]. [SDKLogger.error] is called only
    if the [await] comes back. *)
Definition log_error (e : Error) (w : World) : World :=
  match await_toPromise e with
  | Some errObj => log (Logged (member errObj "message")) w
  | None => w
  end.

(** [persist(database)]: the world right after the call, and the stream
    the call returns unless the loop threw. Nothing in the queue has run
    yet. *)
Definition persist (database : nat) (w : World)
    : World * (Exception + Observable unit) :=
  let this := net w in
  let this1 :=
    match Engine.database this with
    | None => mkNet (fields this) (Some database) (requestMap this)
                (primaryKeys this) (persistedDataBuffer this)
    | Some _ => this
    end in
  match schedule this1 database (persistedDataBuffer this1) with
  | (_, Some e) => (set_net this1 w, inl e)
  | (asyncQueue, None) =>
      (set_net (mkNet (fields this1) (Engine.database this1) (requestMap this1)
                  (primaryKeys this1) []) w,
       inr (tapError log_error (concatAll asyncQueue)))
  end.

(** *** The engine as a state machine *)

(** What the outside can do to an engine: call a method and subscribe to
    what it returns. [Answer] is the late answer to a write that was
    issued while no store was attached: its stream is the one
    [bufferCUDResponse] built then, whatever the engine has become. *)
Inductive Action : Type :=
| Read (result : ApiResult)
| Write (result : CUDApiResult)
| Answer (result : CUDApiResult)
| Push (arg : string) (socketMessage : SocketMessage) (pkName : string)
    (type : JsVal)
| Attach (database : nat).

(** One action, run to the end: a read is issued and its rows are asked
    for; a write is issued and subscribed; a push is buffered; a store is
    attached and the stream of [persist] subscribed. A call that throws
    leaves the world as the call left it. *)
Definition step (a : Action) (w : World) : World :=
  match a with
  | Read result =>
      match handleApiResult result w with
      | inl _ => w
      | inr (token, w1) => after (QueryToken_values token w1)
      end
  | Write result => after (handleCUDAResult (net w) result w)
  | Answer result => after (bufferCUDResponse result w)
  | Push arg socketMessage pkName type =>
      bufferSocketPush arg socketMessage pkName type w
  | Attach database =>
      match persist database w with
      | (w1, inl _) => w1
      | (w1, inr drain) => after (drain w1)
      end
  end.

Definition run (actions : list Action) (w : World) : World :=
  fold_left (fun w a => step a w) actions w.

(** A new engine in front of the given stores. *)
Definition boot (schemas : list (string * SchemaDef)) (dbs : nat -> Store)
    : World :=
  mkWorld (Net_new schemas) dbs [] [].

(** *** Notions the properties are stated with *)

(** A stream respects a relation between worlds when the world it leaves
    is related to the world it was subscribed in. *)
Definition respects (R : World -> World -> Prop) {A : Type}
    (o : Observable A) : Prop :=
  forall w, R w (after (o w)).

(** The schemas stay what they are, and a store that is attached stays
    attached. *)
Definition stays_attached (w w' : World) : Prop :=
  fields (net w') = fields (net w)
  /\ primaryKeys (net w') = primaryKeys (net w)
  /\ forall d, database (net w) = Some d -> database (net w') = Some d.

Definition same_buffer (w w' : World) : Prop :=
  persistedDataBuffer (net w') = persistedDataBuffer (net w).

(** The trace only grows. *)
Definition extends (w w' : World) : Prop :=
  exists t, trace w' = (trace w ++ t)%list.

(** The world with another content of the buffer. *)
Definition with_buffer (buffer : list BufferObject) (w : World) : World :=
  let this := net w in
  set_net (mkNet (fields this) (database this) (requestMap this)
             (primaryKeys this) buffer) w.

(** The query a read selects with, [q] of [getInfoFromResult]. *)
Definition selected_query (this : Net) (result : ApiResult) : JsVal :=
  match getInfoFromResult this result with
  | inr (_, q, _, _) => q
  | inl _ => VUndefined
  end.

(** What the drain is expected to leave in the trace for one buffered
    operation, said directly: one call of the store for a write; for a
    push the call its method stands for, and nothing for a method the
    engine does not know; for a pending read the network request, the
    upsert of its answer, the mark (strategy [Request], key not marked when
    the store is attached), the selector of the store and its hand-over to
    the placeholder. [this] is the engine when the store [db] is
    attached. For a pending read whose request fails there is nothing to
    expect beyond the request: the drain does not complete. *)
Definition drained_events (this : Net) (db : nat) (v : BufferObject)
    : list Event :=
  match v with
  | CUD t MUpsert value => [Upserted db t value]
  | CUD t MDelete c => [Deleted db t c]
  | SocketCUD arg m pkName type =>
      if String.eqb (sm_method m) "destroy" || String.eqb (sm_method m) "remove"
      then [Deleted db arg (VObj [("where", VObj [(pkName, id_or_data m)])])]
      else if String.eqb (sm_method m) "new"
      then [Upserted db arg (sm_data m)]
      else if String.eqb (sm_method m) "change"
      then match handleSocketMessage (sm_id m) type (sm_data m) with
           | Some _ => [DirtyMerged db (sm_id m) type (sm_data m)]
           | None =>
               [Upserted db arg
                  (VObj (alist_set pkName (VStr (sm_id m)) (spread (sm_data m))))]
           end
      else []
  | Selector result cacheControl =>
      let t := tableName result in
      let q := selected_query this result in
      let key := genCacheKey t q in
      match database this, reply (request result) with
      | Some d, Emits v =>
          let fetched := [Fetched (r_id (request result)); Upserted d t v] in
          match cacheValidate result with
          | Request =>
              if default false (requestMap this !! key)
              then [Got d t q; Forwarded cacheControl]
              else (fetched ++ [Marked key; Got d t q; Forwarded cacheControl])%list
          | Cache => (fetched ++ [Got d t q; Forwarded cacheControl])%list
          end
      | Some d, Throws _ =>
          match cacheValidate result with
          | Request =>
              if default false (requestMap this !! key)
              then [Got d t q; Forwarded cacheControl]
              else [Fetched (r_id (request result))]
          | Cache => [Fetched (r_id (request result))]
          end
      | None, _ => []
      end
  end.

(** The call of the store a push message stands for, said directly: the
    event it leaves and the operation on the store. [None]: no call. *)
Definition push_call (db : nat) (arg : string) (m : SocketMessage)
    (pkName : string) (type : JsVal)
    : option (Event * (Store -> Error + Store)) :=
  let by_key :=
    VObj [("where",
           VObj [(pkName,
                  if String.eqb (sm_id m) "" then sm_data m else VStr (sm_id m))])] in
  let keyed := VObj (alist_set pkName (VStr (sm_id m)) (spread (sm_data m))) in
  if String.eqb (sm_method m) "destroy" || String.eqb (sm_method m) "remove"
  then Some (Deleted db arg by_key, db_delete arg by_key)
  else if String.eqb (sm_method m) "new"
  then Some (Upserted db arg (sm_data m), db_upsert arg (sm_data m))
  else if String.eqb (sm_method m) "change"
  then match handleSocketMessage (sm_id m) type (sm_data m) with
       | Some merge => Some (DirtyMerged db (sm_id m) type (sm_data m), merge)
       | None => Some (Upserted db arg keyed, db_upsert arg keyed)
       end
  else None.

(** Field completion, said directly. For one record of a read: the answer
    its padding stream is going to give, if padding is set up and the
    record lacks a required field; ... *)
Definition patch_of (setup : option ((JsVal -> Reply) * string * list string))
    (datum : JsVal) : option Reply :=
  match setup with
  | Some (pad, pk, req) =>
      if complete req datum then None else Some (pad (member datum pk))
  | None => None
  end.

(** ... the call of the padding function with the primary key of the
    record; ... *)
Definition padding_call (setup : option ((JsVal -> Reply) * string * list string))
    (datum : JsVal) : list Event :=
  match setup with
  | Some (pad, pk, req) =>
      if complete req datum then [] else [Padded (member datum pk)]
  | None => []
  end.

(** ... the upsert of a replacement that is not empty; ... *)
Definition padding_upsert (setup : option ((JsVal -> Reply) * string * list string))
    (d : nat) (t : string) (datum : JsVal) : list Event :=
  match patch_of setup datum with
  | Some (Emits r) => if not_nullish r then [Upserted d t r] else []
  | _ => []
  end.

(** ... the record with the fields of such a replacement merged in, and
    as it was otherwise; ... *)
Definition padded (setup : option ((JsVal -> Reply) * string * list string))
    (datum : JsVal) : JsVal :=
  match patch_of setup datum with
  | Some (Emits r) => if not_nullish r then Object_assign datum r else datum
  | _ => datum
  end.

(** ... and whether the record's inner stream emits: not when the
    replacement is empty. *)
Definition answers (setup : option ((JsVal -> Reply) * string * list string))
    (datum : JsVal) : bool :=
  match patch_of setup datum with
  | Some (Emits r) => not_nullish r
  | Some (Throws _) => false
  | None => true
  end.

(** The rows a read gives when it is issued and its rows are asked for at
    once. *)
Definition read_rows (result : ApiResult) (w : World) : list (list JsVal) :=
  match handleApiResult result w with
  | inr (token, w1) => emitted (QueryToken_values token w1)
  | inl _ => []
  end.

(** The world [persist] leaves and the stream it returns (the empty
    stream stands in when the call threw). *)
Definition persisted (db : nat) (w : World) : World := fst (persist db w).

Definition drain_of (db : nat) (w : World) : Observable unit :=
  match snd (persist db w) with
  | inr drain => drain
  | inl _ => fun w => mkOutcome [] None w
  end.

(** The world after a read has been issued and not yet subscribed. *)
Definition issued (result : ApiResult) (w : World) : World :=
  match handleApiResult result w with
  | inr (_, w1) => w1
  | inl _ => w
  end.

(** The transport calls of a trace, in order. *)
Definition network_calls (t : list Event) : list nat :=
  flat_map (fun e => match e with
                     | Fetched r => [r]
                     | _ => []
                     end) t.

(** What the constructor is expected to keep of one schema, said
    directly: the names of its columns that are not virtual, in order,
    and the first column marked as primary key. *)
Definition stored_columns (schema : SchemaDef) : list string :=
  map fst (List.filter (fun kv => negb (virtual (snd kv))) schema).

Definition declared_pk (schema : SchemaDef) : option string :=
  match List.filter (fun kv => primaryKey (snd kv)) schema with
  | col :: _ => Some (fst col)
  | [] => None
  end.

(** A pending read is well formed when its table has a schema. *)
Definition well_formed (this : Net) (v : BufferObject) : bool :=
  match v with
  | Selector result _ =>
      match fields this !! tableName result with
      | Some _ => true
      | None => false
      end
  | _ => true
  end.

(** The fields a read selects, said directly: the associated fields
    first, when there are any, then the columns of the table that are not
    excluded. *)
Definition selected_fields (preDefinedFields : list string)
    (result : ApiResult) : list JsVal :=
  ((if truthy (assocFields result) then [assocFields result] else [])
   ++ map VStr
        (List.filter
           (fun f => negb (existsb (String.eqb f) (default [] (excludeFields result))))
           preDefinedFields))%list.

(** Relations between the world a stream, or an action, starts in and
    the world it leaves: marks are never taken back; ... *)
Definition keeps_marks (w w' : World) : Prop :=
  forall k, requestMap (net w) !! k = Some true ->
            requestMap (net w') !! k = Some true.

(** ... the pending reads of the buffer have a schema, and go on having
    one; ... *)
Definition sound_buffer (w : World) : Prop :=
  forallb (well_formed (net w)) (persistedDataBuffer (net w)) = true.

Definition keeps_buffer_sound (w w' : World) : Prop :=
  fields (net w') = fields (net w) /\ (sound_buffer w -> sound_buffer w').

(** ... the trace grows by events that are not transport calls; ... *)
Definition offline (w w' : World) : Prop :=
  exists t, trace w' = (trace w ++ t)%list /\ network_calls t = [].

(** ... and as long as no store is attached, none gets attached and the
    stores are what they were. *)
Definition detached (w w' : World) : Prop :=
  database (net w) = None ->
  database (net w') = None /\ stores w' = stores w.

(** The operation of the store a write stands for, with the event it
    leaves, given the answer [v] of its request. *)
Definition write_call (db : nat) (result : CUDApiResult) (v : JsVal)
    : Event * (Store -> Error + Store) :=
  match cud_method result with
  | Create | Update =>
      (Upserted db (cud_tableName result) v, db_upsert (cud_tableName result) v)
  | Delete =>
      (Deleted db (cud_tableName result) (clause result),
       db_delete (cud_tableName result) (clause result))
  end.

End WithCollaborators.

Arguments mkOutcome {X A} _ _ _.
Arguments emitted {X A} _.
Arguments failure {X A} _.
Arguments after {X A} _.

End Engine.

(** ** A store to run the engine against

    The store is not part of the engine. This one is the smallest that
    meets the contract of section 6 of the specification: tables of rows
    with a primary key, [upsert] that inserts or merges by primary key,
    [delete] by a [where] clause, [get] of the rows a [where] clause
    selects; an operation on a table that was never defined fails. *)

Module Reference.

Record Table : Type := mkTable {
  pk : string;
  rows : list JsVal
}.

Abbreviation Tables := (list (string * Table)).

Definition no_such_table (table : string) : JsVal :=
  VStr ("table " +:+ table +:+ " is not defined").

(** One row into the rows of a table: merged into the row with the same
    primary key, appended when there is none. *)
Fixpoint upsert_row (pk : string) (row : JsVal) (rows : list JsVal)
    : list JsVal :=
  match rows with
  | [] => [row]
  | r :: rest =>
      if Js.eqb (member r pk) (member row pk)
      then VObj (alist_assign (spread r) (spread row)) :: rest
      else r :: upsert_row pk row rest
  end.

Definition as_list (v : JsVal) : list JsVal :=
  match v with
  | VArr l => l
  | _ => [v]
  end.

Definition upsert (table : string) (v : JsVal) (s : Tables)
    : JsVal + Tables :=
  match alist_get table s with
  | Some t =>
      inr (alist_set table
             (mkTable (pk t)
                (fold_left (fun rs row => upsert_row (pk t) row rs) (as_list v) (rows t)))
             s)
  | None => inl (no_such_table table)
  end.

(** A row matches a [where] object when it agrees with each of its
    entries. *)
Definition matches (where_ : JsVal) (row : JsVal) : bool :=
  forallb (fun kv => Js.eqb (member row (fst kv)) (snd kv)) (spread where_).

Definition delete (table : string) (c : JsVal) (s : Tables)
    : JsVal + Tables :=
  match alist_get table s with
  | Some t =>
      inr (alist_set table
             (mkTable (pk t)
                (List.filter (fun r => negb (matches (member c "where") r)) (rows t)))
             s)
  | None => inl (no_such_table table)
  end.

Definition get (table : string) (q : JsVal) (s : Tables)
    : JsVal + list JsVal :=
  match alist_get table s with
  | Some t => inr (List.filter (matches (member q "where")) (rows t))
  | None => inl (no_such_table table)
  end.

(** A rendering of values that tells different queries apart; all the
    engine asks of [JSON.stringify]. *)
Fixpoint stringify (v : JsVal) : string :=
  match v with
  | VUndefined => "undefined"
  | VNull => "null"
  | VBool true => "true"
  | VBool false => "false"
  | VNum n => string_of_Z n
  | VStr s => String "034" s +:+ String "034" ""
  | VArr l => "[" +:+ String.concat "," (map stringify l) +:+ "]"
  | VObj o =>
      "{" +:+
      String.concat ","
        (map (fun kv => String "034" (fst kv) +:+ String "034" ":" +:+ stringify (snd kv)) o)
      +:+ "}"
  end.

(** The dirty-field handlers of this store know one type of record,
    ["activity"], whose changes they drop. *)
Definition dirty (id : string) (type data : JsVal)
    : option (Tables -> JsVal + Tables) :=
  if Js.eqb type (VStr "activity") then Some (fun s => inr s) else None.

Definition collaborators : Engine.Collaborators :=
  {| Engine.Store := Tables;
     Engine.db_upsert := upsert;
     Engine.db_delete := delete;
     Engine.db_get := get;
     Engine.handleSocketMessage := dirty;
     Engine.JSON_stringify := stringify |}.

(** The schema of the examples: a table [tasks] with primary key [_id]. *)
Definition schemas : list (string * Engine.SchemaDef) :=
  [("tasks", [("_id", Engine.mkColumn false true);
              ("content", Engine.mkColumn false false);
              ("subtasks", Engine.mkColumn true false)])].

Definition empty_store : Tables := [("tasks", mkTable "_id" [])].

(** A new engine for [schemas], in front of empty stores. *)
Definition start : @Engine.World collaborators :=
  @Engine.boot collaborators schemas (fun _ => empty_store).

Definition rowA : JsVal := VObj [("_id", VStr "A"); ("content", VStr "hello")].

(** A store that holds the task ['42']. *)
Definition task42 : JsVal := VObj [("_id", VStr "42"); ("content", VStr "todo")].

Definition store42 : Tables := [("tasks", mkTable "_id" [task42])].

Definition start42 : @Engine.World collaborators :=
  @Engine.boot collaborators schemas (fun _ => store42).

(** The push message [{method: 'destroy', id: '42'}], and one that has its
    identifier in the payload instead. *)
Definition destroy42 : Engine.SocketMessage :=
  Engine.mkSocketMessage "42" "destroy" VUndefined.

Definition destroy_by_payload : Engine.SocketMessage :=
  Engine.mkSocketMessage "" "destroy" (VStr "42").

(** The engine once the store [0] is attached. *)
Definition attached : @Engine.World collaborators :=
  @Engine.step collaborators (Engine.Attach 0) start.

(** The padding of the examples: the note of a task. *)
Definition note_of (missedId : JsVal) : Engine.Reply :=
  Engine.Emits (VObj [("_id", missedId); ("note", VStr "n")]).

(** A read of all tasks that requires [content] and [note], with either
    strategy; the network answers with [rowA], which has no [note]. *)
Definition read_tasks (strategy : Engine.CacheStrategy) : Engine.ApiResult :=
  Engine.mkApiResult (Engine.mkRequest 3 (Engine.Emits (VArr [rowA])))
    (VObj []) "tasks" strategy (Some ["content"; "note"]) VUndefined None
    (Some note_of).

(** Two writes issued before a store is attached, an upsert of [row] and a
    delete of the rows whose [_id] is [k], and then the store attached;
    the store holds [rows0] to begin with. *)
Definition where_id (k : string) : JsVal :=
  VObj [("where", VObj [("_id", VStr k)])].

Definition upsert_then_delete (rows0 : list JsVal) (row : JsVal) (k : string)
    : @Engine.World collaborators :=
  @Engine.run collaborators
    [Engine.Write (Engine.mkCUD (Engine.mkRequest 1 (Engine.Emits row))
                     "tasks" Engine.Create VUndefined);
     Engine.Write (Engine.mkCUD (Engine.mkRequest 2 (Engine.Emits VNull))
                     "tasks" Engine.Delete (where_id k));
     Engine.Attach 0]
    (@Engine.boot collaborators schemas (fun _ => [("tasks", mkTable "_id" rows0)])).

(** A push message with a method the engine does not know. *)
Definition refresh42 : Engine.SocketMessage :=
  Engine.mkSocketMessage "42" "refresh" VUndefined.

(** A pending read whose request fails, and the world in which it is
    buffered in front of a write of [rowA]. *)
Definition failing_read : Engine.ApiResult :=
  Engine.mkApiResult (Engine.mkRequest 5 (Engine.Throws (VStr "offline")))
    (VObj []) "tasks" Engine.Cache None VUndefined None None.

Definition write_rowA : Engine.CUDApiResult :=
  Engine.mkCUD (Engine.mkRequest 6 (Engine.Emits rowA)) "tasks"
    Engine.Create VUndefined.

Definition failing_read_then_write : @Engine.World collaborators :=
  @Engine.step collaborators (Engine.Write write_rowA)
    (@Engine.issued collaborators failing_read start).

(** The same pending read buffered in front of another pending read. *)
Definition failing_read_then_read : @Engine.World collaborators :=
  @Engine.issued collaborators (read_tasks Engine.Cache)
    (@Engine.issued collaborators failing_read start).

(** Operations of every kind in the buffer: a write of [rowA], the push
    [destroy42], the push [refresh42], and a pending read of the tasks. *)
Definition buffered : @Engine.World collaborators :=
  @Engine.issued collaborators (read_tasks Engine.Request)
    (@Engine.run collaborators
       [Engine.Write write_rowA;
        Engine.Push "tasks" destroy42 "_id" VNull;
        Engine.Push "tasks" refresh42 "_id" VNull]
       start).

(** Two buffered writes, the first into a table the store does not
    have. *)
Definition ghost_write : list Engine.BufferObject :=
  [Engine.CUD "ghosts" Engine.MUpsert rowA].

Definition task_write : list Engine.BufferObject :=
  [Engine.CUD "tasks" Engine.MUpsert rowA].

(** A write of [rowA] into a table that has no schema. *)
Definition write_ghost : Engine.CUDApiResult :=
  Engine.mkCUD (Engine.mkRequest 1 (Engine.Emits rowA)) "ghosts"
    Engine.Create VUndefined.

(** The schema of [CustomField] ([src/unnamed/part_000]): fifteen columns,
    none of them virtual, with [_id] as primary key. *)
Definition CustomField : Engine.SchemaDef :=
  [("_id", Engine.mkColumn false true);
   ("_creatorId", Engine.mkColumn false false);
   ("_organizationId", Engine.mkColumn false false);
   ("_projectId", Engine.mkColumn false false);
   ("_roleIds", Engine.mkColumn false false);
   ("boundType", Engine.mkColumn false false);
   ("categoryIds", Engine.mkColumn false false);
   ("choices", Engine.mkColumn false false);
   ("created", Engine.mkColumn false false);
   ("description", Engine.mkColumn false false);
   ("displayed", Engine.mkColumn false false);
   ("name", Engine.mkColumn false false);
   ("pos", Engine.mkColumn false false);
   ("type", Engine.mkColumn false false);
   ("updated", Engine.mkColumn false false)].

(** A read of all tasks that requires nothing. *)
Definition plain_read : Engine.ApiResult :=
  Engine.mkApiResult (Engine.mkRequest 7 (Engine.Emits (VArr [rowA])))
    (VObj []) "tasks" Engine.Cache None VUndefined None None.

(** [rowA] with its note: a task that lacks none of the fields
    [read_tasks] requires. *)
Definition noted_rowA : JsVal :=
  VObj [("_id", VStr "A"); ("content", VStr "hello"); ("note", VStr "n")].

(** What [schemaColl.add({ schema, name: 'CustomField' })] registers. *)
Definition CustomField_schemas : list (string * Engine.SchemaDef) :=
  [("CustomField", CustomField)].

End Reference.

(** * Properties *)

(** ** The query string *)

Section BuildQuery.

Import Fetch.

Lemma fold_array_params (key : string) (l : list JsVal) (acc : list string) :
  fold_left
    (fun acc _val =>
       if defined _val then (acc ++ [key +:+ "=" +:+ ToString _val])%list
       else acc) l acc
  = (acc ++ map render_param
             (map (fun v => (key, ToString v)) (List.filter defined l)))%list.
Proof.
  revert acc. induction l as [|v l IH]; intros acc; simpl.
  - by rewrite app_nil_r.
  - destruct (defined v); simpl.
    + rewrite IH. by rewrite <- app_assoc.
    + apply IH.
Qed.

Lemma buildQuery_each_params (entry : string * JsVal)
    (result warned : list string) :
  buildQuery_each entry (result, warned)
  = ((result ++ map render_param (params_of_entry entry),
      warned ++ warnings_of_entry entry)%list, true).
Proof.
  destruct entry as [key val].
  unfold buildQuery_each, params_of_entry, warnings_of_entry. simpl.
  destruct (String.eqb key "_"); simpl.
  - by rewrite app_nil_r.
  - destruct val; simpl; rewrite ?app_nil_r; try reflexivity.
    by rewrite fold_array_params.
Qed.

Lemma forEach_buildQuery (o : Props) (result warned : list string) :
  forEach o buildQuery_each (result, warned)
  = (result ++ map render_param (flat_map params_of_entry o),
     warned ++ flat_map warnings_of_entry o)%list.
Proof.
  revert result warned. induction o as [|entry o IH]; intros result warned.
  - simpl. by rewrite !app_nil_r.
  - cbn [forEach flat_map]. rewrite buildQuery_each_params, IH.
    by rewrite map_app, <- !app_assoc.
Qed.

Lemma params_never_underscore (o : Props) :
  Forall (fun p => fst p <> "_") (flat_map params_of_entry o).
Proof.
  induction o as [|[key val] o IH]; simpl; [constructor|].
  apply Forall_app. split; [|exact IH].
  destruct (String.eqb key "_") eqn:E; [constructor|].
  apply String.eqb_neq in E.
  destruct val; simpl; repeat constructor; try exact E.
  apply Forall_forall. intros p Hp.
  apply list_elem_of_In, in_map_iff in Hp.
  destruct Hp as [v [<- _]]. exact E.
Qed.

(** The query string [_buildQuery] appends for an object [o]. *)
Lemma buildQuery_object (u : string) (o : Props) :
  _buildQuery u (VObj o)
  = (u +:+
       match flat_map params_of_entry o with
       | [] => ""
       | ps =>
           (if includes_char "?" u then "&" else "?")
           +:+ String.concat "&" (map render_param ps)
       end,
     flat_map warnings_of_entry o).
Proof.
  unfold _buildQuery. simpl. rewrite forEach_buildQuery. simpl.
  destruct (flat_map params_of_entry o) as [|p ps]; simpl;
    destruct (includes_char "?" u); reflexivity.
Qed.

End BuildQuery.

Section GetQuery.

Import Fetch.

Lemma get_registers_key (this : SDKFetch) (path : string) (query : JsVal)
    (opts : SDKFetchOptions) (tail : string) (w : World) :
  let u := urlWithPath this path (o_apiHost opts) in
  let key := if truthy query then fst (_buildQuery u query) else u in
  FetchStack (snd (get this path query opts tail w)) !! key
  = Some (stream_of (fst (fst (get this path query opts tail w)))).
Proof.
  unfold get.
  set (u := urlWithPath this path (o_apiHost opts)).
  cbn zeta.
  replace (if truthy query then _buildQuery u query else (u, []))
    with (if truthy query then fst (_buildQuery u query) else u,
          if truthy query then snd (_buildQuery u query) else [] : list string)
    by (destruct (truthy query); [by destruct (_buildQuery u query)|done]).
  set (key := if truthy query then fst (_buildQuery u query) else u).
  destruct (Http_new "" (o_includeHeaders opts) (heap w)) as [http0 h0].
  destruct (setOptionsPerRequest this http0 opts h0) as [http h1].
  cbn [set_heap FetchStack heap dists inflight calls next_sub].
  destruct (FetchStack w !! key) as [d|] eqn:E; cbn [snd fst FetchStack].
  - unfold set_heap; cbn [FetchStack]. rewrite E.
    by destruct (o_wrapped opts).
  - rewrite lookup_insert_eq. by destruct (o_wrapped opts).
Qed.

(** The URL with the query that [_buildQuery] makes of a query object,
    under which [get] stores its stream: no parameter is named ["_"]
    (such an entry is dropped and a warning logged), an entry whose value
    is undefined is left out, an array gives one parameter for each
    defined element, and the parameters are attached with [&] when the
    URL already has a [?], with [?] otherwise. The URL that is requested
    has the tail behind it, see [SharingExamples]. *)
Theorem get_builds_query_string (this : SDKFetch) (path : string)
    (o : Props) (opts : SDKFetchOptions) (tail : string) (w : World) :
  let u := urlWithPath this path (o_apiHost opts) in
  let ps := flat_map params_of_entry o in
  let urlWithQuery :=
    u +:+ match ps with
          | [] => ""
          | _ => (if includes_char "?" u then "&" else "?")
                 +:+ String.concat "&" (map render_param ps)
          end in
  fst (_buildQuery u (VObj o)) = urlWithQuery
  /\ FetchStack (snd (get this path (VObj o) opts tail w)) !! urlWithQuery
     = Some (stream_of (fst (fst (get this path (VObj o) opts tail w))))
  /\ snd (_buildQuery u (VObj o)) = flat_map warnings_of_entry o
  /\ Forall (fun p => fst p <> "_") ps
  /\ (forall v, params_of_entry ("_", v) = []
                /\ warnings_of_entry ("_", v)
                   = ["query should not contain key '_', it will be ignored"])
  /\ (forall k, params_of_entry (k, VUndefined) = [])
  /\ (forall k l,
        params_of_entry (k, VArr l)
        = if String.eqb k "_" then []
          else map (fun v => (k, ToString v)) (List.filter defined l))
  /\ (forall k v,
        params_of_entry (k, v)
        = if String.eqb k "_" then []
          else match v with
               | VArr l => map (fun v => (k, ToString v)) (List.filter defined l)
               | VUndefined => []
               | _ => [(k, ToString v)]
               end).
Proof.
  intros u ps urlWithQuery.
  assert (Hq : _buildQuery u (VObj o)
               = (urlWithQuery, flat_map warnings_of_entry o))
    by (rewrite buildQuery_object; subst urlWithQuery ps;
        destruct (flat_map params_of_entry o); reflexivity).
  split; [by rewrite Hq|].
  split.
  { pose proof (get_registers_key this path (VObj o) opts tail w) as H.
    cbn zeta in H. simpl truthy in H. cbv iota in H.
    fold u in H. rewrite Hq in H. exact H. }
  split; [by rewrite Hq|].
  split; [apply params_never_underscore|].
  split; [intros v; split; reflexivity|].
  split.
  { intros k. unfold params_of_entry. by destruct (String.eqb k "_"). }
  split.
  { intros k l. reflexivity. }
  intros k v. unfold params_of_entry.
  destruct (String.eqb k "_"); [done|]. by destruct v.
Qed.

End GetQuery.

(** ** The heap of an [SDKFetch] instance *)

Section HeapFrame.

Import Fetch.

Lemma keeps_refl (h : gmap nat HObj) : keeps h h.
Proof. by intros l _. Qed.

Lemma keeps_dom (h0 h : gmap nat HObj) (l : nat) :
  keeps h0 h -> l ∈ dom h0 -> l ∈ dom h.
Proof.
  intros K Hl. apply elem_of_dom. rewrite (K l Hl). by apply elem_of_dom.
Qed.

Lemma keeps_insert_new (h0 h : gmap nat HObj) (l : nat) (o : HObj) :
  keeps h0 h -> l ∉ dom h0 -> keeps h0 (<[l := o]> h).
Proof.
  intros K Hl l' Hl'. rewrite lookup_insert_ne; [by apply K|].
  intros ->. contradiction.
Qed.

Lemma alloc_spec (o : HObj) (h : gmap nat HObj) :
  (fst (alloc o h) ∉ dom h) /\ snd (alloc o h) = <[fst (alloc o h) := o]> h.
Proof. unfold alloc. simpl. split; [apply is_fresh|reflexivity]. Qed.

Lemma keeps_alloc (h0 h : gmap nat HObj) (o : HObj) :
  keeps h0 h ->
  keeps h0 (snd (alloc o h)) /\ (fst (alloc o h) ∉ dom h0)
  /\ (fst (alloc o h) ∉ dom h).
Proof.
  intros K. destruct (alloc_spec o h) as [Hf Hh]. rewrite Hh.
  assert (fst (alloc o h) ∉ dom h0)
    by (intros Hin; apply Hf; by eapply keeps_dom).
  split; [by apply keeps_insert_new|]. by split.
Qed.

Lemma keeps_write (h0 h : gmap nat HObj) (l : nat) (k : string) (v : HVal) :
  keeps h0 h -> l ∉ dom h0 -> keeps h0 (heap_write l k v h).
Proof. intros K Hl. unfold heap_write. by apply keeps_insert_new. Qed.

Lemma keeps_delete (h0 h : gmap nat HObj) (l : nat) (k : string) :
  keeps h0 h -> l ∉ dom h0 -> keeps h0 (heap_delete l k h).
Proof. intros K Hl. unfold heap_delete. by apply keeps_insert_new. Qed.

Lemma alist_get_set_eq {V : Type} (k : string) (v : V) (o : list (string * V)) :
  alist_get k (alist_set k v o) = Some v.
Proof.
  induction o as [|[k' v'] o IH]; simpl.
  - by rewrite String.eqb_refl.
  - destruct (String.eqb k k') eqn:E; simpl; rewrite ?E; [|exact IH].
    by rewrite String.eqb_refl.
Qed.

Lemma alist_get_remove_ne {V : Type} (k k' : string) (o : list (string * V)) :
  String.eqb k' k = false ->
  alist_get k (alist_remove k' o) = alist_get k o.
Proof.
  intros Hne. induction o as [|[k0 v0] o IH]; simpl; [done|].
  destruct (String.eqb k' k0) eqn:E; simpl.
  - apply String.eqb_eq in E. subst k0.
    rewrite String.eqb_sym, Hne. exact IH.
  - by rewrite IH.
Qed.

Lemma alist_get_set_ne {V : Type} (k k' : string) (v : V)
    (o : list (string * V)) :
  String.eqb k k' = false ->
  alist_get k (alist_set k' v o) = alist_get k o.
Proof.
  intros Hne. induction o as [|[k0 v0] o IH]; simpl.
  - by rewrite Hne.
  - destruct (String.eqb k' k0) eqn:E; simpl.
    + apply String.eqb_eq in E. subst k0. by rewrite Hne.
    + by rewrite IH.
Qed.

Lemma headers_ref_write (http : Http) (l : nat) (v : HVal)
    (h : gmap nat HObj) :
  Http_headers_ref http (heap_write l "Authorization" v h)
  = Http_headers_ref http h.
Proof.
  unfold Http_headers_ref, heap_write.
  destruct (decide (l = _opts http)) as [->|Hne].
  - unfold heap_read at 1. rewrite lookup_insert_eq. simpl.
    by rewrite alist_get_set_ne.
  - unfold heap_read at 1. rewrite lookup_insert_ne by done. reflexivity.
Qed.

Lemma Http_new_keeps (h0 h : gmap nat HObj) (u : string) (incl : bool) :
  keeps h0 h ->
  keeps h0 (snd (Http_new u incl h))
  /\ private h0 (fst (Http_new u incl h)) (snd (Http_new u incl h)).
Proof.
  intros K. unfold Http_new.
  destruct (keeps_alloc h0 h [] K) as (K1 & F1 & _).
  destruct (alloc [] h) as [lh h1] eqn:E1. simpl in K1, F1.
  destruct (keeps_alloc h0 h1
              [("headers", HRef lh); ("credentials", HLit (VStr "include"))] K1)
    as (K2 & F2 & _).
  destruct (alloc_spec [("headers", HRef lh); ("credentials", HLit (VStr "include"))] h1)
    as [_ Hs].
  destruct (alloc [("headers", HRef lh); ("credentials", HLit (VStr "include"))] h1)
    as [lo h2] eqn:E2.
  simpl in *. split; [exact K2|]. split; [exact F2|].
  unfold Http_headers_ref, heap_read. simpl. rewrite Hs, lookup_insert_eq.
  simpl. exact F1.
Qed.

Lemma Http_setHeaders_keeps (h0 h : gmap nat HObj) (hs : HObj) (http : Http) :
  keeps h0 h -> private h0 http h ->
  keeps h0 (Http_setHeaders hs http h)
  /\ private h0 http (Http_setHeaders hs http h).
Proof.
  intros K [P1 P2]. unfold Http_setHeaders.
  set (old := match Http_headers_ref http h with
              | Some l => heap_read l h
              | None => []
              end).
  destruct (keeps_alloc h0 h (alist_assign old hs) K) as (K1 & F1 & _).
  destruct (alloc (alist_assign old hs) h) as [l h1]. simpl in K1, F1.
  split; [by apply keeps_write|].
  split; [exact P1|].
  unfold Http_headers_ref, heap_read, heap_write.
  rewrite lookup_insert_eq. simpl. rewrite alist_get_set_eq. exact F1.
Qed.

Lemma Http_setToken_keeps (h0 h : gmap nat HObj) (tok : string) (http : Http) :
  keeps h0 h -> private h0 http h ->
  keeps h0 (Http_setToken tok http h)
  /\ private h0 http (Http_setToken tok http h).
Proof.
  intros K [P1 P2]. unfold Http_setToken.
  assert (K1 : keeps h0 (heap_delete (_opts http) "credentials" h))
    by (by apply keeps_delete).
  assert (R : Http_headers_ref http (heap_delete (_opts http) "credentials" h)
              = Http_headers_ref http h).
  { unfold Http_headers_ref, heap_delete, heap_read.
    rewrite lookup_insert_eq. simpl.
    by rewrite alist_get_remove_ne. }
  rewrite R. destruct (Http_headers_ref http h) as [l|] eqn:E.
  - split; [by apply keeps_write|]. split; [exact P1|].
    by rewrite headers_ref_write, R.
  - split; [exact K1|]. split; [exact P1|]. by rewrite R.
Qed.

Lemma Http_setOpts_keeps (h0 h : gmap nat HObj) (opts : HObj) (http : Http) :
  keeps h0 h ->
  keeps h0 (snd (Http_setOpts opts http h)).
Proof.
  intros K. unfold Http_setOpts.
  destruct (keeps_alloc h0 h (alist_assign (heap_read (_opts http) h) opts) K)
    as (K1 & _).
  by destruct (alloc (alist_assign (heap_read (_opts http) h) opts) h).
Qed.

Lemma setOptionsPerRequest_keeps (h0 h : gmap nat HObj) (this : SDKFetch)
    (http : Http) (fetchOptions : SDKFetchOptions) :
  keeps h0 h -> private h0 http h ->
  keeps h0 (snd (setOptionsPerRequest this http fetchOptions h)).
Proof.
  intros K P. unfold setOptionsPerRequest.
  set (hdrs := match o_headers fetchOptions with
               | Some fh => _
               | None => _
               end).
  destruct (Http_setHeaders_keeps h0 h hdrs http K P) as [K1 P1].
  set (tok := string_or (o_token fetchOptions) (token this)).
  assert (K2 : keeps h0 (if String.eqb tok "" then Http_setHeaders hdrs http h
                         else Http_setToken tok http (Http_setHeaders hdrs http h))).
  { destruct (String.eqb tok ""); [exact K1|].
    by apply Http_setToken_keeps. }
  destruct (match getUnnamedOptions fetchOptions with
            | [] => heap_read (options this) h
            | o => o
            end) as [|x xs]; [exact K2|].
  by apply Http_setOpts_keeps.
Qed.

Lemma new_request_keeps (this : SDKFetch) (opts : SDKFetchOptions)
    (h : gmap nat HObj) :
  keeps h
    (snd (setOptionsPerRequest this
            (fst (Http_new "" (o_includeHeaders opts) h)) opts
            (snd (Http_new "" (o_includeHeaders opts) h)))).
Proof.
  destruct (Http_new_keeps h h "" (o_includeHeaders opts) (keeps_refl h))
    as [K P].
  by apply setOptionsPerRequest_keeps.
Qed.

Lemma get_keeps (this : SDKFetch) (path : string) (query : JsVal)
    (opts : SDKFetchOptions) (tail : string) (w : World) :
  keeps (heap w) (heap (snd (get this path query opts tail w))).
Proof.
  pose proof (new_request_keeps this opts (heap w)) as K.
  unfold get.
  destruct (if truthy query then _ else _) as [urlWithQuery warned].
  destruct (Http_new "" (o_includeHeaders opts) (heap w)) as [http0 h0].
  simpl in K.
  destruct (setOptionsPerRequest this http0 opts h0) as [http h1].
  simpl in K. cbn [snd].
  by destruct (FetchStack (set_heap h1 w) !! urlWithQuery).
Qed.

Lemma send_body_keeps (this : SDKFetch) (path : string)
    (opts : SDKFetchOptions) (w : World) :
  keeps (heap w) (heap (snd (send_body this path opts w))).
Proof.
  pose proof (new_request_keeps this opts (heap w)) as K.
  unfold send_body.
  destruct (Http_new "" (o_includeHeaders opts) (heap w)) as [http0 h0].
  simpl in K.
  by destruct (setOptionsPerRequest this http0 opts h0) as [http h1].
Qed.

Lemma getHeaders_keeps (this : SDKFetch) (w : World) :
  keeps (heap w) (heap (snd (getHeaders this w))).
Proof.
  unfold getHeaders.
  destruct (keeps_alloc (heap w) (heap w)
              (heap_read (headers this) (heap w)) (keeps_refl _)) as (K & _).
  by destruct (alloc (heap_read (headers this) (heap w)) (heap w)).
Qed.

Lemma getOptions_keeps (this : SDKFetch) (w : World) :
  keeps (heap w) (heap (snd (getOptions this w))).
Proof.
  unfold getOptions.
  destruct (keeps_alloc (heap w) (heap w)
              (heap_read (options this) (heap w)) (keeps_refl _)) as (K & _).
  by destruct (alloc (heap_read (options this) (heap w)) (heap w)).
Qed.

(** No method writes into an object that was there before the call. *)
Lemma call_keeps (c : Call) (this : SDKFetch) (w : World) :
  keeps (heap w) (heap (snd (call c this w))).
Proof.
  destruct c; simpl; try apply keeps_refl.
  - apply get_keeps.
  - apply send_body_keeps.
  - apply send_body_keeps.
  - apply send_body_keeps.
  - apply getHeaders_keeps.
  - apply getOptions_keeps.
  - apply get_keeps.
Qed.

End HeapFrame.

Section Getters.

Import Fetch.

Lemma mutate_elsewhere (l l' : nat) (ms : list Mutation) (h : gmap nat HObj) :
  l' <> l -> mutate l ms h !! l' = h !! l'.
Proof.
  intros Hne. unfold mutate. revert h.
  induction ms as [|m ms IH]; intros h; simpl; [done|].
  rewrite IH. destruct m; unfold heap_write, heap_delete;
    by rewrite lookup_insert_ne.
Qed.

Lemma copy_is_apart (this : SDKFetch) (w : World) (o : HObj) (l' : nat)
    (ms : list Mutation) :
  is_Some (heap w !! l') ->
  (fst (alloc o (heap w)) ∉ dom (heap w))
  /\ mutate (fst (alloc o (heap w))) ms (snd (alloc o (heap w))) !! l'
     = heap w !! l'.
Proof.
  intros Hl'. destruct (alloc_spec o (heap w)) as [Hf Hs].
  split; [exact Hf|].
  assert (l' <> fst (alloc o (heap w)))
    by (intros ->; apply Hf; by apply elem_of_dom).
  rewrite mutate_elsewhere by done. rewrite Hs.
  by rewrite lookup_insert_ne.
Qed.

(** C9. [getHeaders] and [getOptions] return new objects that hold the
    properties of the instance's headers and options as they are (a
    shallow copy: a property that is a reference is copied as a
    reference); whatever is then done to the returned object, the objects
    of the instance stay as they were; no method writes into them, and
    the two fields are reassigned by [setHeaders] and [setOptions]
    only. *)
Theorem getters_return_fresh_copies (this : SDKFetch) (w : World) :
  is_Some (heap w !! headers this) ->
  is_Some (heap w !! options this) ->
  ((fst (getHeaders this w) ∉ dom (heap w))
   /\ heap (snd (getHeaders this w)) !! fst (getHeaders this w)
      = heap w !! headers this
   /\ forall ms,
        let h' := mutate (fst (getHeaders this w)) ms
                    (heap (snd (getHeaders this w))) in
        h' !! headers this = heap w !! headers this
        /\ h' !! options this = heap w !! options this)
  /\ ((fst (getOptions this w) ∉ dom (heap w))
      /\ heap (snd (getOptions this w)) !! fst (getOptions this w)
         = heap w !! options this
      /\ forall ms,
           let h' := mutate (fst (getOptions this w)) ms
                       (heap (snd (getOptions this w))) in
           h' !! headers this = heap w !! headers this
           /\ h' !! options this = heap w !! options this)
  /\ forall c,
       heap (snd (call c this w)) !! headers this = heap w !! headers this
       /\ heap (snd (call c this w)) !! options this = heap w !! options this
       /\ headers (fst (call c this w))
          = match c with
            | CallSetHeaders hs => hs
            | _ => headers this
            end
       /\ options (fst (call c this w))
          = match c with
            | CallSetOptions os => os
            | _ => options this
            end.
Proof.
  intros Hh Ho.
  split; [|split].
  - unfold getHeaders.
    pose proof (fun ms => copy_is_apart this w
                  (heap_read (headers this) (heap w)) (headers this) ms Hh) as A.
    pose proof (fun ms => copy_is_apart this w
                  (heap_read (headers this) (heap w)) (options this) ms Ho) as B.
    destruct (alloc_spec (heap_read (headers this) (heap w)) (heap w)) as [_ Hs].
    destruct (alloc (heap_read (headers this) (heap w)) (heap w)) as [l h].
    simpl in *. split; [exact (proj1 (A []))|]. split.
    + rewrite Hs, lookup_insert_eq. unfold heap_read.
      destruct Hh as [o ->]. reflexivity.
    + intros ms. split; [exact (proj2 (A ms))|exact (proj2 (B ms))].
  - unfold getOptions.
    pose proof (fun ms => copy_is_apart this w
                  (heap_read (options this) (heap w)) (headers this) ms Hh) as A.
    pose proof (fun ms => copy_is_apart this w
                  (heap_read (options this) (heap w)) (options this) ms Ho) as B.
    destruct (alloc_spec (heap_read (options this) (heap w)) (heap w)) as [_ Hs].
    destruct (alloc (heap_read (options this) (heap w)) (heap w)) as [l h].
    simpl in *. split; [exact (proj1 (A []))|]. split.
    + rewrite Hs, lookup_insert_eq. unfold heap_read.
      destruct Ho as [o ->]. reflexivity.
    + intros ms. split; [exact (proj2 (A ms))|exact (proj2 (B ms))].
  - intros c. pose proof (call_keeps c this w) as K.
    split; [apply K; by apply elem_of_dom|].
    split; [apply K; by apply elem_of_dom|].
    split; by destruct c.
Qed.

End Getters.

Section GettersWitness.

Import Fetch.

Lemma getters_return_fresh_copies_witness :
  is_Some (heap (snd SDKFetch_new) !! headers (fst SDKFetch_new))
  /\ is_Some (heap (snd SDKFetch_new) !! options (fst SDKFetch_new))
  /\ mutate (fst (getHeaders (fst SDKFetch_new) (snd SDKFetch_new)))
        [SetProp "Accept" (HLit (VStr "text/html")); DeleteProp "Content-Type"]
        (heap (snd (getHeaders (fst SDKFetch_new) (snd SDKFetch_new))))
      !! headers (fst SDKFetch_new)
     = Some defaultSDKFetchHeaders.
Proof.
  assert (Hh : is_Some (heap (snd SDKFetch_new) !! headers (fst SDKFetch_new)))
    by (eexists; vm_compute; reflexivity).
  assert (Ho : is_Some (heap (snd SDKFetch_new) !! options (fst SDKFetch_new)))
    by (eexists; vm_compute; reflexivity).
  split; [exact Hh|]. split; [exact Ho|].
  destruct (getters_return_fresh_copies (fst SDKFetch_new) (snd SDKFetch_new) Hh Ho)
    as [[_ [_ H]] _].
  rewrite (proj1 (H _)). vm_compute. reflexivity.
Defined.

End GettersWitness.

(** ** The request deduplicator *)

Section Deduplicator.

Import Fetch.

(** While a key is in [FetchStack], [get] hands out the stream stored
    under it and creates none. *)
Lemma get_shares_stream (this : SDKFetch) (path : string) (query : JsVal)
    (opts : SDKFetchOptions) (tail : string) (w : World) (d : nat) :
  let u := urlWithPath this path (o_apiHost opts) in
  let key := if truthy query then fst (_buildQuery u query) else u in
  FetchStack w !! key = Some d ->
  stream_of (fst (fst (get this path query opts tail w))) = d
  /\ dists (snd (get this path query opts tail w)) = dists w
  /\ FetchStack (snd (get this path query opts tail w)) = FetchStack w
  /\ calls (snd (get this path query opts tail w)) = calls w.
Proof.
  intros u key Hd. unfold get. fold u.
  replace (if truthy query then _buildQuery u query else (u, []))
    with (key, if truthy query then snd (_buildQuery u query) else [] : list string)
    by (subst key; destruct (truthy query); [by destruct (_buildQuery u query)|done]).
  destruct (Http_new "" (o_includeHeaders opts) (heap w)) as [http0 h0].
  destruct (setOptionsPerRequest this http0 opts h0) as [http h1].
  unfold set_heap; cbn [FetchStack]. rewrite Hd. cbn [FetchStack snd fst].
  rewrite Hd. by destruct (o_wrapped opts).
Qed.

(** A key that is not in [FetchStack] gets a new stream, and still no
    transport call: the call is made by the subscription. *)
Lemma get_creates_stream (this : SDKFetch) (path : string) (query : JsVal)
    (opts : SDKFetchOptions) (tail : string) (w : World) :
  let u := urlWithPath this path (o_apiHost opts) in
  let key := if truthy query then fst (_buildQuery u query) else u in
  FetchStack w !! key = None ->
  stream_of (fst (fst (get this path query opts tail w))) = length (dists w)
  /\ length (dists (snd (get this path query opts tail w))) = S (length (dists w))
  /\ calls (snd (get this path query opts tail w)) = calls w.
Proof.
  intros u key Hd. unfold get. fold u.
  replace (if truthy query then _buildQuery u query else (u, []))
    with (key, if truthy query then snd (_buildQuery u query) else [] : list string)
    by (subst key; destruct (truthy query); [by destruct (_buildQuery u query)|done]).
  destruct (Http_new "" (o_includeHeaders opts) (heap w)) as [http0 h0].
  destruct (setOptionsPerRequest this http0 opts h0) as [http h1].
  unfold set_heap; cbn [FetchStack]. rewrite Hd.
  cbn [FetchStack snd fst dists calls]. rewrite lookup_insert_eq.
  split; [by destruct (o_wrapped opts)|].
  split; [|done]. rewrite length_app. simpl. lia.
Qed.

(** Every subscription to a stream opens a transport call of its own. *)
Lemma subscribe_opens_call (d : nat) (dist : Dist) (w : World) :
  dists w !! d = Some dist ->
  subscribe d w
  = (Some (next_sub w),
     mkWorld (heap w) (FetchStack w) (dists w)
       (inflight w ++ [(next_sub w, d)])%list
       (calls w ++ [d_urlWithTail dist])%list (S (next_sub w))).
Proof. intros H. unfold subscribe. by rewrite H. Qed.

(** When a subscription ends, however it ends, the key of its stream
    leaves [FetchStack]. *)
Lemma settle_evicts (sub d : nat) (dist : Dist) (e : Ending) (w : World) :
  alist_nat_get sub (inflight w) = Some d ->
  dists w !! d = Some dist ->
  FetchStack (settle sub e w) !! d_key dist = None
  /\ calls (settle sub e w) = calls w.
Proof.
  intros Hs Hd. unfold settle. rewrite Hs, Hd. simpl.
  split; [apply lookup_delete_eq|done].
Qed.

(** C4, at the input where the code leaves it: two callers ask for the
    same URL before any answer, get the same stream, and subscribe. Each
    subscription has opened a transport call of its own, so two calls are
    in flight for the one key; the first answer then evicts the key while
    the second call is still open, and a third caller gets a new stream
    and a third call. *)
Theorem same_key_two_calls_in_flight :
  let this := fst SDKFetch_new in
  let w0 := snd SDKFetch_new in
  let q := VObj [("page", VNum 1)] in
  let key := "https://www.teambition.com/api/tasks?page=1" in
  let a := get this "tasks" q no_options "7" w0 in
  let b := get this "tasks" q no_options "8" (snd a) in
  let w1 := snd (subscribe (stream_of (fst (fst a))) (snd b)) in
  let w2 := snd (subscribe (stream_of (fst (fst b))) w1) in
  let w3 := settle 0 Completed w2 in
  let c := get this "tasks" q no_options "9" w3 in
  let w4 := snd (subscribe (stream_of (fst (fst c))) (snd c)) in
  stream_of (fst (fst a)) = stream_of (fst (fst b))
  /\ calls (snd b) = []
  /\ inflight_for key w2 = [0; 1]
  /\ calls w2 = [key +:+ "&_=7"; key +:+ "&_=7"]
  /\ FetchStack w3 !! key = None
  /\ inflight_for key w3 = [1]
  /\ stream_of (fst (fst c)) <> stream_of (fst (fst a))
  /\ calls w4 = [key +:+ "&_=7"; key +:+ "&_=7"; key +:+ "&_=9"]
  /\ inflight_for key w4 = [1; 2].
Proof. vm_compute. repeat split; try reflexivity. discriminate. Qed.

End Deduplicator.

(** ** The engine: what its streams leave alone *)

Section Frames.

Import Engine.

Context {X : Collaborators}.

(** A relation between the world before and the world after that holds
    across each primitive effect holds across every stream of the
    engine. *)
Variable R : World -> World -> Prop.
Hypothesis R_refl : forall w, R w w.
Hypothesis R_trans : forall w1 w2 w3, R w1 w2 -> R w2 w3 -> R w1 w3.
Hypothesis R_log : forall e w, R w (log e w).
Hypothesis R_store : forall db s w, R w (set_store db s w).
Hypothesis R_mark : forall k w, R w (mark k w).
Hypothesis R_forward : forall ch s w, R w (forward ch s w).

Local Abbreviation respects := (Engine.respects R).

Lemma concat_each_respects {A B : Type} (project : A -> Observable B)
    (vs : list A) :
  (forall v, respects (project v)) -> respects (concat_each project vs).
Proof.
  intros Hp. induction vs as [|v vs IH]; intros w; simpl; [apply R_refl|].
  destruct (failure (project v w)) eqn:E; [apply Hp|].
  simpl. eapply R_trans; [apply Hp|apply IH].
Qed.

Lemma concatMap_respects {A B : Type} (project : A -> Observable B)
    (src : Observable A) :
  respects src -> (forall v, respects (project v)) ->
  respects (concatMap project src).
Proof.
  intros Hs Hp w. unfold concatMap.
  pose proof (concat_each_respects project (emitted (src w)) Hp (after (src w))) as H.
  destruct (failure (concat_each project (emitted (src w)) (after (src w))));
    simpl; eapply R_trans; try apply Hs; exact H.
Qed.

Lemma concatAll_respects {A : Type} (queue : list (Observable A)) :
  Forall respects queue -> respects (concatAll queue).
Proof.
  intros Hq. unfold concatAll.
  induction Hq as [|o queue Ho Hq IH]; intros w; simpl; [apply R_refl|].
  destruct (failure (o w)) eqn:E; [apply Ho|].
  simpl. eapply R_trans; [apply Ho|apply IH].
Qed.

Lemma fold_respects {A : Type} (f : A -> World -> World) (vs : list A) (w : World) :
  (forall v w, R w (f v w)) -> R w (fold_left (fun w v => f v w) vs w).
Proof.
  intros Hf. revert w. induction vs as [|v vs IH]; intros w; simpl; [apply R_refl|].
  eapply R_trans; [apply Hf|apply IH].
Qed.

Lemma tap_respects {A : Type} (f : A -> World -> World) (src : Observable A) :
  respects src -> (forall v w, R w (f v w)) -> respects (tap f src).
Proof.
  intros Hs Hf w. unfold tap. simpl.
  eapply R_trans; [apply Hs|]. by apply fold_respects.
Qed.

Lemma tapError_respects {A : Type} (f : Error -> World -> World)
    (src : Observable A) :
  respects src -> (forall e w, R w (f e w)) -> respects (tapError f src).
Proof.
  intros Hs Hf w. unfold tapError.
  destruct (failure (src w)); simpl; [|apply Hs].
  eapply R_trans; [apply Hs|apply Hf].
Qed.

Lemma mapTo_respects {A B : Type} (b : B) (src : Observable A) :
  respects src -> respects (mapTo b src).
Proof. intros Hs w. apply Hs. Qed.

Lemma mapEach_respects {A B : Type} (f : A -> B) (src : Observable A) :
  respects src -> respects (mapEach f src).
Proof. intros Hs w. apply Hs. Qed.

Lemma subscribe_respects (r : RequestStream) : respects (subscribe r).
Proof. intros w. unfold subscribe. destruct (reply r); apply R_log. Qed.

Lemma run_store_respects (op : Store -> Error + Store) (db : nat) :
  respects (run_store op db).
Proof.
  intros w. unfold run_store.
  destruct (op (stores w db)); simpl; [apply R_refl|apply R_store].
Qed.

Lemma upsert_respects (db : nat) (table : string) (v : JsVal) :
  respects (upsert db table v).
Proof.
  intros w. unfold upsert.
  eapply R_trans; [apply R_log|apply run_store_respects].
Qed.

Lemma delete_respects (db : nat) (table : string) (c : JsVal) :
  respects (delete db table c).
Proof.
  intros w. unfold delete.
  eapply R_trans; [apply R_log|apply run_store_respects].
Qed.

Lemma dirtyStream_respects (db : nat) (id : string) (type data : JsVal)
    (merge : Store -> Error + Store) :
  respects (dirtyStream db id type data merge).
Proof.
  intros w. unfold dirtyStream.
  eapply R_trans; [apply R_log|apply run_store_respects].
Qed.

Lemma on_database_respects {A : Type} (db : option nat)
    (op : nat -> Observable A) :
  (forall d, respects (op d)) -> respects (on_database db op).
Proof. intros H. destruct db; simpl; [apply H|]. intros w. apply R_refl. Qed.

Lemma dbGet_respects (db : nat) (table : string) (q : JsVal) :
  respects (selector_ (dbGetWithSelfJoinEnabled db table q)).
Proof. intros w. apply R_log. Qed.

Lemma fetch_then_get_respects (database : option nat) (request : RequestStream)
    (tableName : string) (q : JsVal) (marking : option string) :
  respects (fetch_then_get database request tableName q marking).
Proof.
  unfold fetch_then_get. apply concatMap_respects.
  - assert (U : respects
                  (concatMap
                     (fun v => on_database database (fun d => upsert d tableName v))
                     (subscribe request))).
    { apply concatMap_respects; [apply subscribe_respects|].
      intros v. apply on_database_respects. intros d. apply upsert_respects. }
    destruct marking; [|exact U].
    apply tap_respects; [exact U|]. intros _ w. apply R_mark.
  - intros _. apply on_database_respects. intros d. apply dbGet_respects.
Qed.

Lemma handleRequestCache_respects (this : Net) (result : ApiResult)
    (token : QueryToken) :
  handleRequestCache this result = inr token -> respects (selector_ token).
Proof.
  unfold handleRequestCache.
  destruct (getInfoFromResult this result) as [e|[[[request q] cacheValidate] tableName]];
    [discriminate|].
  destruct cacheValidate.
  - destruct (negb _).
    + intros [= <-]. simpl. apply mapEach_respects, fetch_then_get_respects.
    + destruct (database this); [|discriminate].
      intros [= <-]. simpl. apply mapEach_respects, dbGet_respects.
  - intros [= <-]. simpl. apply fetch_then_get_respects.
Qed.

Lemma ask_paddings_respects (setup : option ((JsVal -> Reply) * string * list string))
    (data : list JsVal) (w : World) :
  R w (snd (ask_paddings setup data w)).
Proof.
  revert w. induction data as [|datum data IH]; intros w; simpl; [apply R_refl|].
  destruct (ask_padding setup datum w) as [p w1] eqn:E.
  specialize (IH w1). destruct (ask_paddings setup data w1) as [ps w2].
  simpl in *. eapply R_trans; [|exact IH].
  unfold ask_padding in E. destruct setup as [[[pad pk] req]|].
  - destruct (complete req datum); injection E as <- <-;
      [apply R_refl|apply R_log].
  - injection E as <- <-. apply R_refl.
Qed.

Lemma settle_paddings_respects (tableName : string)
    (ps : list (JsVal * option Reply)) (w : World) :
  R w (settled_in (settle_paddings tableName ps w)).
Proof.
  revert w. induction ps as [|[datum p] ps IH]; intros w; simpl; [apply R_refl|].
  destruct p as [[r|e]|]; simpl; try apply IH; try apply R_refl.
  destruct (not_nullish r); simpl; [|apply IH].
  assert (U : R w (after (on_database (database (net w))
                            (fun d => upsert d tableName r) w))).
  { apply on_database_respects. intros d. apply upsert_respects. }
  destruct (failure _); simpl; [exact U|].
  eapply R_trans; [exact U|apply IH].
Qed.

Lemma validate_respects (result : ApiResult) (data : list JsVal) :
  respects (validate result data).
Proof.
  intros w. unfold validate. destruct data as [|datum data]; [apply R_refl|].
  pose proof (ask_paddings_respects (padding_setup (net w) result)
                (datum :: data) w) as A.
  destruct (ask_paddings (padding_setup (net w) result) (datum :: data) w)
    as [ps w1].
  pose proof (settle_paddings_respects (tableName result) ps w1) as S.
  simpl in A.
  assert (R w (settled_in (settle_paddings (tableName result) ps w1)))
    by (eapply R_trans; eassumption).
  destruct (first_error _); [assumption|]. by destruct (count _).
Qed.

Lemma values_respects (s : SelectorMeta) : respects (values s).
Proof.
  unfold values.
  assert (Hr : respects
                 match source s with
                 | FromStore db table q =>
                     fun w =>
                       let w1 := log (RowsRead db table q) w in
                       match db_get table q (stores w db) with
                       | inr rows => mkOutcome [rows] None w1
                       | inl e => mkOutcome [] (Some e) w1
                       end
                 | FromRequest request _ _ => mapEach as_rows (subscribe request)
                 end).
  { destruct (source s).
    - intros w. simpl. destruct (db_get table q (stores w db)); apply R_log.
    - apply mapEach_respects, subscribe_respects. }
  destruct (mapFn s); [|exact Hr].
  apply concatMap_respects; [exact Hr|]. intros v. apply validate_respects.
Qed.

Lemma QueryToken_values_respects (token : QueryToken) :
  respects (selector_ token) -> respects (QueryToken_values token).
Proof.
  intros H. apply concatMap_respects; [exact H|].
  intros s. apply values_respects.
Qed.

Lemma subject_stream_respects (subject : nat) : respects (subject_stream subject).
Proof.
  intros w. unfold subject_stream. destruct (subjects w !! subject); apply R_refl.
Qed.

Lemma materialize_respects (this : Net) (database : nat) (v : BufferObject)
    (p : Observable unit) :
  materialize this database v = inr (Some p) -> respects p.
Proof.
  destruct v as [tableName method value|arg socketMessage pkName type|result ch];
    simpl.
  - destruct method; intros [= <-]; [apply upsert_respects|apply delete_respects].
  - destruct (_ || _); [intros [= <-]; apply delete_respects|].
    destruct (String.eqb _ "new"); [intros [= <-]; apply upsert_respects|].
    destruct (String.eqb _ "change"); [|discriminate].
    destruct (handleSocketMessage _ _ _); intros [= <-];
      [apply dirtyStream_respects|apply upsert_respects].
  - destruct (handleRequestCache this result) as [e|token] eqn:E; [discriminate|].
    intros [= <-]. apply mapTo_respects, tap_respects.
    + by eapply handleRequestCache_respects.
    + intros s w. apply R_forward.
Qed.

End Frames.

(** ** The engine as a state machine: invariants of [step] *)

Section Steps.

Import Engine.

Context {X : Collaborators}.

Lemma stays_attached_refl (w : World) : stays_attached w w.
Proof. by repeat split. Qed.

Lemma stays_attached_trans (w1 w2 w3 : World) :
  stays_attached w1 w2 -> stays_attached w2 w3 -> stays_attached w1 w3.
Proof.
  intros (F1 & P1 & D1) (F2 & P2 & D2). split; [congruence|].
  split; [congruence|]. intros d Hd. by apply D2, D1.
Qed.

Lemma same_buffer_trans (w1 w2 w3 : World) :
  same_buffer w1 w2 -> same_buffer w2 w3 -> same_buffer w1 w3.
Proof. unfold same_buffer. congruence. Qed.

(** Every stream built from the primitives keeps the schemas and the
    attached store. *)
Ltac attached :=
  first
    [ exact stays_attached_refl
    | exact stays_attached_trans
    | apply stays_attached_refl
    | by (intros; repeat split) ].

Ltac buffered :=
  first
    [ exact same_buffer_trans
    | by (intros; unfold same_buffer) ].

Lemma push_stays_attached (v : BufferObject) (w : World) :
  stays_attached w (push v w).
Proof. by repeat split. Qed.

(** The queue [schedule] builds, one buffered operation at a time. *)
Lemma schedule_acc (this : Net) (database : nat) (buffer : list BufferObject)
    (acc : list (Observable unit)) :
  forEach buffer
    (fun v (st : list (Observable unit) * option Exception) =>
       match materialize this database v with
       | inl e => ((fst st, Some e), false)
       | inr (Some p) => (((fst st ++ [p])%list, None), true)
       | inr None => (st, true)
       end)
    (acc, None)
  = ((acc ++ fst (schedule this database buffer))%list,
     snd (schedule this database buffer)).
Proof.
  unfold schedule. revert acc.
  induction buffer as [|v buffer IH]; intros acc; cbn [forEach].
  - by rewrite app_nil_r.
  - destruct (materialize this database v) as [e|[p|]]; cbn [fst snd].
    + by rewrite app_nil_r.
    + rewrite (IH (acc ++ [p])%list), (IH ([] ++ [p])%list).
      cbn [fst snd]. by rewrite <- app_assoc.
    + apply IH.
Qed.

Lemma schedule_nil (this : Net) (database : nat) :
  schedule this database [] = ([], None).
Proof. reflexivity. Qed.

Lemma schedule_cons (this : Net) (database : nat) (v : BufferObject)
    (buffer : list BufferObject) :
  schedule this database (v :: buffer)
  = match materialize this database v with
    | inl e => ([], Some e)
    | inr (Some p) =>
        (p :: fst (schedule this database buffer),
         snd (schedule this database buffer))
    | inr None => schedule this database buffer
    end.
Proof.
  unfold schedule at 1. cbn [forEach].
  destruct (materialize this database v) as [e|[p|]]; cbn [fst snd].
  - reflexivity.
  - by rewrite (schedule_acc this database buffer ([] ++ [p])%list).
  - reflexivity.
Qed.

Lemma schedule_respects (R : World -> World -> Prop)
    (this : Net) (database : nat) (buffer : list BufferObject) :
  (forall w, R w w) ->
  (forall w1 w2 w3, R w1 w2 -> R w2 w3 -> R w1 w3) ->
  (forall e w, R w (log e w)) ->
  (forall db s w, R w (set_store db s w)) ->
  (forall k w, R w (mark k w)) ->
  (forall ch s w, R w (forward ch s w)) ->
  Forall (respects R) (fst (schedule this database buffer)).
Proof.
  intros R1 R2 R3 R4 R5 R6.
  induction buffer as [|v buffer IH]; [constructor|].
  rewrite schedule_cons.
  destruct (materialize this database v) as [e|[p|]] eqn:E; cbn [fst].
  - constructor.
  - constructor; [|exact IH]. by eapply (materialize_respects R).
  - exact IH.
Qed.

(** The stream [persist] returns respects what its queue respects. *)
Lemma drain_respects (R : World -> World -> Prop)
    (queue : list (Observable unit)) :
  (forall w, R w w) ->
  (forall w1 w2 w3, R w1 w2 -> R w2 w3 -> R w1 w3) ->
  (forall e w, R w (log e w)) ->
  Forall (respects R) queue ->
  respects R (tapError log_error (concatAll queue)).
Proof.
  intros R1 R2 R3 Hq. apply tapError_respects; try assumption.
  - by apply concatAll_respects.
  - intros e w. unfold log_error.
    destruct (await_toPromise e); [apply R3|apply R1].
Qed.

Lemma persist_stays_attached (database : nat) (w : World) :
  stays_attached w (fst (persist database w))
  /\ match snd (persist database w) with
     | inr drain => respects stays_attached drain
     | inl _ => True
     end.
Proof.
  unfold persist.
  set (this1 := match Engine.database (net w) with
                | None => _
                | Some _ => net w
                end).
  assert (H1 : fields this1 = fields (net w)
               /\ primaryKeys this1 = primaryKeys (net w)
               /\ forall d, Engine.database (net w) = Some d
                            -> Engine.database this1 = Some d).
  { subst this1. destruct (Engine.database (net w)) eqn:D; simpl;
      (split; [reflexivity|split; [reflexivity|]]); congruence. }
  pose proof (schedule_respects stays_attached this1 database
                (persistedDataBuffer this1)
                stays_attached_refl stays_attached_trans) as Hq.
  destruct (schedule this1 database (persistedDataBuffer this1)) as [queue [e|]].
  - split; [|done]. exact H1.
  - split; [exact H1|].
    apply drain_respects; try attached.
    apply Hq; by (intros; repeat split).
Qed.

(** Whatever is done to an engine, its schemas stay and a store that is
    attached stays attached. *)
Lemma step_stays_attached (a : Action) (w : World) :
  stays_attached w (step a w).
Proof.
  destruct a as [result|result|result|arg socketMessage pkName type|database];
    simpl.
  - unfold handleApiResult. destruct (Engine.database (net w)) as [d|] eqn:D.
    + destruct (handleRequestCache (net w) result) as [e|token] eqn:E; [attached|].
      apply (QueryToken_values_respects stays_attached); try attached.
      eapply (handleRequestCache_respects stays_attached); attached.
    + unfold bufferResponse.
      destruct (getInfoFromResult (net w) result)
        as [e|[[[request q] cacheValidate] tableName]]; [attached|].
      eapply stays_attached_trans;
        [|apply (QueryToken_values_respects stays_attached); try attached].
      * by repeat split.
      * simpl. apply mapEach_respects. intros w'. unfold subject_stream.
        destruct (subjects w' !! _); attached.
  - unfold handleCUDAResult. destruct (Engine.database (net w)) as [d|].
    + apply (concatMap_respects stays_attached); try attached.
      * apply subscribe_respects. attached.
      * intros v. apply mapTo_respects.
        destruct (cud_method result);
          [apply upsert_respects|apply upsert_respects|apply delete_respects];
          attached.
    + apply (tap_respects stays_attached); try attached.
      apply subscribe_respects. attached.
  - apply (tap_respects stays_attached); try attached.
    apply subscribe_respects. attached.
  - apply push_stays_attached.
  - destruct (persist_stays_attached database w) as [H1 H2].
    destruct (persist database w) as [w1 [e|drain]]; simpl in *; [exact H1|].
    eapply stays_attached_trans; [exact H1|apply H2].
Qed.

Lemma run_stays_attached (actions : list Action) (w : World) :
  stays_attached w (run actions w).
Proof.
  unfold run. revert w.
  induction actions as [|a actions IH]; intros w; simpl; [attached|].
  eapply stays_attached_trans; [apply step_stays_attached|apply IH].
Qed.

End Steps.

(** ** Attaching a store *)

Section Attach.

Import Engine.

Context {X : Collaborators}.

(** Whether an operation is scheduled, skipped or makes the loop throw
    does not depend on the store that is being attached. *)
Lemma materialize_shape (this : Net) (db db' : nat) (v : BufferObject) :
  match materialize this db v, materialize this db' v with
  | inl e, inl e' => e = e'
  | inr (Some _), inr (Some _) => True
  | inr None, inr None => True
  | _, _ => False
  end.
Proof.
  destruct v as [tableName method value|arg socketMessage pkName type|result ch];
    simpl.
  - by destruct method.
  - destruct (_ || _); [done|].
    destruct (String.eqb _ "new"); [done|].
    destruct (String.eqb _ "change"); [|done].
    by destruct (handleSocketMessage _ _ _).
  - by destruct (handleRequestCache this result).
Qed.

Lemma schedule_throws_alike (this : Net) (db db' : nat)
    (buffer : list BufferObject) :
  snd (schedule this db buffer) = snd (schedule this db' buffer).
Proof.
  induction buffer as [|v buffer IH]; [reflexivity|].
  rewrite !schedule_cons.
  pose proof (materialize_shape this db db' v) as H.
  destruct (materialize this db v) as [e|[p|]],
           (materialize this db' v) as [e'|[p'|]];
    try contradiction; simpl; congruence.
Qed.

Lemma persist_attaches (database : nat) (w : World) :
  Engine.database (net (fst (persist database w)))
  = Some (default database (Engine.database (net w))).
Proof.
  unfold persist.
  destruct (Engine.database (net w)) as [d|] eqn:D; simpl;
    destruct (schedule _ database _) as [queue [e|]]; simpl; done.
Qed.

Lemma persist_clears (database : nat) (w : World) :
  match snd (persist database w) with
  | inr drain =>
      persistedDataBuffer (net (fst (persist database w))) = []
      /\ respects same_buffer drain
      /\ trace (fst (persist database w)) = trace w
      /\ stores (fst (persist database w)) = stores w
  | inl _ =>
      persistedDataBuffer (net (fst (persist database w)))
      = persistedDataBuffer (net w)
      /\ trace (fst (persist database w)) = trace w
      /\ stores (fst (persist database w)) = stores w
  end.
Proof.
  unfold persist.
  set (this1 := match Engine.database (net w) with
                | None => _
                | Some _ => net w
                end).
  assert (B : persistedDataBuffer this1 = persistedDataBuffer (net w))
    by (subst this1; by destruct (Engine.database (net w))).
  pose proof (schedule_respects same_buffer this1 database
                (persistedDataBuffer this1)) as Hq.
  destruct (schedule this1 database (persistedDataBuffer this1)) as [queue [e|]];
    simpl.
  - done.
  - split; [done|]. split; [|done].
    apply drain_respects; try done.
    + unfold same_buffer. congruence.
    + apply Hq; try done. unfold same_buffer. congruence.
Qed.

(** A store attached once more, right after a store was attached: the
    world stays as it is. *)
Lemma attach_again (db db' : nat) (w : World) :
  step (Attach db') (step (Attach db) w) = step (Attach db) w.
Proof.
  cbn [step].
  pose proof (persist_attaches db w) as A.
  pose proof (persist_clears db w) as C.
  pose proof (persist_stays_attached db w) as [_ S].
  destruct (persist db w) as [w1 [e|drain]] eqn:P; cbn [fst snd] in *.
  - (* the loop threw: it throws again, at the same operation *)
    unfold persist in P.
    set (this1 := match Engine.database (net w) with
                  | None => _
                  | Some _ => net w
                  end) in P.
    destruct (schedule this1 db (persistedDataBuffer this1)) as [queue [e0|]] eqn:Sch;
      [|discriminate].
    injection P as <- <-.
    unfold persist. cbn [net set_net]. cbn [net set_net] in A. rewrite A.
    pose proof (schedule_throws_alike this1 db db' (persistedDataBuffer this1)) as T.
    rewrite Sch in T. cbn [snd] in T.
    destruct (schedule this1 db' (persistedDataBuffer this1)) as [queue' [e1|]];
      cbn [snd] in T; [|discriminate].
    reflexivity.
  - (* the queue was drained: the buffer is empty *)
    destruct C as (B & Q & _).
    specialize (Q w1). specialize (S w1). unfold same_buffer in Q.
    destruct S as (_ & _ & S). specialize (S _ A).
    rewrite B in Q.
    destruct (after (drain w1)) as [[f d r p b] st su tr].
    cbn [net database persistedDataBuffer] in S, Q. subst d b.
    reflexivity.
Qed.

(** The field [database] is assigned once: after a call of [persist] the
    engine holds the store it held before, or, if it held none, the one
    it was given; nothing that is done to the engine afterwards changes
    that; a second call right away leaves the world as it is; and the
    buffer that was drained is empty, so that a later call has none of
    the drained operations to run again. What a later call does with
    operations buffered in between is another matter, see
    [AttachExamples]. *)
Theorem attach_is_idempotent (db db' : nat) (w : World) (actions : list Action) :
  let w1 := step (Attach db) w in
  database (net w1) = Some (default db (database (net w)))
  /\ database (net (run actions w1)) = database (net w1)
  /\ database (net (step (Attach db') (run actions w1))) = database (net w1)
  /\ step (Attach db') w1 = w1
  /\ match snd (persist db w) with
     | inr _ => persistedDataBuffer (net w1) = []
     | inl _ => trace w1 = trace w
     end.
Proof.
  intros w1.
  assert (A : database (net w1) = Some (default db (database (net w)))).
  { subst w1. cbn [step].
    pose proof (persist_attaches db w) as A.
    pose proof (persist_stays_attached db w) as [_ S].
    destruct (persist db w) as [w' [e|drain]]; cbn [fst snd] in *; [exact A|].
    by apply S. }
  split; [exact A|].
  split; [rewrite A; by apply (run_stays_attached actions w1)|].
  split.
  { rewrite A. apply (step_stays_attached (Attach db') (run actions w1)).
    by apply (run_stays_attached actions w1). }
  split; [apply attach_again|].
  subst w1. cbn [step].
  pose proof (persist_clears db w) as C.
  destruct (persist db w) as [w' [e|drain]]; cbn [fst snd] in *.
  - by destruct C as (_ & T & _).
  - destruct C as (B & Q & _). by rewrite (Q w').
Qed.

End Attach.

Section AttachExamples.

Import Engine.

#[local] Existing Instance Reference.collaborators.

(** C6. A second call of [persist] is not a no-op with respect to the
    store that is used. The answer to a write that was issued before the
    store 0 was attached and arrives after the drain is buffered all the
    same: the engine holds the store 0 and its buffer is not empty. A
    second call of [persist], given the store 1, runs the buffered write
    against the store 1, its own argument, while the engine keeps the
    store 0: the row is written to the store 1 and not to the store 0,
    which reads issued from then on are answered from. *)
Theorem later_attach_writes_to_its_own_store :
  let w := run [Attach 0; Answer Reference.write_rowA] Reference.start in
  let w' := step (Attach 1) w in
  database (net w) = Some 0
  /\ persistedDataBuffer (net w) = [CUD "tasks" MUpsert Reference.rowA]
  /\ trace w = [Fetched 6]
  /\ database (net w') = Some 0
  /\ persistedDataBuffer (net w') = []
  /\ trace w' = [Fetched 6; Upserted 1 "tasks" Reference.rowA]
  /\ stores w' 0 = [("tasks", Reference.mkTable "_id" [])]
  /\ stores w' 1 = [("tasks", Reference.mkTable "_id" [Reference.rowA])].
Proof. repeat split; vm_compute; reflexivity. Qed.

End AttachExamples.

(** ** Tables without a schema *)

Section Schemas.

Import Engine.

Context {X : Collaborators}.

(** The tables the constructor registers are those of its argument. *)
Lemma Net_new_fields_acc (schemas : list (string * SchemaDef))
    (fs : gmap string (list string)) (pks : gmap string string) (t : string) :
  is_Some
    (fst (forEach schemas
            (fun (d : string * SchemaDef)
                 (st : gmap string (list string) * gmap string string) =>
               let '(name, schema) := d in
               let '(fs, pks) := st in
               let fs' :=
                 <[name := map fst (List.filter (fun kv => negb (virtual (snd kv))) schema)]> fs in
               let pks' :=
                 forEach schema
                   (fun (col : string * ColumnDef) (pks : gmap string string) =>
                      if primaryKey (snd col)
                      then (<[name := fst col]> pks, false)
                      else (pks, true)) pks in
               ((fs', pks'), true))
            (fs, pks)) !! t)
  <-> is_Some (fs !! t) \/ existsb (String.eqb t) (map fst schemas) = true.
Proof.
  revert fs pks. induction schemas as [|[name schema] schemas IH]; intros fs pks.
  - simpl. split; [by left|]. by intros [H|H].
  - cbn [forEach map fst existsb]. rewrite IH.
    rewrite lookup_insert. destruct (decide (name = t)) as [->|Hne].
    + rewrite String.eqb_refl. simpl. split; [by right|by left].
    + assert (String.eqb t name = false) as ->
        by (apply String.eqb_neq; congruence).
      simpl. reflexivity.
Qed.

Lemma Net_new_fields (schemas : list (string * SchemaDef)) (t : string) :
  is_Some (fields (Net_new schemas) !! t)
  <-> existsb (String.eqb t) (map fst schemas) = true.
Proof.
  unfold Net_new.
  pose proof (Net_new_fields_acc schemas ∅ ∅ t) as H.
  destruct (forEach schemas _ (∅, ∅)) as [fs pks]. simpl in *.
  rewrite H. rewrite lookup_empty. split; [|by right].
  intros [[? ?]|?]; [discriminate|done].
Qed.

Lemma getInfoFromResult_declared (this : Net) (result : ApiResult) :
  match fields this !! tableName result with
  | Some _ =>
      exists q, getInfoFromResult this result
                = inr (request result, q, cacheValidate result, tableName result)
  | None =>
      getInfoFromResult this result
      = inl (TypeError ("table: " +:+ tableName result +:+ " is not defined"))
  end.
Proof.
  unfold getInfoFromResult.
  destruct (fields this !! tableName result); [|reflexivity]. by eexists.
Qed.

(** C8, as the code has it. A read of a table without schema throws when
    it is issued, attached or not, and nothing has happened by then; a
    read of a table with a schema does not throw, and issuing it touches
    neither the network nor a store. A write is not checked: [lift]
    hands back its stream whatever the table. *)
Theorem schema_error_on_reads_only (schemas : list (string * SchemaDef))
    (dbs : nat -> Store) (actions : list Action)
    (result : ApiResult + CUDApiResult) :
  let w := run actions (boot schemas dbs) in
  match result with
  | inl read =>
      if existsb (String.eqb (tableName read)) (map fst schemas)
      then exists token w',
             lift (inl read) w = inr (Token token, w')
             /\ trace w' = trace w /\ stores w' = stores w
      else lift (inl read) w
           = inl (TypeError ("table: " +:+ tableName read +:+ " is not defined"))
  | inr write =>
      lift (inr write) w = inr (Written (handleCUDAResult (net w) write), w)
  end.
Proof.
  intros w. destruct result as [read|write]; [|reflexivity].
  pose proof (Net_new_fields schemas (tableName read)) as D.
  destruct (run_stays_attached actions (boot schemas dbs)) as (F & _).
  fold w in F. cbn [boot net] in F. rewrite <- F in D.
  pose proof (getInfoFromResult_declared (net w) read) as G.
  destruct (existsb (String.eqb (tableName read)) (map fst schemas)).
  - destruct (proj2 D eq_refl) as [fs Hfs]. rewrite Hfs in G.
    destruct G as [q G].
    unfold lift, handleApiResult, bufferResponse, handleRequestCache.
    rewrite G. destruct (database (net w)) as [d|] eqn:Db.
    + destruct (cacheValidate read); [destruct (negb _)|]; by eauto.
    + by eauto.
  - destruct (fields (net w) !! tableName read) as [fs|] eqn:Hfs.
    + assert (false = true) by (apply D; by eexists). discriminate.
    + unfold lift, handleApiResult, bufferResponse, handleRequestCache.
      rewrite G. by destruct (database (net w)).
Qed.

End Schemas.

Section SchemasExample.

Import Engine.

#[local] Existing Instance Reference.collaborators.

(** A write into a table without schema is not refused when it is issued,
    before or after a store is attached; subscribed, it goes to the
    network and to the store. *)
Lemma write_to_undeclared_table_is_not_refused :
  existsb (String.eqb "ghosts") (map fst Reference.schemas) = false
  /\ ~ (exists e, lift (inr Reference.write_ghost) Reference.start = inl e)
  /\ ~ (exists e, lift (inr Reference.write_ghost)
                    (step (Attach 0) Reference.start) = inl e)
  /\ trace (step (Write Reference.write_ghost) (step (Attach 0) Reference.start))
     = [Fetched 1; Upserted 0 "ghosts" Reference.rowA].
Proof.
  split; [reflexivity|].
  split; [intros [e H]; discriminate|].
  split; [intros [e H]; discriminate|].
  vm_compute. reflexivity.
Qed.

End SchemasExample.

(** ** Push messages *)

Section PushDispatch.

Import Engine.

Context {X : Collaborators}.

(** What the loop of [persist] schedules for a buffered push message. *)
Lemma push_dispatch (this : Net) (database : nat) (arg : string)
    (socketMessage : SocketMessage) (pkName : string) (type : JsVal) :
  materialize this database (SocketCUD arg socketMessage pkName type)
  = inr match push_call database arg socketMessage pkName type with
        | Some (ev, op) => Some (fun w => run_store op database (log ev w))
        | None => None
        end.
Proof.
  unfold push_call. simpl.
  destruct (_ || _).
  - unfold id_or_data. simpl. by destruct (String.eqb (sm_id socketMessage) "").
  - destruct (String.eqb _ "new"); [done|].
    destruct (String.eqb _ "change"); [|done].
    by destruct (handleSocketMessage _ _ _).
Qed.

(** C7, as the code has it. A push message in the buffer, and a store
    attached: for [destroy] and [remove] the store is asked to delete
    where the primary-key field equals the push id, or the payload when
    the push id is empty; for [new] to upsert the payload; for [change]
    the dirty-field handler merges when there is one for the record, and
    otherwise the store is asked to upsert the payload with the
    primary-key field set to the push id; for any other method nothing
    is asked. The call is made once; if the store refuses, the store is
    left as it was and nothing more happens: the error handler of the
    drain does not get as far as the logger. *)
Theorem push_is_materialized (w : World) (db : nat) (arg : string)
    (socketMessage : SocketMessage) (pkName : string) (type : JsVal) :
  let w' := step (Attach db)
              (with_buffer [SocketCUD arg socketMessage pkName type] w) in
  let id := sm_id socketMessage in
  let data := sm_data socketMessage in
  let method := sm_method socketMessage in
  let by_key :=
    VObj [("where", VObj [(pkName, if String.eqb id "" then data else VStr id)])] in
  let keyed := VObj (alist_set pkName (VStr id) (spread data)) in
  push_call db arg socketMessage pkName type
  = (if String.eqb method "destroy" || String.eqb method "remove"
     then Some (Deleted db arg by_key, db_delete arg by_key)
     else if String.eqb method "new"
     then Some (Upserted db arg data, db_upsert arg data)
     else if String.eqb method "change"
     then match handleSocketMessage id type data with
          | Some merge => Some (DirtyMerged db id type data, merge)
          | None => Some (Upserted db arg keyed, db_upsert arg keyed)
          end
     else None)
  /\ persistedDataBuffer (net w') = []
  /\ match push_call db arg socketMessage pkName type with
     | None => trace w' = trace w /\ stores w' = stores w
     | Some (ev, op) =>
         match op (stores w db) with
         | inr s => trace w' = (trace w ++ [ev])%list /\ stores w' db = s
         | inl e =>
             trace w' = (trace w ++ [ev])%list /\ stores w' = stores w
         end
     end.
Proof.
  intros w' id data method by_key keyed.
  split; [reflexivity|].
  subst w'. unfold step, persist.
  cbn [with_buffer set_net net database persistedDataBuffer fields requestMap
       primaryKeys].
  assert (S : forall this,
            schedule this db [SocketCUD arg socketMessage pkName type]
            = (match push_call db arg socketMessage pkName type with
               | Some (ev, op) => [fun w => run_store op db (log ev w)]
               | None => []
               end, None)).
  { intros this. rewrite schedule_cons, push_dispatch, schedule_nil.
    by destruct (push_call db arg socketMessage pkName type) as [[ev op]|]. }
  destruct (database (net w)); rewrite S;
    (destruct (push_call db arg socketMessage pkName type) as [[ev op]|];
     [|by repeat split]);
    unfold tapError, concatAll, run_store; cbn;
    (destruct (op (stores w db)) as [e|st]; cbn;
     [by repeat split|]);
    rewrite Nat.eqb_refl; by repeat split.
Qed.

End PushDispatch.

Section PushExamples.

Import Engine.

#[local] Existing Instance Reference.collaborators.

(** The message [{method: 'destroy', id: '42'}] for the table [tasks] with
    primary key [_id]: the drain deletes where [_id = '42'], and the task
    is gone. *)
Lemma destroy_42_deletes_by_id :
  let w := run [Push "tasks" Reference.destroy42 "_id" VNull; Attach 0]
             Reference.start42 in
  trace w = [Deleted 0 "tasks" (VObj [("where", VObj [("_id", VStr "42")])])]
  /\ stores w 0 = Reference.empty_store.
Proof. split; vm_compute; reflexivity. Qed.

(** A [destroy] whose push id is empty: the clause holds the payload, not
    the push id. *)
Lemma destroy_with_empty_id_matches_payload :
  let m := Reference.destroy_by_payload in
  let w := run [Push "tasks" m "_id" VNull; Attach 0] Reference.start42 in
  trace w = [Deleted 0 "tasks" (VObj [("where", VObj [("_id", VStr "42")])])]
  /\ trace w <> [Deleted 0 "tasks" (VObj [("where", VObj [("_id", VStr (sm_id m))])])].
Proof. split; [vm_compute; reflexivity|]. vm_compute. discriminate. Qed.

End PushExamples.

(** ** Reads with the [Request] strategy *)

Section ReuseRequest.

Import Engine.

Context {X : Collaborators}.


End ReuseRequest.

Section ReuseRequestWitness.

Import Engine.

#[local] Existing Instance Reference.collaborators.


End ReuseRequestWitness.

(** ** The drain *)

Section Drain.

Import Engine.

Context {X : Collaborators}.

Lemma trace_log (e : Event) (w : World) : trace (log e w) = (trace w ++ [e])%list.
Proof. reflexivity. Qed.

(** A network-first read that completes has asked the network, upserted
    the answer, marked the key if it was to, and asked the store. *)
Lemma fetch_then_get_completes (d : nat) (request : RequestStream)
    (t : string) (q : JsVal) (marking : option string) (w : World) :
  failure (fetch_then_get (Some d) request t q marking w) = None ->
  exists v,
    reply request = Emits v
    /\ emitted (fetch_then_get (Some d) request t q marking w)
       = [mkSelector (FromStore d t q) None]
    /\ trace (after (fetch_then_get (Some d) request t q marking w))
       = (trace w
          ++ [Fetched (r_id request); Upserted d t v]
          ++ match marking with
             | Some key => [Marked key]
             | None => []
             end
          ++ [Got d t q])%list.
Proof.
  unfold fetch_then_get, concatMap, tap, subscribe, on_database, upsert, run_store.
  destruct marking as [key|]; destruct (reply request) as [v|e]; simpl;
    try discriminate;
    (destruct (db_upsert t v (stores w d)) as [e|s]; simpl;
     [discriminate|]);
    intros _; exists v; rewrite <- ?app_assoc; simpl;
    rewrite ?Nat.eqb_refl; by repeat split.
Qed.

Ltac store_outcome :=
  match goal with
  | |- context [match ?op (stores ?w ?d) with inl _ => _ | inr _ => _ end] =>
      destruct (op (stores w d))
  end.

(** One scheduled operation that completes leaves its expected events. *)
Lemma materialize_completes (this : Net) (db d : nat) (v : BufferObject)
    (p : Observable unit) (w : World) :
  database this = Some d ->
  materialize this db v = inr (Some p) ->
  failure (p w) = None ->
  trace (after (p w)) = (trace w ++ drained_events this db v)%list.
Proof.
  intros Hd.
  destruct v as [tableName method value|arg socketMessage pkName type|result ch];
    simpl.
  - destruct method; intros [= <-]; unfold upsert, delete, run_store; simpl;
      store_outcome; simpl; by intros.
  - destruct (_ || _).
    { intros [= <-]. unfold delete, run_store. simpl.
      store_outcome; simpl; by intros. }
    destruct (String.eqb _ "new").
    { intros [= <-]. unfold upsert, run_store. simpl.
      store_outcome; simpl; by intros. }
    destruct (String.eqb _ "change"); [|discriminate].
    destruct (handleSocketMessage _ _ _) as [merge|]; intros [= <-].
    + unfold dirtyStream, run_store. simpl.
      store_outcome; simpl; by intros.
    + unfold upsert, run_store. simpl.
      store_outcome; simpl; by intros.
  - unfold handleRequestCache, selected_query.
    destruct (getInfoFromResult this result)
      as [e|[[[request q] cacheValidate] tableName]] eqn:G; [discriminate|].
    pose proof G as G'. unfold getInfoFromResult in G'.
    destruct (fields this !! Engine.tableName result); [|discriminate].
    injection G' as <- _ <- <-. rewrite Hd.
    destruct (Engine.cacheValidate result).
    + destruct (default false (requestMap this !! _)); simpl.
      * intros [= <-] _. simpl.
        destruct (reply (request result)); by rewrite <- app_assoc.
      * intros [= <-]. unfold mapTo, tap, QueryToken_map, mapEach. simpl.
        intros F.
        destruct (fetch_then_get_completes d (request result) (Engine.tableName result)
                    q (Some (genCacheKey (Engine.tableName result) q)) w F)
          as (v & -> & -> & T).
        simpl. rewrite T. by rewrite <- !app_assoc.
    + intros [= <-]. unfold mapTo, tap. simpl. intros F.
      destruct (fetch_then_get_completes d (request result) (Engine.tableName result)
                  q None w F) as (v & -> & -> & T).
      simpl. rewrite T. by rewrite <- !app_assoc.
Qed.

Lemma materialize_skips (this : Net) (db : nat) (v : BufferObject) :
  materialize this db v = inr None -> drained_events this db v = [].
Proof.
  destruct v as [tableName method value|arg socketMessage pkName type|result ch];
    simpl.
  - by destruct method.
  - destruct (_ || _); [discriminate|].
    destruct (String.eqb _ "new"); [discriminate|].
    destruct (String.eqb _ "change"); [|done].
    by destruct (handleSocketMessage _ _ _).
  - by destruct (handleRequestCache this result).
Qed.

(** A queue that completes has run every scheduled operation once, in the
    order of the buffer. *)
Lemma queue_completes (this : Net) (db d : nat) (buffer : list BufferObject)
    (w : World) :
  database this = Some d ->
  snd (schedule this db buffer) = None ->
  failure (concatAll (fst (schedule this db buffer)) w) = None ->
  trace (after (concatAll (fst (schedule this db buffer)) w))
  = (trace w ++ flat_map (drained_events this db) buffer)%list.
Proof.
  intros Hd. revert w.
  induction buffer as [|v buffer IH]; intros w.
  - simpl. by rewrite app_nil_r.
  - rewrite schedule_cons. cbn [flat_map].
    destruct (materialize this db v) as [e|[p|]] eqn:M; cbn [fst snd].
    + discriminate.
    + intros S. unfold concatAll. cbn [concat_each].
      destruct (failure (p w)) eqn:F; [by rewrite F|].
      cbn [failure after]. intros F'.
      fold (concatAll (fst (schedule this db buffer))) in *.
      rewrite (IH _ S F').
      rewrite (materialize_completes this db d v p w Hd M F).
      by rewrite <- app_assoc.
    + intros S F. rewrite (materialize_skips this db v M). simpl.
      by apply IH.
Qed.

(** A queue that has failed stays as it is when operations are added
    behind it: none of them is subscribed. *)
Lemma queue_fails (queue more : list (Observable unit)) (w : World) (e : Error) :
  failure (concatAll queue w) = Some e ->
  concatAll (queue ++ more) w = concatAll queue w.
Proof.
  unfold concatAll. revert w.
  induction queue as [|p queue IH]; intros w; cbn [concat_each app].
  - discriminate.
  - destruct (failure (p w)) eqn:F; [done|].
    cbn [failure]. intros F'. by rewrite (IH _ F').
Qed.

Lemma schedule_app (this : Net) (db : nat) (b1 b2 : list BufferObject) :
  snd (schedule this db (b1 ++ b2)) = None ->
  snd (schedule this db b1) = None
  /\ fst (schedule this db (b1 ++ b2))
     = (fst (schedule this db b1) ++ fst (schedule this db b2))%list.
Proof.
  induction b1 as [|v b1 IH]; [done|].
  cbn [app]. rewrite !schedule_cons.
  destruct (materialize this db v) as [e|[p|]]; cbn [fst snd].
  - discriminate.
  - intros S. destruct (IH S) as [S1 Q]. split; [exact S1|].
    by rewrite Q.
  - exact IH.
Qed.

End Drain.

Section Replay.

Import Engine.

Lemma Reference_delete_absent (t k : string) (s s' : Reference.Tables) :
  Reference.delete t (Reference.where_id k) s = inr s' ->
  exists tbl,
    alist_get t s' = Some tbl
    /\ Forall (fun r => member r "_id" <> VStr k) (Reference.rows tbl).
Proof.
  unfold Reference.delete. destruct (alist_get t s) as [tbl|]; [|discriminate].
  intros [= <-]. eexists. split; [apply alist_get_set_eq|].
  simpl. apply Forall_forall. intros r Hr.
  apply list_elem_of_In, filter_In in Hr. destruct Hr as [_ Hr].
  intros Heq. unfold Reference.matches in Hr. simpl in Hr.
  rewrite Heq in Hr. simpl in Hr. by rewrite String.eqb_refl in Hr.
Qed.

Lemma upsert_then_delete_is_absent (rows0 : list JsVal) (row : JsVal)
    (k : string) :
  let w := Reference.upsert_then_delete rows0 row k in
  trace w = [Fetched 1; Fetched 2; Upserted 0 "tasks" row;
             Deleted 0 "tasks" (Reference.where_id k)]
  /\ exists tbl,
       alist_get "tasks" (stores w 0) = Some tbl
       /\ Forall (fun r => member r "_id" <> VStr k) (Reference.rows tbl).
Proof.
  intros w. split; [vm_compute; reflexivity|].
  assert (S : exists s1,
             Reference.delete "tasks" (Reference.where_id k) s1
             = inr (stores w 0)).
  { exists (match Reference.upsert "tasks" row
                         [("tasks", Reference.mkTable "_id" rows0)] with
            | inr s => s
            | inl _ => []
            end).
    reflexivity. }
  destruct S as [s1 S]. by eapply Reference_delete_absent.
Qed.

Context {X : Collaborators}.

(** The engine as [persist] sees it once it has set [this.database]. *)
Lemma schedule_ignores_buffer (f : gmap string (list string)) (d : option nat)
    (r : gmap string bool) (p : gmap string string)
    (b b' : list BufferObject) (db : nat) (buffer : list BufferObject) :
  schedule (mkNet f d r p b) db buffer = schedule (mkNet f d r p b') db buffer.
Proof. reflexivity. Qed.

(** What [persist] returns, spelled out. *)
Lemma persist_returns (db : nat) (w w1 : World) (drain : Observable unit) :
  persist db w = (w1, inr drain) ->
  let this1 :=
    mkNet (fields (net w)) (Some (default db (database (net w))))
      (requestMap (net w)) (primaryKeys (net w)) [] in
  snd (schedule this1 db (persistedDataBuffer (net w))) = None
  /\ drain = tapError log_error
               (concatAll (fst (schedule this1 db (persistedDataBuffer (net w)))))
  /\ w1 = set_net this1 w.
Proof.
  unfold persist. destruct w as [[f d r p b] st su tr].
  destruct d as [d|]; cbn -[schedule];
    [rewrite (schedule_ignores_buffer f (Some d) r p b [] db b)
    |rewrite (schedule_ignores_buffer f (Some db) r p b [] db b)];
    (destruct (schedule _ db b) as [queue [e|]]; [discriminate|]);
    by intros [= <- <-].
Qed.

(** C5, as the code has it. When [persist] returns its stream, nothing has
    run yet and the buffer is empty. When that stream then completes, the
    trace has grown by the events of the buffered operations, each once,
    in the order in which they were buffered; a push whose method the
    engine does not know has none. In particular, on a store that deletes
    by [where] clause: an upsert of a row and a delete of the rows with
    its key, buffered in that order, leave no row with that key. *)
Theorem drain_replays_in_order (db : nat) (w w1 : World)
    (drain : Observable unit) :
  persist db w = (w1, inr drain) ->
  failure (drain w1) = None ->
  (persistedDataBuffer (net w1) = [] /\ trace w1 = trace w
   /\ stores w1 = stores w)
  /\ trace (after (drain w1))
     = (trace w
        ++ flat_map (drained_events (net w1) db) (persistedDataBuffer (net w)))%list
  /\ persistedDataBuffer (net (after (drain w1))) = []
  /\ forall rows0 row k,
       let w' := Reference.upsert_then_delete rows0 row k in
       trace w' = [Fetched 1; Fetched 2; Upserted 0 "tasks" row;
                   Deleted 0 "tasks" (Reference.where_id k)]
       /\ exists tbl,
            alist_get "tasks" (stores w' 0) = Some tbl
            /\ Forall (fun r => member r "_id" <> VStr k) (Reference.rows tbl).
Proof.
  intros P F.
  pose proof (persist_clears db w) as C. rewrite P in C. cbn [fst snd] in C.
  destruct C as (B & Q & T & S).
  destruct (persist_returns db w w1 drain P) as (Sch & -> & ->).
  split; [by repeat split|].
  split.
  - unfold tapError in *.
    destruct (failure (concatAll _ _)) eqn:F'; [discriminate|].
    by rewrite (queue_completes
                  (mkNet (fields (net w)) (Some (default db (database (net w))))
                     (requestMap (net w)) (primaryKeys (net w)) [])
                  db (default db (database (net w))) _ _ eq_refl Sch F').
  - split; [|apply upsert_then_delete_is_absent].
    rewrite (Q _). exact B.
Qed.

End Replay.

Section ReplayExamples.

Import Engine.

#[local] Existing Instance Reference.collaborators.

Lemma drain_replays_in_order_witness :
  persist 0 Reference.buffered
  = (persisted 0 Reference.buffered, inr (drain_of 0 Reference.buffered))
  /\ failure (drain_of 0 Reference.buffered (persisted 0 Reference.buffered))
     = None
  /\ trace (after (drain_of 0 Reference.buffered (persisted 0 Reference.buffered)))
     = [Fetched 6;
        Upserted 0 "tasks" Reference.rowA;
        Deleted 0 "tasks" (Reference.where_id "42");
        Fetched 3;
        Upserted 0 "tasks" (VArr [Reference.rowA]);
        Marked (genCacheKey "tasks"
                  (selected_query (net Reference.buffered)
                     (Reference.read_tasks Request)));
        Got 0 "tasks"
          (selected_query (net Reference.buffered) (Reference.read_tasks Request));
        Forwarded 0].
Proof.
  assert (H1 : persist 0 Reference.buffered
               = (persisted 0 Reference.buffered,
                  inr (drain_of 0 Reference.buffered)))
    by reflexivity.
  assert (H2 : failure (drain_of 0 Reference.buffered
                          (persisted 0 Reference.buffered)) = None)
    by (vm_compute; reflexivity).
  split; [exact H1|]. split; [exact H2|].
  rewrite (proj1 (proj2 (drain_replays_in_order 0 _ _ _ H1 H2))).
  vm_compute. reflexivity.
Defined.

(** A push with a method the engine does not know is buffered and, at the
    drain, dropped: the buffer is cleared and nothing has reached the
    store. *)
Lemma unknown_push_is_dropped :
  let w := bufferSocketPush "tasks" Reference.refresh42 "_id" VNull
             Reference.start42 in
  persistedDataBuffer (net w)
  = [SocketCUD "tasks" Reference.refresh42 "_id" VNull]
  /\ persistedDataBuffer (net (step (Attach 0) w)) = []
  /\ trace (step (Attach 0) w) = []
  /\ stores (step (Attach 0) w) 0 = Reference.store42.
Proof. repeat split; vm_compute; reflexivity. Qed.

End ReplayExamples.

(** ** Errors during the drain *)

Section DrainErrors.

Import Engine.

Context {X : Collaborators}.

(** The error handler at the end of [persist] adds nothing to what the
    queue has done: it does not get as far as the logger. *)
Lemma handler_adds_nothing (queue : list (Observable unit)) (w : World) :
  tapError log_error (concatAll queue) w = concatAll queue w.
Proof.
  unfold tapError.
  destruct (concatAll queue w) as [em [e|] a]; reflexivity.
Qed.

(** The drain of a buffer that fails is the drain of that buffer with any
    further operations behind it. *)
Lemma drain_ignores_what_follows_an_error (db : nat) (w : World)
    (b1 b2 : list BufferObject) (w1 w12 : World)
    (d1 d12 : Observable unit) (e : Error) :
  persist db (with_buffer b1 w) = (w1, inr d1) ->
  persist db (with_buffer (b1 ++ b2) w) = (w12, inr d12) ->
  failure (d1 w1) = Some e ->
  d12 w12 = d1 w1 /\ failure (d12 w12) = Some e.
Proof.
  intros P1 P12 F.
  destruct (persist_returns _ _ _ _ P1) as (S1 & -> & ->).
  destruct (persist_returns _ _ _ _ P12) as (S12 & -> & ->).
  cbn [with_buffer set_net net fields database requestMap primaryKeys
       persistedDataBuffer stores subjects trace] in *.
  set (this := mkNet (fields (net w))
                 (Some (default db (database (net w))))
                 (requestMap (net w)) (primaryKeys (net w)) []) in *.
  destruct (schedule_app this db b1 b2 S12) as [_ Q]. rewrite Q.
  set (w1 := mkWorld this (stores w) (subjects w) (trace w)).
  change (set_net this (with_buffer b1 w)) with w1 in *.
  change (set_net this (with_buffer (b1 ++ b2) w)) with w1 in *.
  unfold tapError in *.
  destruct (failure (concatAll (fst (schedule this db b1)) w1)) as [e'|] eqn:F1;
    [|cbv beta iota in F; congruence].
  cbn [failure] in F. injection F as ->.
  rewrite (queue_fails _ (fst (schedule this db b2)) w1 e F1), F1.
  by split.
Qed.

Lemma extends_refl (w : World) : extends w w.
Proof. exists []. by rewrite app_nil_r. Qed.

Lemma extends_trans (w1 w2 w3 : World) :
  extends w1 w2 -> extends w2 w3 -> extends w1 w3.
Proof.
  intros [t1 H1] [t2 H2]. exists (t1 ++ t2)%list.
  by rewrite H2, H1, app_assoc.
Qed.

Lemma queue_extends (this : Net) (db : nat) (buffer : list BufferObject) :
  respects extends (concatAll (fst (schedule this db buffer))).
Proof.
  apply (concatAll_respects extends extends_refl extends_trans).
  apply schedule_respects.
  - exact extends_refl.
  - exact extends_trans.
  - intros e w. by exists [e].
  - intros d s w. exists []. simpl. by rewrite app_nil_r.
  - intros k w. by exists [Marked k].
  - intros ch s w. by exists [Forwarded ch].
Qed.

(** A queue that has completed, with another one behind it. *)
Lemma queue_goes_on (queue more : list (Observable unit)) (w : World) :
  failure (concatAll queue w) = None ->
  failure (concatAll (queue ++ more) w)
  = failure (concatAll more (after (concatAll queue w)))
  /\ after (concatAll (queue ++ more) w)
     = after (concatAll more (after (concatAll queue w))).
Proof.
  unfold concatAll. revert w.
  induction queue as [|p queue IH]; intros w; cbn [concat_each app].
  - by intros _.
  - destruct (failure (p w)) eqn:F; [by rewrite F|].
    cbn [failure after]. intros F'. by apply IH.
Qed.

(** C2. What the drain does with an error, against what is said of it.
    The stream [persist] returns ends with the first error of the queue,
    and the error is not logged. With [v] the first buffered operation
    that fails, [pre] the operations in front of it and [post] those
    behind it: the operations of [pre] have been run, each once and in
    order; the drain fails with the error of [v]; nothing of [post] is
    run, the outcome being that of the drain without [post]; and the
    handler at the end adds nothing to the trace, the outcome being that
    of the queue alone. *)
Theorem drain_stops_at_first_error (db : nat) (w : World)
    (pre post : list BufferObject) (v : BufferObject)
    (w0 wv w1 : World) (d0 dv d : Observable unit) (e : Error) :
  persist db (with_buffer pre w) = (w0, inr d0) ->
  failure (d0 w0) = None ->
  persist db (with_buffer (pre ++ [v]) w) = (wv, inr dv) ->
  failure (dv wv) = Some e ->
  persist db (with_buffer (pre ++ v :: post) w) = (w1, inr d) ->
  d w1 = dv wv
  /\ failure (d w1) = Some e
  /\ d w1 = concatAll (fst (schedule (net w1) db (pre ++ [v]))) w1
  /\ exists t,
       trace (after (d w1))
       = (trace w ++ flat_map (drained_events (net w1) db) pre ++ t)%list.
Proof.
  intros P0 F0 Pv Fv P.
  assert (P' : persist db (with_buffer ((pre ++ [v]) ++ post) w) = (w1, inr d))
    by (by rewrite <- app_assoc).
  destruct (drain_ignores_what_follows_an_error db w (pre ++ [v]) post
              wv w1 dv d e Pv P' Fv) as (E & F).
  split; [exact E|]. split; [exact F|].
  rewrite E.
  destruct (persist_returns _ _ _ _ P0) as (S0 & -> & ->).
  destruct (persist_returns _ _ _ _ Pv) as (Sv & -> & ->).
  destruct (persist_returns _ _ _ _ P) as (_ & _ & ->).
  cbn [with_buffer set_net net fields database requestMap primaryKeys
       persistedDataBuffer stores subjects trace] in *.
  set (this := mkNet (fields (net w))
                 (Some (default db (database (net w))))
                 (requestMap (net w)) (primaryKeys (net w)) []) in *.
  set (W := mkWorld this (stores w) (subjects w) (trace w)).
  change (set_net this (with_buffer pre w)) with W in *.
  change (set_net this (with_buffer (pre ++ [v]) w)) with W in *.
  split; [apply handler_adds_nothing|].
  destruct (schedule_app this db pre [v] Sv) as [_ Q]. rewrite Q in *.
  unfold tapError in *.
  destruct (failure (concatAll (fst (schedule this db pre)) W)) eqn:F0';
    [discriminate|].
  destruct (queue_goes_on (fst (schedule this db pre))
              (fst (schedule this db [v])) W F0') as [G1 G2].
  pose proof (queue_completes this db (default db (database (net w))) pre W
                eq_refl S0 F0') as T.
  destruct (queue_extends this db [v]
              (after (concatAll (fst (schedule this db pre)) W))) as [t Ht].
  destruct (failure
              (concatAll (fst (schedule this db pre) ++ fst (schedule this db [v]))
                 W)) as [e'|] eqn:F1;
    [|cbv beta iota in Fv; congruence].
  cbn [failure] in Fv. injection Fv as ->.
  exists t. cbn [after]. unfold log_error, await_toPromise. cbv beta iota.
  rewrite G2, Ht, T.
  cbn [trace W]. by rewrite <- !app_assoc.
Qed.

End DrainErrors.

Section DrainErrorsExamples.

Import Engine.

#[local] Existing Instance Reference.collaborators.

Lemma drain_stops_at_first_error_witness :
  let w0 := with_buffer Reference.task_write Reference.start in
  let wv := with_buffer (Reference.task_write ++ Reference.ghost_write)%list
              Reference.start in
  let w1 := with_buffer (Reference.task_write
                         ++ Reference.ghost_write ++ Reference.task_write)%list
              Reference.start in
  persist 0 w0 = (persisted 0 w0, inr (drain_of 0 w0))
  /\ failure (drain_of 0 w0 (persisted 0 w0)) = None
  /\ persist 0 wv = (persisted 0 wv, inr (drain_of 0 wv))
  /\ failure (drain_of 0 wv (persisted 0 wv))
     = Some (Reference.no_such_table "ghosts")
  /\ persist 0 w1 = (persisted 0 w1, inr (drain_of 0 w1))
  /\ failure (drain_of 0 w1 (persisted 0 w1))
     = Some (Reference.no_such_table "ghosts")
  /\ trace (after (drain_of 0 w1 (persisted 0 w1)))
     = [Upserted 0 "tasks" Reference.rowA; Upserted 0 "ghosts" Reference.rowA].
Proof.
  intros w0 wv w1.
  assert (H0 : persist 0 w0 = (persisted 0 w0, inr (drain_of 0 w0)))
    by reflexivity.
  assert (F0 : failure (drain_of 0 w0 (persisted 0 w0)) = None)
    by (vm_compute; reflexivity).
  assert (Hv : persist 0 wv = (persisted 0 wv, inr (drain_of 0 wv)))
    by reflexivity.
  assert (Fv : failure (drain_of 0 wv (persisted 0 wv))
               = Some (Reference.no_such_table "ghosts"))
    by (vm_compute; reflexivity).
  assert (H1 : persist 0 w1 = (persisted 0 w1, inr (drain_of 0 w1)))
    by reflexivity.
  split; [exact H0|]. split; [exact F0|]. split; [exact Hv|].
  split; [exact Fv|]. split; [exact H1|].
  split.
  - exact (proj1 (proj2
             (drain_stops_at_first_error 0 Reference.start
                Reference.task_write Reference.task_write
                (CUD "ghosts" MUpsert Reference.rowA)
                _ _ _ _ _ _ _ H0 F0 Hv Fv H1))).
  - vm_compute. reflexivity.
Defined.

(** The drain does not go on after an error, and logs nothing. A pending
    read whose request fails, buffered in front of a write of [rowA]: the
    write never reaches the store. In front of another pending read: the
    request of that read is never made. And a write that the store
    refuses, in front of a write it would accept: the second write never
    reaches the store. *)
Lemma operations_after_an_error_are_not_run :
  let w := step (Attach 0) Reference.failing_read_then_write in
  let w' := step (Attach 0) Reference.failing_read_then_read in
  let w'' := step (Attach 0)
               (with_buffer (Reference.ghost_write ++ Reference.task_write)%list
                  Reference.start) in
  persistedDataBuffer (net Reference.failing_read_then_write)
  = [Selector Reference.failing_read 0; CUD "tasks" MUpsert Reference.rowA]
  /\ trace w = [Fetched 6; Fetched 5]
  /\ stores w 0 = Reference.empty_store
  /\ persistedDataBuffer (net Reference.failing_read_then_read)
     = [Selector Reference.failing_read 0;
        Selector (Reference.read_tasks Cache) 1]
  /\ trace w' = [Fetched 5]
  /\ stores w' 0 = Reference.empty_store
  /\ trace w'' = [Upserted 0 "ghosts" Reference.rowA]
  /\ stores w'' 0 = Reference.empty_store.
Proof. repeat split; vm_compute; reflexivity. Qed.

End DrainErrorsExamples.

(** ** Field completion *)

Section Padding.

Import Engine.

Context {X : Collaborators}.

Lemma ask_paddings_spec (setup : option ((JsVal -> Reply) * string * list string))
    (data : list JsVal) (w : World) :
  ask_paddings setup data w
  = (map (fun datum => (datum, patch_of setup datum)) data,
     mkWorld (net w) (stores w) (subjects w)
       (trace w ++ flat_map (padding_call setup) data)%list).
Proof.
  revert w. induction data as [|datum data IH]; intros w.
  - simpl. rewrite app_nil_r. by destruct w.
  - cbn [ask_paddings map flat_map].
    assert (A : ask_padding setup datum w
                = (patch_of setup datum,
                   mkWorld (net w) (stores w) (subjects w)
                     (trace w ++ padding_call setup datum)%list)).
    { unfold ask_padding, patch_of, padding_call.
      destruct setup as [[[pad pk] req]|].
      - destruct (complete req datum); [|reflexivity].
        rewrite app_nil_r. by destruct w.
      - rewrite app_nil_r. by destruct w. }
    rewrite A, IH. cbn [net stores subjects trace].
    by rewrite <- app_assoc.
Qed.

(** When every padding stream has ended without error: each record is as
    padding leaves it, and the store has been asked to upsert each
    replacement that is not empty, in the order of the records. *)
Lemma settle_paddings_spec (setup : option ((JsVal -> Reply) * string * list string))
    (t : string) (d : nat) (data : list JsVal) (w : World) :
  database (net w) = Some d ->
  let s := settle_paddings t
             (map (fun datum => (datum, patch_of setup datum)) data) w in
  first_error s = None ->
  records s = map (padded setup) data
  /\ count s = length (List.filter (answers setup) data)
  /\ trace (settled_in s)
     = (trace w ++ flat_map (padding_upsert setup d t) data)%list.
Proof.
  revert w. induction data as [|datum data IH]; intros w Hd.
  - simpl. by rewrite app_nil_r.
  - cbn [map settle_paddings flat_map List.filter].
    unfold padded at 1, answers at 1, padding_upsert at 1.
    destruct (patch_of setup datum) as [[r|e]|]; cbn zeta.
    + destruct (not_nullish r) eqn:N.
      * rewrite Hd. unfold on_database, upsert, run_store.
        cbn [stores log net trace].
        destruct (db_upsert t r (stores w d)) as [e|st]; cbn; [discriminate|].
        intros F.
        destruct (IH (set_store d st (log (Upserted d t r) w)) Hd F)
          as (R & C & T).
        rewrite R, C, T. cbn. rewrite <- app_assoc. by repeat split.
      * cbn. intros F. destruct (IH w Hd F) as (R & C & T).
        by rewrite R, C, T.
    + cbn. discriminate.
    + cbn. intros F. destruct (IH w Hd F) as (R & C & T).
      by rewrite R, C, T.
Qed.

(** The operator on the rows of a read: what it leaves in the trace and
    what it hands on. *)
Lemma validate_spec (result : ApiResult) (d : nat) (data : list JsVal)
    (w : World) :
  database (net w) = Some d ->
  failure (validate result data w) = None ->
  let setup := padding_setup (net w) result in
  trace (after (validate result data w))
  = (trace w ++ flat_map (padding_call setup) data
     ++ flat_map (padding_upsert setup d (tableName result)) data)%list
  /\ emitted (validate result data w)
     = match data with
       | [] => [[]]
       | _ => if existsb (answers setup) data
              then [map (padded setup) data]
              else []
       end.
Proof.
  intros Hd. unfold validate.
  destruct data as [|datum data]; [intros _; simpl; by rewrite app_nil_r|].
  rewrite ask_paddings_spec. cbv zeta.
  set (setup := padding_setup (net w) result).
  set (w1 := mkWorld (net w) (stores w) (subjects w)
               (trace w ++ flat_map (padding_call setup) (datum :: data))%list).
  pose proof (settle_paddings_spec setup (tableName result) d (datum :: data)
                w1 Hd) as S.
  cbv zeta in S.
  destruct (first_error _) as [e|] eqn:E; [discriminate|].
  intros _. destruct (S eq_refl) as (R & C & T).
  assert (Ex : existsb (answers setup) (datum :: data)
               = negb (Nat.eqb (length (List.filter (answers setup) (datum :: data))) 0)).
  { generalize (datum :: data). intros l.
    induction l as [|x l IHl]; [reflexivity|]. simpl.
    destruct (answers setup x); simpl; [reflexivity|exact IHl]. }
  rewrite Ex, <- C.
  destruct (count _) eqn:Cn; cbn [emitted after]; rewrite T;
    subst w1; cbn [trace]; rewrite <- ?app_assoc; split; try reflexivity.
  by rewrite R.
Qed.

End Padding.

Section PaddingOnReads.

Import Engine.

Context {X : Collaborators}.

Lemma concat_each_emits {A B : Type} (P : B -> Prop)
    (project : A -> Observable B) (vs : list A) (w : World) :
  (forall v w, Forall P (emitted (project v w))) ->
  Forall P (emitted (concat_each project vs w)).
Proof.
  intros Hp. revert w. induction vs as [|v vs IH]; intros w; simpl;
    [constructor|].
  destruct (failure (project v w)); [apply Hp|].
  simpl. apply Forall_app. split; [apply Hp|apply IH].
Qed.

Lemma concatMap_emits {A B : Type} (P : B -> Prop)
    (project : A -> Observable B) (src : Observable A) (w : World) :
  (forall v w, Forall P (emitted (project v w))) ->
  Forall P (emitted (concatMap project src w)).
Proof.
  intros Hp. unfold concatMap.
  pose proof (concat_each_emits P project (emitted (src w)) (after (src w)) Hp).
  by destruct (failure (concat_each project (emitted (src w)) (after (src w)))).
Qed.

(** The selectors of a network-first read are plain selectors of the
    store. *)
Lemma fetch_then_get_emits (database : option nat) (request : RequestStream)
    (t : string) (q : JsVal) (marking : option string) (w : World) :
  Forall (fun s => mapFn s = None)
    (emitted (fetch_then_get database request t q marking w)).
Proof.
  unfold fetch_then_get. apply concatMap_emits. intros _ w'.
  destruct database; simpl; repeat constructor.
Qed.

Lemma QueryToken_map_emits (fn : ApiResult) (token : QueryToken) (w : World) :
  Forall (fun s => mapFn s = Some fn)
    (emitted (selector_ (QueryToken_map fn token) w)).
Proof.
  simpl. apply Forall_forall. intros s Hs.
  apply list_elem_of_In, in_map_iff in Hs. by destruct Hs as [s0 [<- _]].
Qed.

(** Where the operator [validate(result)] is attached, and what it does.
    It is attached to the selectors of a read that is buffered, and to
    those of a read resolved against the attached store with the strategy
    [Request]; it is not attached with the strategy [Cache]. The rows of
    a selector with the operator are the rows of its source passed
    through it. Where it runs and ends without error, with a store
    attached: an empty result is handed on
    with no padding work; otherwise the padding function is called, with
    its primary key, for each record that lacks a required field; each
    replacement that is not empty is upserted and merged into its
    record; a record with an empty replacement stays as it is. *)
Theorem padding_on_reads (result : ApiResult) (w : World) (d : nat)
    (data : list JsVal) :
  database (net w) = Some d ->
  is_Some (fields (net w) !! tableName result) ->
  failure (validate result data w) = None ->
  let setup := padding_setup (net w) result in
  (exists token,
     handleRequestCache (net w) result = inr token
     /\ forall w',
          Forall (fun s => mapFn s = match cacheValidate result with
                                     | Request => Some result
                                     | Cache => None
                                     end)
            (emitted (selector_ token w')))
  /\ (exists token w1,
        bufferResponse result w = inr (token, w1)
        /\ forall w',
             Forall (fun s => mapFn s = Some result)
               (emitted (selector_ token w')))
  /\ (forall src,
        values (mkSelector src (Some result))
        = concatMap (validate result) (values (mkSelector src None)))
  /\ validate result [] w = mkOutcome [[]] None w
  /\ trace (after (validate result data w))
     = (trace w ++ flat_map (padding_call setup) data
        ++ flat_map (padding_upsert setup d (tableName result)) data)%list
  /\ emitted (validate result data w)
     = match data with
       | [] => [[]]
       | _ => if existsb (answers setup) data
              then [map (padded setup) data]
              else []
       end.
Proof.
  intros Hd [fs Hf] F setup.
  pose proof (getInfoFromResult_declared (net w) result) as G.
  rewrite Hf in G. destruct G as [q G].
  split.
  { unfold handleRequestCache. rewrite G, Hd.
    destruct (cacheValidate result).
    - destruct (negb _); eexists; (split; [reflexivity|]);
        intros w'; apply QueryToken_map_emits.
    - eexists. split; [reflexivity|]. intros w'. apply fetch_then_get_emits. }
  split.
  { unfold bufferResponse. rewrite G. do 2 eexists.
    split; [reflexivity|]. intros w'. apply QueryToken_map_emits. }
  split; [reflexivity|].
  split; [reflexivity|].
  by apply validate_spec.
Qed.

End PaddingOnReads.

Section PaddingExamples.

Import Engine.

#[local] Existing Instance Reference.collaborators.

Lemma padding_on_reads_witness :
  database (net Reference.attached) = Some 0
  /\ is_Some (fields (net Reference.attached)
               !! tableName (Reference.read_tasks Request))
  /\ failure (validate (Reference.read_tasks Request) [Reference.rowA]
               Reference.attached) = None
  /\ trace (after (validate (Reference.read_tasks Request) [Reference.rowA]
                     Reference.attached))
     = [Padded (VStr "A");
        Upserted 0 "tasks" (VObj [("_id", VStr "A"); ("note", VStr "n")])]
  /\ emitted (validate (Reference.read_tasks Request) [Reference.rowA]
                Reference.attached)
     = [[VObj [("_id", VStr "A"); ("content", VStr "hello"); ("note", VStr "n")]]].
Proof.
  assert (H1 : database (net Reference.attached) = Some 0) by reflexivity.
  assert (H2 : is_Some (fields (net Reference.attached)
                          !! tableName (Reference.read_tasks Request)))
    by (eexists; vm_compute; reflexivity).
  assert (H3 : failure (validate (Reference.read_tasks Request) [Reference.rowA]
                          Reference.attached) = None)
    by (vm_compute; reflexivity).
  split; [exact H1|]. split; [exact H2|]. split; [exact H3|].
  destruct (padding_on_reads (Reference.read_tasks Request) Reference.attached 0
              [Reference.rowA] H1 H2 H3) as (_ & _ & _ & _ & T & E).
  split; [rewrite T|rewrite E]; vm_compute; reflexivity.
Defined.

(** C1. Padding is not applied under both strategies. A read with the
    strategy [Cache], resolved against the attached store: the record it
    returns lacks the required field [note], a padding function and a
    primary key are there, and the padding function is not called: the
    token of the [Cache] arm of [handleRequestCache] is built without
    [validate(result)]. The same read with the strategy [Request]
    returns the record completed: its token has the operator, and so has
    the token of the [Cache] read when it is buffered before the store
    is attached. *)
Theorem cache_strategy_read_is_not_padded :
  let cache := Reference.read_tasks Cache in
  let reuse := Reference.read_tasks Request in
  let w := Reference.attached in
  is_Some (padding_setup (net w) cache)
  /\ complete ["content"; "note"] Reference.rowA = false
  /\ read_rows cache w = [[Reference.rowA]]
  /\ trace (step (Read cache) w)
     = [Fetched 3;
        Upserted 0 "tasks" (VArr [Reference.rowA]);
        Got 0 "tasks" (selected_query (net w) cache);
        RowsRead 0 "tasks" (selected_query (net w) cache)]
  /\ read_rows reuse w
     = [[VObj [("_id", VStr "A"); ("content", VStr "hello"); ("note", VStr "n")]]]
  /\ (exists token,
        handleRequestCache (net w) cache = inr token
        /\ Forall (fun s => mapFn s = None) (emitted (selector_ token w)))
  /\ (exists token,
        handleRequestCache (net w) reuse = inr token
        /\ Forall (fun s => mapFn s = Some reuse) (emitted (selector_ token w)))
  /\ (exists token w1,
        bufferResponse cache Reference.start = inr (token, w1)
        /\ Forall (fun s => mapFn s = Some cache) (emitted (selector_ token w1))).
Proof.
  intros cache reuse w. subst cache reuse.
  split; [eexists; vm_compute; reflexivity|].
  do 4 (split; [vm_compute; reflexivity|]).
  assert (G : forall s,
            getInfoFromResult (net w) (Reference.read_tasks s)
            = inr (request (Reference.read_tasks s),
                   selected_query (net w) (Reference.read_tasks s), s, "tasks"))
    by (intros s; vm_compute; reflexivity).
  assert (G' : forall s,
            getInfoFromResult (net Reference.start) (Reference.read_tasks s)
            = inr (request (Reference.read_tasks s),
                   selected_query (net w) (Reference.read_tasks s), s, "tasks"))
    by (intros s; vm_compute; reflexivity).
  split; [|split].
  - unfold handleRequestCache. rewrite G. eexists. split; [reflexivity|].
    apply fetch_then_get_emits.
  - unfold handleRequestCache. rewrite G.
    destruct (negb _); eexists; (split; [reflexivity|]);
      apply QueryToken_map_emits.
  - unfold bufferResponse. rewrite G'. do 2 eexists. split; [reflexivity|].
    apply QueryToken_map_emits.
Qed.

End PaddingExamples.

(** * More of the request layer *)

(** ** Strings and property lists *)

Section Strings.

Lemma append_cons (c : ascii) (s t : string) :
  String c s +:+ t = String c (s +:+ t).
Proof. reflexivity. Qed.

Lemma append_empty_r (s : string) : s +:+ "" = s.
Proof.
  induction s as [|c s IH]; [reflexivity|]. by rewrite append_cons, IH.
Qed.

Lemma append_assoc (a b c : string) : (a +:+ b) +:+ c = a +:+ (b +:+ c).
Proof.
  induction a as [|x a IH]; [reflexivity|]. by rewrite !append_cons, IH.
Qed.

Lemma includes_char_app (c : ascii) (a b : string) :
  includes_char c (a +:+ b) = includes_char c a || includes_char c b.
Proof.
  induction a as [|x a IH]; [reflexivity|].
  rewrite append_cons. simpl.
  destruct (Ascii.eqb c x); [reflexivity|exact IH].
Qed.

Lemma concat_app (sep : string) (l1 l2 : list string) :
  l1 <> [] -> l2 <> [] ->
  String.concat sep (l1 ++ l2)
  = String.concat sep l1 +:+ sep +:+ String.concat sep l2.
Proof.
  intros H1 H2. induction l1 as [|x l1 IH]; [done|].
  destruct l1 as [|y l1].
  - simpl. destruct l2; [done|reflexivity].
  - change (String.concat sep ((x :: y :: l1) ++ l2))
      with (x +:+ sep +:+ String.concat sep ((y :: l1) ++ l2)).
    rewrite IH by done.
    change (String.concat sep (x :: y :: l1))
      with (x +:+ sep +:+ String.concat sep (y :: l1)).
    by rewrite !append_assoc.
Qed.

End Strings.

Section Bindings.

Import Fetch.

Context {V : Type}.

Implicit Types (o t s a b : list (string * V)) (k : string).

Lemma alist_get_set k k' (v : V) o :
  alist_get k (alist_set k' v o)
  = if String.eqb k k' then Some v else alist_get k o.
Proof.
  destruct (String.eqb k k') eqn:E.
  - apply String.eqb_eq in E. subst k'. apply alist_get_set_eq.
  - by apply alist_get_set_ne.
Qed.

Lemma alist_get_app k a b :
  alist_get k (a ++ b)%list
  = match alist_get k a with
    | Some v => Some v
    | None => alist_get k b
    end.
Proof.
  induction a as [|[k1 v1] a IH]; simpl; [reflexivity|].
  destruct (String.eqb k k1); [reflexivity|exact IH].
Qed.

Lemma last_binding_app k a b :
  last_binding k (a ++ b)%list
  = match last_binding k b with
    | Some v => Some v
    | None => last_binding k a
    end.
Proof. unfold last_binding. by rewrite rev_app_distr, alist_get_app. Qed.

Lemma last_binding_cons k k1 (v1 : V) o :
  last_binding k ((k1, v1) :: o)
  = match last_binding k o with
    | Some v => Some v
    | None => if String.eqb k k1 then Some v1 else None
    end.
Proof. exact (last_binding_app k [(k1, v1)] o). Qed.

(** [Object.assign] and the spread, looked up by name: the last binding
    of the source wins, and the target shows through where the source
    has none. *)
Lemma alist_get_assign k t s :
  alist_get k (alist_assign t s)
  = match last_binding k s with
    | Some v => Some v
    | None => alist_get k t
    end.
Proof.
  unfold alist_assign. revert t.
  induction s as [|[k1 v1] s IH]; intros t; [reflexivity|].
  cbn [fold_left fst snd]. rewrite IH, last_binding_cons, alist_get_set.
  destruct (last_binding k s); [reflexivity|].
  by destruct (String.eqb k k1).
Qed.

Lemma alist_get_absent k o :
  k ∉ map fst o -> alist_get k o = None.
Proof.
  induction o as [|[k1 v1] o IH]; intros H; simpl; [reflexivity|].
  destruct (String.eqb k k1) eqn:E.
  - apply String.eqb_eq in E. subst k1. exfalso. apply H. simpl. left.
  - apply IH. intros Hin. apply H. simpl. by right.
Qed.

Lemma last_binding_absent k o :
  alist_get k o = None -> last_binding k o = None.
Proof.
  induction o as [|[k1 v1] o IH]; [done|].
  simpl. rewrite last_binding_cons.
  destruct (String.eqb k k1); [done|]. intros H. by rewrite IH.
Qed.

(** Where every name is bound once, as in an object, the last binding
    is the only one. *)
Lemma last_binding_unique k o :
  NoDup (map fst o) -> last_binding k o = alist_get k o.
Proof.
  induction o as [|[k1 v1] o IH]; intros H; [reflexivity|].
  simpl in H. apply NoDup_cons in H as [H1 H2].
  rewrite last_binding_cons, IH by done. simpl.
  destruct (String.eqb k k1) eqn:E.
  - apply String.eqb_eq in E. subst k1. by rewrite alist_get_absent.
  - by destruct (alist_get k o).
Qed.

Lemma alist_set_keys k (v : V) o :
  NoDup (map fst o) -> NoDup (map fst (alist_set k v o)).
Proof.
  induction o as [|[k1 v1] o IH]; intros H; simpl.
  - apply NoDup_singleton.
  - simpl in H. apply NoDup_cons in H as [H1 H2].
    destruct (String.eqb k k1) eqn:E.
    + apply String.eqb_eq in E. subst k1. simpl. by apply NoDup_cons.
    + simpl. apply NoDup_cons. split; [|by apply IH].
      intros Hin. apply H1. clear -Hin E.
      induction o as [|[k2 v2] o IH]; simpl in *.
      * apply list_elem_of_singleton in Hin. subst k1.
        by rewrite String.eqb_refl in E.
      * destruct (String.eqb k k2) eqn:E2.
        -- apply String.eqb_eq in E2. subst k2. exact Hin.
        -- simpl in Hin. apply elem_of_cons in Hin as [->|Hin]; [left|].
           right. by apply IH.
Qed.

Lemma alist_assign_keys t s :
  NoDup (map fst t) -> NoDup (map fst (alist_assign t s)).
Proof.
  unfold alist_assign. revert t.
  induction s as [|[k1 v1] s IH]; intros t H; [exact H|].
  cbn [fold_left fst snd]. by apply IH, alist_set_keys.
Qed.

Lemma last_binding_remove k k' o :
  last_binding k (alist_remove k' o)
  = if String.eqb k' k then None else last_binding k o.
Proof.
  induction o as [|[k1 v1] o IH].
  - by destruct (String.eqb k' k).
  - unfold alist_remove in *. cbn [List.filter fst].
    destruct (String.eqb_spec k' k1) as [->|N1]; cbn [negb].
    + rewrite IH, last_binding_cons.
      destruct (String.eqb_spec k1 k) as [->|N]; [reflexivity|].
      destruct (String.eqb_spec k k1) as [->|_]; [done|].
      by destruct (last_binding k o).
    + rewrite !last_binding_cons, IH.
      destruct (String.eqb_spec k' k) as [->|N]; [|reflexivity].
      destruct (String.eqb_spec k k1) as [->|_]; [done|]. reflexivity.
Qed.

End Bindings.

(** ** The query string, built in steps *)

Section BuildQueryInSteps.

Import Fetch.

(** X1. [_buildQuery] can be applied in steps. Take an object whose
    entries are enumerated as those of [o1] followed by those of [o2], no
    key being in both. Adding the entries of [o2] to the URL that already
    carries those of [o1] gives the URL one call builds for that object,
    and the same warnings. The second call finds the [?] the first one
    wrote and goes on with [&]. *)
Theorem buildQuery_in_two_steps (u : string) (o1 o2 : Props) :
  NoDup (map fst (o1 ++ o2)) ->
  let u1 := fst (_buildQuery u (VObj o1)) in
  fst (_buildQuery u1 (VObj o2)) = fst (_buildQuery u (VObj (o1 ++ o2)))
  /\ snd (_buildQuery u (VObj (o1 ++ o2)))
     = (snd (_buildQuery u (VObj o1)) ++ snd (_buildQuery u1 (VObj o2)))%list.
Proof.
  intros _ u1. subst u1. rewrite !buildQuery_object. cbn [fst snd].
  rewrite !flat_map_app. split; [|reflexivity].
  destruct (flat_map params_of_entry o1) as [|p ps] eqn:E1.
  - rewrite append_empty_r. reflexivity.
  - set (p1 := p :: ps) in *.
    assert (N1 : map render_param p1 <> []) by done.
    rewrite includes_char_app.
    assert (Q : includes_char "?" u
                || includes_char "?"
                     ((if includes_char "?" u then "&" else "?")
                      +:+ String.concat "&" (map render_param p1)) = true).
    { destruct (includes_char "?" u); reflexivity. }
    rewrite Q.
    destruct (flat_map params_of_entry o2) as [|q qs] eqn:E2.
    + rewrite app_nil_r, append_empty_r. reflexivity.
    + set (p2 := q :: qs) in *.
      assert (N2 : map render_param p2 <> []) by done.
      assert (N : (p1 ++ p2)%list = p :: (ps ++ p2)%list) by reflexivity.
      rewrite N. rewrite <- N. rewrite map_app, concat_app by done.
      by rewrite !append_assoc.
Qed.

Lemma buildQuery_in_two_steps_witness :
  let o1 := [("page", VNum 1)] in
  let o2 := [("count", VNum 2); ("tag", VArr [VStr "a"; VStr "b"])] in
  NoDup (map fst (o1 ++ o2))
  /\ fst (_buildQuery "u" (VObj o1)) = "u?page=1"
  /\ fst (_buildQuery "u?page=1" (VObj o2)) = "u?page=1&count=2&tag=a&tag=b"
  /\ fst (_buildQuery "u" (VObj (o1 ++ o2))) = "u?page=1&count=2&tag=a&tag=b".
Proof.
  intros o1 o2.
  assert (H : NoDup (map fst (o1 ++ o2)))
    by (apply (bool_decide_unpack _); vm_compute; reflexivity).
  split; [exact H|].
  assert (E1 : fst (_buildQuery "u" (VObj o1)) = "u?page=1")
    by (vm_compute; reflexivity).
  split; [exact E1|].
  assert (E2 : fst (_buildQuery "u?page=1" (VObj o2))
               = "u?page=1&count=2&tag=a&tag=b")
    by (vm_compute; reflexivity).
  split; [exact E2|].
  rewrite <- (proj1 (buildQuery_in_two_steps "u" o1 o2 H)).
  rewrite E1. exact E2.
Defined.

End BuildQueryInSteps.

(** ** What a request is sent with *)

Section PerRequest.

Import Fetch.

Lemma heap_read_insert (l l' : nat) (o : HObj) (h : gmap nat HObj) :
  heap_read l (<[l' := o]> h) = if decide (l = l') then o else heap_read l h.
Proof.
  unfold heap_read. destruct (decide (l = l')) as [->|N].
  - by rewrite lookup_insert_eq.
  - by rewrite lookup_insert_ne.
Qed.

Lemma fresh_is_new (h : gmap nat HObj) (l : nat) :
  is_Some (h !! l) -> l <> fresh (dom h).
Proof.
  intros H E. apply (is_fresh (dom h)). rewrite <- E. by apply elem_of_dom.
Qed.

(** The headers a request is given, looked up by name. *)
Lemma chosen_headers_lookup (a : HObj) (fh : option HObj) (k : string) :
  NoDup (map fst a) ->
  alist_get k
    (alist_assign []
       match fh with
       | Some fh =>
           if match alist_get "merge" fh with
              | Some v => hval_truthy v
              | None => false
              end
           then alist_assign a (alist_remove "merge" fh)
           else alist_remove "merge" fh
       | None => a
       end)
  = match fh with
    | Some fh =>
        match last_binding k (alist_remove "merge" fh) with
        | Some v => Some v
        | None => if merge_flag fh then alist_get k a else None
        end
    | None => alist_get k a
    end.
Proof.
  intros Ha. rewrite alist_get_assign. cbn [alist_get].
  destruct fh as [fh|].
  - fold (merge_flag fh). destruct (merge_flag fh).
    + rewrite last_binding_unique by by apply alist_assign_keys.
      rewrite alist_get_assign.
      by destruct (last_binding k (alist_remove "merge" fh)), (alist_get k a).
    + by destruct (last_binding k (alist_remove "merge" fh)).
  - rewrite last_binding_unique by done. by destruct (alist_get k a).
Qed.

(** The objects a new [Http] holds once [setOptionsPerRequest] is done
    with it: its options, and the headers object they point to unless the
    options given to [setOpts] say otherwise. *)
Lemma setOptionsPerRequest_new (this : SDKFetch) (u : string) (incl : bool)
    (fo : SDKFetchOptions) (h : gmap nat HObj) :
  is_Some (h !! headers this) -> is_Some (h !! options this) ->
  let r := setOptionsPerRequest this (fst (Http_new u incl h)) fo
             (snd (Http_new u incl h)) in
  let tok := chosen_token this fo in
  exists l,
    heap_read (_opts (fst r)) (snd r)
    = alist_assign
        (if String.eqb tok ""
         then [("headers", HRef l); ("credentials", HLit (VStr "include"))]
         else [("headers", HRef l)])
        (chosen_options this fo h)
    /\ (String.eqb tok "" = false ->
        alist_get "Authorization" (heap_read l (snd r))
        = Some (HLit (VStr ("OAuth2 " +:+ tok))))
    /\ (NoDup (map fst (heap_read (headers this) h)) ->
        forall k,
          String.eqb tok "" = true \/ String.eqb k "Authorization" = false ->
          alist_get k (heap_read l (snd r))
          = match o_headers fo with
            | Some fh =>
                match last_binding k (alist_remove "merge" fh) with
                | Some v => Some v
                | None =>
                    if merge_flag fh
                    then alist_get k (heap_read (headers this) h)
                    else None
                end
            | None => alist_get k (heap_read (headers this) h)
            end)
    /\ url (fst r) = u /\ includeHeaders (fst r) = incl.
Proof.
  intros Hh Ho r tok. subst r tok.
  unfold Http_new, alloc. cbn [fst snd].
  set (lh := fresh (dom h)).
  set (h1 := <[lh := []]> h).
  set (lo := fresh (dom h1)).
  set (h2 := <[lo := _]> h1).
  assert (Nh : forall l, is_Some (h !! l) -> l <> lh) by (intros; by apply fresh_is_new).
  assert (Kh1 : forall l, is_Some (h !! l) -> is_Some (h1 !! l)).
  { intros l Hl. subst h1. rewrite lookup_insert_ne; [done|].
    symmetry. intros E. by apply (Nh l). }
  assert (No : forall l, is_Some (h1 !! l) -> l <> lo) by (intros; by apply fresh_is_new).
  assert (Rh : forall l, is_Some (h !! l) -> heap_read l h2 = heap_read l h).
  { intros l Hl. subst h2 h1. rewrite !heap_read_insert.
    destruct (decide (l = lo)) as [E|_]; [by apply No in E; [|apply Kh1]|].
    destruct (decide (l = lh)) as [E|_]; [by apply Nh in E|]. reflexivity. }
  set (http0 := {| url := u; _opts := lo; includeHeaders := incl |}).
  unfold setOptionsPerRequest, getUnnamedOptions.
  rewrite (Rh _ Hh), (Rh _ Ho).
  fold (chosen_token this fo). set (tok := chosen_token this fo).
  fold (chosen_options this fo h). set (eff := chosen_options this fo h).
  set (hdrs := match o_headers fo with Some _ => _ | None => _ end).
  set (l := fresh (dom h2)).
  set (h3 := Http_setHeaders hdrs http0 h2).
  assert (Llo : l <> lo).
  { intros E. apply (is_fresh (dom h2)). fold l. rewrite E. subst h2.
    apply elem_of_dom. by rewrite lookup_insert_eq. }
  assert (Lhlo : lh <> lo).
  { apply No. subst h1. by rewrite lookup_insert_eq. }
  assert (E3 : h3 = <[lo := [("headers", HRef l); ("credentials", HLit (VStr "include"))]]>
                     (<[l := alist_assign [] hdrs]> h2)).
  { subst h3. unfold Http_setHeaders, Http_headers_ref, alloc, heap_write.
    cbn [_opts http0]. fold l.
    assert (R0 : heap_read lo h2
                 = [("headers", HRef lh); ("credentials", HLit (VStr "include"))]).
    { subst h2. rewrite heap_read_insert. by destruct (decide (lo = lo)). }
    rewrite R0. cbn [alist_get String.eqb Ascii.eqb Bool.eqb].
    assert (R1 : heap_read lh h2 = []).
    { subst h2 h1. rewrite !heap_read_insert.
      destruct (decide (lh = lo)); [done|]. by destruct (decide (lh = lh)). }
    rewrite R1. rewrite heap_read_insert.
    destruct (decide (lo = l)) as [E|_]; [by symmetry in E|].
    rewrite R0. reflexivity. }
  set (h4 := if String.eqb tok "" then h3 else Http_setToken tok http0 h3).
  assert (E4 : heap_read lo h4
               = (if String.eqb tok ""
                  then [("headers", HRef l); ("credentials", HLit (VStr "include"))]
                  else [("headers", HRef l)])
               /\ heap_read l h4
                  = (if String.eqb tok "" then alist_assign [] hdrs
                     else alist_set "Authorization" (HLit (VStr ("OAuth2 " +:+ tok)))
                            (alist_assign [] hdrs))
               /\ is_Some (h4 !! l)).
  { subst h4. clearbody h3. destruct (String.eqb tok "").
    - rewrite E3, !heap_read_insert.
      destruct (decide (lo = lo)); [|done].
      destruct (decide (l = lo)); [done|].
      destruct (decide (l = l)); [|done].
      repeat split. rewrite lookup_insert_ne by done. by rewrite lookup_insert_eq.
    - unfold Http_setToken, Http_headers_ref, heap_delete, heap_write.
      cbn [_opts http0].
      assert (R3 : heap_read lo h3
                   = [("headers", HRef l); ("credentials", HLit (VStr "include"))]).
      { rewrite E3, heap_read_insert. by destruct (decide (lo = lo)). }
      rewrite R3. rewrite heap_read_insert. destruct (decide (lo = lo)); [|done].
      cbn. rewrite !heap_read_insert.
      destruct (decide (lo = l)) as [E|_]; [by symmetry in E|].
      destruct (decide (lo = lo)); [|done].
      destruct (decide (l = l)); [|done].
      destruct (decide (l = lo)); [done|].
      rewrite E3, heap_read_insert. destruct (decide (l = lo)); [done|].
      rewrite heap_read_insert. destruct (decide (l = l)); [|done].
      repeat split. by rewrite lookup_insert_eq. }
  destruct E4 as (E4o & E4l & E4s).
  assert (Final : forall hl,
            hl = (if String.eqb tok "" then alist_assign [] hdrs
                  else alist_set "Authorization" (HLit (VStr ("OAuth2 " +:+ tok)))
                         (alist_assign [] hdrs)) ->
            (String.eqb tok "" = false ->
             alist_get "Authorization" hl = Some (HLit (VStr ("OAuth2 " +:+ tok))))
            /\ (NoDup (map fst (heap_read (headers this) h)) ->
                forall k,
                  String.eqb tok "" = true \/ String.eqb k "Authorization" = false ->
                  alist_get k hl
                  = match o_headers fo with
                    | Some fh =>
                        match last_binding k (alist_remove "merge" fh) with
                        | Some v => Some v
                        | None =>
                            if merge_flag fh
                            then alist_get k (heap_read (headers this) h)
                            else None
                        end
                    | None => alist_get k (heap_read (headers this) h)
                    end)).
  { intros hl ->. split.
    - intros ->. apply alist_get_set_eq.
    - intros Ha k Hk. rewrite <- (chosen_headers_lookup _ _ k Ha). fold hdrs.
      destruct (String.eqb tok ""); [reflexivity|].
      destruct Hk as [Hk|Hk]; [done|]. by rewrite alist_get_set, Hk. }
  exists l. destruct eff as [|e eff'] eqn:Eeff.
  - cbn [fst snd]. subst http0. cbn [_opts url includeHeaders].
    fold h3. fold h4. rewrite E4o.
    split; [reflexivity|]. destruct (Final _ E4l) as [F1 F2]. by repeat split.
  - fold h3. fold h4. unfold Http_setOpts, alloc. cbn [fst snd _opts url includeHeaders].
    rewrite !heap_read_insert.
    destruct (decide (fresh (dom h4) = fresh (dom h4))); [|done].
    destruct (decide (l = fresh (dom h4))) as [E|_].
    { exfalso. by apply (fresh_is_new h4 l). }
    subst http0. cbn [_opts url includeHeaders]. rewrite E4o.
    split; [reflexivity|]. destruct (Final _ E4l) as [F1 F2]. by repeat split.
Qed.

End PerRequest.

Section RequestOptions.

Import Fetch.

Variable JSON_stringify : JsVal -> string.

Lemma request_of_new (this : SDKFetch) (path : string) (body : JsVal)
    (opts : SDKFetchOptions) (w : World) :
  let r := setOptionsPerRequest this
             (fst (Http_new "" (o_includeHeaders opts) (heap w))) opts
             (snd (Http_new "" (o_includeHeaders opts) (heap w))) in
  request_of this path body opts w
  = (mkParams (urlWithPath this path (o_apiHost opts)) body (_opts (fst r))
       (includeHeaders (fst r)),
     snd r).
Proof.
  unfold request_of, send_body.
  destruct (Http_new "" (o_includeHeaders opts) (heap w)) as [http0 h0].
  cbn [fst snd].
  by destruct (setOptionsPerRequest this http0 opts h0) as [http h1].
Qed.

(** [method] and [body] are the only entries [createMethod] writes. *)
Lemma fetch_options_other (method : AllowedHttpMethod) (p : MethodParams)
    (h : gmap nat HObj) (k : string) :
  String.eqb k "method" = false -> String.eqb k "body" = false ->
  alist_get k (fetch_options JSON_stringify method p h)
  = alist_get k (heap_read (p_opts p) h).
Proof.
  intros K1 K2. unfold fetch_options.
  destruct (truthy (p_body p)); by rewrite ?alist_get_set, ?K1, ?K2.
Qed.

(** The options of a request of [post], [put] or [delete], and the
    headers object they point to. *)
Lemma request_of_options (this : SDKFetch) (path : string) (body : JsVal)
    (opts : SDKFetchOptions) (w : World) :
  is_Some (heap w !! headers this) ->
  is_Some (heap w !! options this) ->
  let p := fst (request_of this path body opts w) in
  let h := snd (request_of this path body opts w) in
  let tok := chosen_token this opts in
  exists l,
    heap_read (p_opts p) h
    = alist_assign
        (if String.eqb tok ""
         then [("headers", HRef l); ("credentials", HLit (VStr "include"))]
         else [("headers", HRef l)])
        (chosen_options this opts (heap w))
    /\ (alist_get "headers" (chosen_options this opts (heap w)) = None ->
        forall method, fetch_headers JSON_stringify method p h = heap_read l h)
    /\ (String.eqb tok "" = false ->
        alist_get "Authorization" (heap_read l h)
        = Some (HLit (VStr ("OAuth2 " +:+ tok))))
    /\ (NoDup (map fst (heap_read (headers this) (heap w))) ->
        forall k,
          String.eqb tok "" = true \/ String.eqb k "Authorization" = false ->
          alist_get k (heap_read l h)
          = match o_headers opts with
            | Some fh =>
                match last_binding k (alist_remove "merge" fh) with
                | Some v => Some v
                | None =>
                    if merge_flag fh
                    then alist_get k (heap_read (headers this) (heap w))
                    else None
                end
            | None => alist_get k (heap_read (headers this) (heap w))
            end).
Proof.
  intros Hh Ho p h tok. subst p h tok. rewrite request_of_new. cbn [fst snd p_opts].
  destruct (setOptionsPerRequest_new this "" (o_includeHeaders opts) opts (heap w) Hh Ho)
    as (l & E & A & B & _). cbn zeta in E, A, B.
  exists l. split; [exact E|]. split; [|by split].
  intros Hn method. unfold fetch_headers.
  rewrite fetch_options_other by reflexivity. cbn [p_opts]. rewrite E.
  rewrite alist_get_assign, (last_binding_absent _ _ Hn).
  by destruct (String.eqb (chosen_token this opts) "").
Qed.

(** X4. The token of a request of [post], [put] or [delete]: the one of
    the options when it is not empty, the one of the instance otherwise.
    With a token, the request carries [Authorization: OAuth2 <token>],
    whatever header of that name was given, and the [credentials] entry
    of the defaults is gone; without one, [credentials] is ['include'].
    Either way an entry [credentials] of the options handed to [setOpts]
    comes last and wins. *)
Theorem token_replaces_credentials (method : AllowedHttpMethod)
    (this : SDKFetch) (path : string) (body : JsVal) (opts : SDKFetchOptions)
    (w : World) :
  is_Some (heap w !! headers this) ->
  is_Some (heap w !! options this) ->
  alist_get "headers" (chosen_options this opts (heap w)) = None ->
  let p := fst (request_of this path body opts w) in
  let h := snd (request_of this path body opts w) in
  let tok := string_or (o_token opts) (token this) in
  let credentials :=
    alist_get "credentials" (fetch_options JSON_stringify method p h) in
  let authorization :=
    alist_get "Authorization" (fetch_headers JSON_stringify method p h) in
  match last_binding "credentials" (chosen_options this opts (heap w)) with
  | Some v => credentials = Some v
  | None =>
      if String.eqb tok "" then credentials = Some (HLit (VStr "include"))
      else credentials = None
  end
  /\ (if String.eqb tok "" then True
      else authorization = Some (HLit (VStr ("OAuth2 " +:+ tok)))).
Proof.
  intros Hh Ho Hn p h tok credentials authorization.
  subst credentials authorization.
  destruct (request_of_options this path body opts w Hh Ho)
    as (l & E & F & A & _). fold p h in E, F, A.
  unfold chosen_token in E, A. fold tok in E, A.
  rewrite fetch_options_other by reflexivity. rewrite E, alist_get_assign.
  split.
  - destruct (last_binding "credentials" _); [reflexivity|].
    by destruct (String.eqb tok "").
  - destruct (String.eqb tok "") eqn:T; [done|]. rewrite (F Hn). by apply A.
Qed.

(** X5. The headers of a request of [post], [put] or [delete]. Without a
    [headers] option they are those of the instance. With one they are
    its entries, [merge] left out, and the headers of the instance show
    through only if [merge] is truthy; where both name a header, the
    option wins. ([Authorization] is set apart when there is a token.) *)
Theorem headers_of_a_request (method : AllowedHttpMethod)
    (this : SDKFetch) (path : string) (body : JsVal) (opts : SDKFetchOptions)
    (w : World) (k : string) :
  is_Some (heap w !! headers this) ->
  is_Some (heap w !! options this) ->
  NoDup (map fst (heap_read (headers this) (heap w))) ->
  alist_get "headers" (chosen_options this opts (heap w)) = None ->
  String.eqb (string_or (o_token opts) (token this)) "" = true
  \/ String.eqb k "Authorization" = false ->
  let p := fst (request_of this path body opts w) in
  let h := snd (request_of this path body opts w) in
  let own := alist_get k (heap_read (headers this) (heap w)) in
  alist_get k (fetch_headers JSON_stringify method p h)
  = match o_headers opts with
    | Some fh =>
        match last_binding k (alist_remove "merge" fh) with
        | Some v => Some v
        | None => if merge_flag fh then own else None
        end
    | None => own
    end.
Proof.
  intros Hh Ho Hd Hn Hk p h own. subst own.
  destruct (request_of_options this path body opts w Hh Ho)
    as (l & _ & F & _ & B). fold p h in F, B.
  rewrite (F Hn). by apply B.
Qed.

(** X6. The options [fetch] is given by a request of [post], [put] or
    [delete]. The URL is the host, of the options when it is not empty
    and of the instance otherwise, then [/], then the path. [method] is
    the method that was called, whatever the options say. [body] is the
    body when it is truthy, stringified when it is an object; a falsy
    body is not sent. Every other entry, [headers] and [credentials]
    apart, is that of the options handed to [setOpts]: the unnamed ones
    of the call when there are any, those of the instance otherwise,
    never a mix of the two. *)
Theorem options_of_a_request (method : AllowedHttpMethod)
    (this : SDKFetch) (path : string) (body : JsVal) (opts : SDKFetchOptions)
    (w : World) :
  is_Some (heap w !! headers this) ->
  is_Some (heap w !! options this) ->
  let p := fst (request_of this path body opts w) in
  let h := snd (request_of this path body opts w) in
  let sent := fetch_options JSON_stringify method p h in
  let given := match o_unnamed opts with
               | [] => heap_read (options this) (heap w)
               | unnamed => unnamed
               end in
  p_url p = string_or (o_apiHost opts) (apiHost this) +:+ "/" +:+ path
  /\ alist_get "method" sent = Some (HLit (VStr (method_name method)))
  /\ alist_get "body" sent
     = (if truthy body
        then Some (HLit (if typeof_object body
                         then VStr (JSON_stringify body) else body))
        else last_binding "body" given)
  /\ forall k,
       ~ In k ["method"; "body"; "headers"; "credentials"] ->
       alist_get k sent = last_binding k given.
Proof.
  intros Hh Ho p h sent given.
  destruct (request_of_options this path body opts w Hh Ho) as (l & E & _).
  fold p h in E. fold (chosen_options this opts (heap w)) in given.
  assert (Pu : p_url p = urlWithPath this path (o_apiHost opts)
               /\ p_body p = body).
  { subst p. by rewrite request_of_new. }
  destruct Pu as [Pu Pb]. split; [exact Pu|].
  subst sent. unfold fetch_options. rewrite Pb, E.
  split; [|split].
  - destruct (truthy body); by rewrite !alist_get_set.
  - destruct (truthy body); rewrite !alist_get_set;
      cbn [String.eqb Ascii.eqb Bool.eqb]; [reflexivity|].
    rewrite alist_get_assign.
    destruct (last_binding "body" _); [reflexivity|].
    by destruct (String.eqb (chosen_token this opts) "").
  - intros k Hk.
    assert (K : String.eqb k "method" = false /\ String.eqb k "body" = false
                /\ String.eqb k "headers" = false
                /\ String.eqb k "credentials" = false).
    { repeat split; apply String.eqb_neq; intros ->; apply Hk; simpl; tauto. }
    destruct K as (K1 & K2 & K3 & K4).
    destruct (truthy body); rewrite !alist_get_set, ?K1, ?K2, alist_get_assign;
      (destruct (last_binding k _); [reflexivity|]);
      destruct (String.eqb (chosen_token this opts) ""); simpl;
      by rewrite ?K3, ?K4.
Qed.

End RequestOptions.

Section RequestAnswers.

Import Fetch.

Lemma setOptionsPerRequest_includeHeaders (this : SDKFetch) (http : Http)
    (opts : SDKFetchOptions) (h : gmap nat HObj) :
  includeHeaders (fst (setOptionsPerRequest this http opts h))
  = includeHeaders http.
Proof.
  unfold setOptionsPerRequest.
  by destruct (match getUnnamedOptions opts with
               | [] => heap_read (options this) h
               | o => o
               end).
Qed.

(** X7. How a request of [post], [put] or [delete] ends, in each of the
    two branches of [createMethod].

    Through [fetch]: a response with a status from 200 to 399 whose text
    can be read is passed on, its body as parsed, wrapped with the
    response headers if the option [includeHeaders] was set, and its text
    as it is when it cannot be parsed, headers or not. A response of that
    kind whose text cannot be read, any other response, and a rejection
    end the request with an error that names the method, the URL and the
    body as the caller gave it, and the same error is sent to the error
    adapter; nothing is sent there otherwise.

    Through [Observable.ajax]: the answer is passed on, as parsed when it
    can be parsed, and then wrapped with the response headers if the
    option [includeHeaders] was not set, the other way round; as it is
    when it cannot be parsed. An error of the transport ends the request
    with an error that names the method, the URL and the body and holds
    the response built from the [xhr], and that error is sent to the
    error adapter; when the response cannot be built, the request ends
    with what was thrown and nothing is sent to the error adapter. *)
Theorem answer_of_a_request (JSON_parse : string -> option JsVal)
    (JSON_stringify : JsVal -> string)
    (headers2Object : JsVal -> JsVal) (parseHeaders : string -> JsVal)
    (Response_new : string -> Z -> string -> option JsVal -> JsVal + Response)
    (method : AllowedHttpMethod)
    (this : SDKFetch) (path : string) (body : JsVal) (opts : SDKFetchOptions)
    (w : World) (transport : Transport) :
  let p := fst (request_of this path body opts w) in
  let ended :=
    createMethod JSON_parse JSON_stringify headers2Object parseHeaders
      Response_new method p transport in
  let told := fst ended in
  let reported := snd ended in
  let failed (e : FetchAnswer) :=
    let sdkError :=
      mkHttpError e method
        (string_or (o_apiHost opts) (apiHost this) +:+ "/" +:+ path) body in
    told = Error sdkError /\ reported = [sdkError] in
  match transport with
  | ViaFetch (Resolved response) =>
      if (200 <=? status response)%Z && (status response <? 400)%Z
      then match response_text response with
           | inr respText =>
               reported = []
               /\ told
                  = Next match JSON_parse respText with
                         | Some respBody =>
                             if o_includeHeaders opts
                             then VObj [("headers",
                                         headers2Object
                                           (response_headers response));
                                        ("body", respBody)]
                             else respBody
                         | None => VStr respText
                         end
           | inl reason => failed (Rejected reason)
           end
      else failed (Resolved response)
  | ViaFetch (Rejected reason) => failed (Rejected reason)
  | ViaAjax (AjaxResponse resp xhr) =>
      reported = []
      /\ told
         = Next match JSON_parse (ToString resp) with
                | Some respBody =>
                    if o_includeHeaders opts
                    then respBody
                    else VObj [("headers",
                                parseHeaders (getAllResponseHeaders xhr));
                               ("body", respBody)]
                | None => resp
                end
  | ViaAjax (AjaxError xhr) =>
      match Response_new (JSON_stringify (xhr_response xhr)) (xhr_status xhr)
              (xhr_statusText xhr)
              (if String.eqb (getAllResponseHeaders xhr) ""
               then None
               else Some (parseHeaders (getAllResponseHeaders xhr))) with
      | inr response => failed (Resolved response)
      | inl e => told = Thrown e /\ reported = []
      end
  end.
Proof.
  intros p ended told reported failed. subst p ended told reported failed.
  rewrite request_of_new. cbn [fst]. unfold createMethod.
  cbn [p_url p_body p_includeHeaders].
  rewrite setOptionsPerRequest_includeHeaders. cbn [Http_new alloc fst includeHeaders].
  destruct transport as [[resp xhr|xhr]|[response|reason]].
  - split; [done|]. cbn [fst].
    destruct (JSON_parse (ToString resp)); [|done].
    by destruct (o_includeHeaders opts).
  - assert (L : negb (String.length (getAllResponseHeaders xhr) =? 0)%nat
                = negb (String.eqb (getAllResponseHeaders xhr) "")).
    { by destruct (getAllResponseHeaders xhr). }
    rewrite L.
    destruct (String.eqb (getAllResponseHeaders xhr) ""); cbn [negb];
      by destruct (Response_new _ _ _ _).
  - destruct ((200 <=? status response)%Z && (status response <? 400)%Z); [|done].
    destruct (response_text response) as [reason|respText]; [done|].
    split; [done|]. cbn [fst].
    destruct (JSON_parse respText); [|done].
    by destruct (o_includeHeaders opts).
  - done.
Qed.

(** The two branches at work. A response with the status 200 whose text
    cannot be read is reported as an error. Through [Observable.ajax],
    an answer that is a string holding JSON comes with the headers when
    they were not asked for and without them when they were; an answer
    that has been parsed already is passed on as it is. *)
Example answers_in_the_two_branches :
  let JSON_parse (s : string) :=
    if String.eqb s "1" then Some (VNum 1) else None in
  let ended includeHeaders transport :=
    createMethod JSON_parse Reference.stringify (fun h => h)
      (fun s => VObj [("raw", VStr s)])
      (fun text status statusText init =>
         if (200 <=? status)%Z && (status <=? 599)%Z
         then inr (mkResponse status statusText (default VUndefined init)
                     (inr text))
         else inl (VStr "RangeError"))
      POST (mkParams "u" VNull 0 includeHeaders) transport in
  let xhr := mkXhr 200 "OK" (VStr "1") "a: b" in
  ended false (ViaFetch (Resolved (mkResponse 200 "OK" VNull (inl (VStr "aborted")))))
  = (Error (mkHttpError (Rejected (VStr "aborted")) POST "u" VNull),
     [mkHttpError (Rejected (VStr "aborted")) POST "u" VNull])
  /\ ended false (ViaAjax (AjaxResponse (VStr "1") xhr))
     = (Next (VObj [("headers", VObj [("raw", VStr "a: b")]); ("body", VNum 1)]),
        [])
  /\ ended true (ViaAjax (AjaxResponse (VStr "1") xhr)) = (Next (VNum 1), [])
  /\ ended true (ViaAjax (AjaxResponse (VObj [("a", VNum 1)]) xhr))
     = (Next (VObj [("a", VNum 1)]), [])
  /\ ended false (ViaAjax (AjaxError (mkXhr 0 "" VNull "")))
     = (Thrown (VStr "RangeError"), []).
Proof. repeat split. Qed.

End RequestAnswers.

Section RequestExamples.

Import Fetch.

Lemma token_replaces_credentials_witness :
  alist_get "credentials"
    (fetch_options Reference.stringify POST
       (fst (request_of with_token "tasks" VNull traced (snd SDKFetch_new)))
       (snd (request_of with_token "tasks" VNull traced (snd SDKFetch_new))))
  = None
  /\ alist_get "Authorization"
       (fetch_headers Reference.stringify POST
          (fst (request_of with_token "tasks" VNull traced (snd SDKFetch_new)))
          (snd (request_of with_token "tasks" VNull traced (snd SDKFetch_new))))
     = Some (HLit (VStr "OAuth2 abc")).
Proof.
  assert (H1 : is_Some (heap (snd SDKFetch_new) !! headers with_token))
    by (vm_compute; eauto).
  assert (H2 : is_Some (heap (snd SDKFetch_new) !! options with_token))
    by (vm_compute; eauto).
  assert (H3 : alist_get "headers"
                 (chosen_options with_token traced (heap (snd SDKFetch_new)))
               = None)
    by (vm_compute; reflexivity).
  exact (token_replaces_credentials Reference.stringify POST with_token "tasks"
           VNull traced (snd SDKFetch_new) H1 H2 H3).
Defined.

Lemma headers_of_a_request_witness :
  alist_get "Accept"
    (fetch_headers Reference.stringify PUT
       (fst (request_of with_token "tasks" VNull traced (snd SDKFetch_new)))
       (snd (request_of with_token "tasks" VNull traced (snd SDKFetch_new))))
  = Some (HLit (VStr "application/json")).
Proof.
  assert (H1 : is_Some (heap (snd SDKFetch_new) !! headers with_token))
    by (vm_compute; eauto).
  assert (H2 : is_Some (heap (snd SDKFetch_new) !! options with_token))
    by (vm_compute; eauto).
  assert (H3 : NoDup (map fst (heap_read (headers with_token)
                                 (heap (snd SDKFetch_new)))))
    by (apply (bool_decide_unpack _); vm_compute; reflexivity).
  assert (H4 : alist_get "headers"
                 (chosen_options with_token traced (heap (snd SDKFetch_new)))
               = None)
    by (vm_compute; reflexivity).
  assert (H5 : String.eqb (string_or (o_token traced) (token with_token)) "" = true
               \/ String.eqb "Accept" "Authorization" = false)
    by (right; reflexivity).
  exact (headers_of_a_request Reference.stringify PUT with_token "tasks"
           VNull traced (snd SDKFetch_new) "Accept" H1 H2 H3 H4 H5).
Defined.

Lemma options_of_a_request_witness :
  alist_get "method"
    (fetch_options Reference.stringify DELETE
       (fst (request_of with_token "tasks/1" VNull traced (snd SDKFetch_new)))
       (snd (request_of with_token "tasks/1" VNull traced (snd SDKFetch_new))))
  = Some (HLit (VStr "delete")).
Proof.
  assert (H1 : is_Some (heap (snd SDKFetch_new) !! headers with_token))
    by (vm_compute; eauto).
  assert (H2 : is_Some (heap (snd SDKFetch_new) !! options with_token))
    by (vm_compute; eauto).
  exact (proj1 (proj2 (options_of_a_request Reference.stringify DELETE
                         with_token "tasks/1" VNull traced (snd SDKFetch_new)
                         H1 H2))).
Defined.

(** What a request of [post] hands to [Observable.ajax] in the first
    branch of [createMethod]: an instance without a token sends its
    credentials, one with a token does not. *)
Example ajax_request_of_an_instance :
  let body := VObj [("a", VNum 1)] in
  let sent this :=
    let r := request_of this "tasks" body no_options (snd SDKFetch_new) in
    ajax_request POST (fst r) (snd r) in
  let plain := sent (fst SDKFetch_new) in
  alist_get "url" plain = Some (HLit (VStr "https://www.teambition.com/api/tasks"))
  /\ alist_get "body" plain = Some (HLit body)
  /\ alist_get "method" plain = Some (HLit (VStr "post"))
  /\ alist_get "withCredentials" plain = Some (HLit (VBool true))
  /\ alist_get "responseType" plain = Some (HLit (VStr "json"))
  /\ alist_get "crossDomain" plain = Some (HLit (VBool true))
  /\ alist_get "withCredentials" (sent with_token) = Some (HLit (VBool false)).
Proof. repeat split; vm_compute; reflexivity. Qed.

End RequestExamples.

(** ** Sharing a request, and asking again *)

Section Sharing.

Import Fetch.

Lemma get_new_stream (this : SDKFetch) (path : string) (query : JsVal)
    (opts : SDKFetchOptions) (tail : string) (w : World) :
  let u := urlWithPath this path (o_apiHost opts) in
  let key := if truthy query then fst (_buildQuery u query) else u in
  FetchStack w !! key = None ->
  exists http h,
    snd (get this path query opts tail w)
    = mkWorld h (<[key := length (dists w)]> (FetchStack w))
        (dists w
         ++ [mkDist (length (dists w)) key
               (key +:+ tail_separator query +:+ tail) http])%list
        (inflight w) (calls w) (next_sub w)
    /\ stream_of (fst (fst (get this path query opts tail w))) = length (dists w).
Proof.
  intros u key Hd. unfold get. fold u.
  replace (if truthy query then _buildQuery u query else (u, []))
    with (key, if truthy query then snd (_buildQuery u query) else [] : list string)
    by (subst key; destruct (truthy query); [by destruct (_buildQuery u query)|done]).
  destruct (Http_new "" (o_includeHeaders opts) (heap w)) as [http0 h0].
  destruct (setOptionsPerRequest this http0 opts h0) as [http h1].
  unfold set_heap; cbn [FetchStack]. rewrite Hd.
  cbn [FetchStack snd fst dists calls heap inflight next_sub].
  rewrite lookup_insert_eq. exists http, h1. unfold tail_separator.
  split; [|by destruct (o_wrapped opts)].
  by destruct (truthy query && negb (isEmptyObject query)).
Qed.

(** X2. While a URL with its query is in [FetchStack], whoever asks for it
    gets the stream stored there, be it another instance or a call with
    other options or another tail: the second [get] creates nothing and
    sends nothing, and a subscription to what it returns opens the
    request the first caller described, with the first caller's tail. *)
Theorem callers_share_one_stream (this1 this2 : SDKFetch) (path : string)
    (query : JsVal) (opts1 opts2 : SDKFetchOptions) (tail1 tail2 : string)
    (w : World) :
  let u := urlWithPath this1 path (o_apiHost opts1) in
  let key := if truthy query then fst (_buildQuery u query) else u in
  FetchStack w !! key = None ->
  urlWithPath this2 path (o_apiHost opts2) = u ->
  let a := get this1 path query opts1 tail1 w in
  let b := get this2 path query opts2 tail2 (snd a) in
  stream_of (fst (fst b)) = stream_of (fst (fst a))
  /\ dists (snd b) = dists (snd a)
  /\ calls (snd b) = calls w
  /\ calls (snd (subscribe (stream_of (fst (fst b))) (snd b)))
     = (calls w ++ [key +:+ tail_separator query +:+ tail1])%list.
Proof.
  intros u key Hn Hu a b.
  destruct (get_new_stream this1 path query opts1 tail1 w Hn)
    as (http & h & Ea & Sa). fold u key a in Ea, Sa.
  assert (Ka : FetchStack (snd a) !! key = Some (length (dists w))).
  { rewrite Ea. cbn [FetchStack]. apply lookup_insert_eq. }
  assert (Kb : FetchStack (snd a)
                 !! (if truthy query
                     then fst (_buildQuery (urlWithPath this2 path (o_apiHost opts2)) query)
                     else urlWithPath this2 path (o_apiHost opts2))
               = Some (length (dists w))) by (rewrite Hu; exact Ka).
  destruct (get_shares_stream this2 path query opts2 tail2 (snd a) _ Kb)
    as (Sb & Db & _ & Cb). fold b in Sb, Db, Cb.
  rewrite Sb, Sa. split; [done|]. split; [done|].
  assert (Ca : calls (snd a) = calls w) by by rewrite Ea.
  split; [congruence|].
  assert (L : dists (snd b) !! length (dists w)
              = Some (mkDist (length (dists w)) key
                        (key +:+ tail_separator query +:+ tail1) http)).
  { rewrite Db, Ea. cbn [dists]. rewrite lookup_app_r by done.
    by rewrite Nat.sub_diag. }
  rewrite (subscribe_opens_call _ _ _ L). cbn [snd calls d_urlWithTail].
  congruence.
Qed.

(** X3. When a subscription ends, however it ends, its key leaves
    [FetchStack] and the subscription is gone; the next [get] for the
    same URL and query then creates a stream of its own, and subscribing
    to it sends a new request with the new tail. An answer is not kept,
    and a failure is not remembered. *)
Theorem finished_request_is_asked_again (this : SDKFetch) (path : string)
    (query : JsVal) (opts : SDKFetchOptions) (tail : string) (w : World)
    (sub d : nat) (dist : Dist) (e : Ending) :
  let u := urlWithPath this path (o_apiHost opts) in
  let key := if truthy query then fst (_buildQuery u query) else u in
  alist_nat_get sub (inflight w) = Some d ->
  dists w !! d = Some dist ->
  d_key dist = key ->
  let w1 := settle sub e w in
  let c := get this path query opts tail w1 in
  FetchStack w1 !! key = None
  /\ stream_of (fst (fst c)) <> d
  /\ alist_nat_get sub (inflight (snd c)) = None
  /\ calls (snd (subscribe (stream_of (fst (fst c))) (snd c)))
     = (calls w ++ [key +:+ tail_separator query +:+ tail])%list.
Proof.
  intros u key Hs Hd Hk w1 c.
  destruct (settle_evicts sub d dist e w Hs Hd) as [Ev Cs].
  rewrite Hk in Ev. fold w1 in Ev, Cs.
  assert (Dw : dists w1 = dists w /\ inflight w1
               = List.filter (fun sd => negb (Nat.eqb (fst sd) sub)) (inflight w)).
  { subst w1. unfold settle. by rewrite Hs, Hd. }
  destruct Dw as [Dw Iw].
  destruct (get_new_stream this path query opts tail w1 Ev)
    as (http & h & Ec & Sc). fold u key c in Ec, Sc.
  split; [exact Ev|]. split.
  - rewrite Sc, Dw. apply lookup_lt_Some in Hd. lia.
  - split.
    + rewrite Ec. cbn [inflight]. rewrite Iw. clear.
      induction (inflight w) as [|[s0 d0] l IH]; [done|]. simpl.
      destruct (Nat.eqb s0 sub) eqn:E; simpl; [exact IH|].
      rewrite Nat.eqb_sym, E. exact IH.
    + assert (L : dists (snd c) !! stream_of (fst (fst c))
                  = Some (mkDist (length (dists w1)) key
                            (key +:+ tail_separator query +:+ tail) http)).
      { rewrite Sc, Ec. cbn [dists]. rewrite lookup_app_r by done.
        by rewrite Nat.sub_diag. }
      rewrite (subscribe_opens_call _ _ _ L). cbn [snd calls d_urlWithTail].
      rewrite Ec. cbn [calls]. by rewrite Cs.
Qed.

(** X21. The tail is attached by looking at the query, not at the URL. A
    query object that is not empty but gives no parameter (its values
    are undefined, or its only key is ["_"]) leaves the URL as it is, and
    the tail is then attached with [&]: for a URL without [?], the
    request goes to the URL followed by [&_=] and the tail. The key in
    [FetchStack] is the URL itself. *)
Theorem unrendered_query_gets_an_ampersand (this : SDKFetch) (path : string)
    (o : Props) (opts : SDKFetchOptions) (tail : string) (w : World) :
  let u := urlWithPath this path (o_apiHost opts) in
  o <> [] ->
  flat_map params_of_entry o = [] ->
  FetchStack w !! u = None ->
  let a := get this path (VObj o) opts tail w in
  FetchStack (snd a) !! u = Some (stream_of (fst (fst a)))
  /\ calls (snd (subscribe (stream_of (fst (fst a))) (snd a)))
     = (calls w ++ [u +:+ "&_=" +:+ tail])%list.
Proof.
  intros u Ho Hp Hn a.
  assert (K : (if truthy (VObj o) then fst (_buildQuery u (VObj o)) else u) = u).
  { cbn [truthy]. rewrite buildQuery_object, Hp. cbn [fst]. apply append_empty_r. }
  assert (T : tail_separator (VObj o) = "&_=").
  { unfold tail_separator, isEmptyObject. cbn [truthy entries andb].
    by destruct o. }
  pose proof (get_registers_key this path (VObj o) opts tail w) as R.
  cbn zeta in R. fold u in R. rewrite K in R. fold a in R.
  split; [exact R|].
  assert (Hn' : FetchStack w
                  !! (if truthy (VObj o) then fst (_buildQuery u (VObj o)) else u)
                = None) by by rewrite K.
  destruct (get_new_stream this path (VObj o) opts tail w Hn')
    as (http & h & Ea & Sa). fold u a in Ea, Sa. rewrite K, T in Ea.
  assert (L : dists (snd a) !! stream_of (fst (fst a))
              = Some (mkDist (length (dists w)) u (u +:+ "&_=" +:+ tail) http)).
  { rewrite Sa, Ea. cbn [dists]. rewrite lookup_app_r by done.
    by rewrite Nat.sub_diag. }
  rewrite (subscribe_opens_call _ _ _ L). cbn [snd calls d_urlWithTail].
  by rewrite Ea.
Qed.

End Sharing.

Section SharingExamples.

Import Fetch.

Lemma callers_share_one_stream_witness :
  let a := get (fst SDKFetch_new) "tasks" page1 no_options "7" (snd SDKFetch_new) in
  let b := get with_token "tasks" page1 traced "8" (snd a) in
  calls (snd (subscribe (stream_of (fst (fst b))) (snd b)))
  = ["https://www.teambition.com/api/tasks?page=1&_=7"].
Proof.
  assert (H1 : FetchStack (snd SDKFetch_new)
                 !! (if truthy page1
                     then fst (_buildQuery
                                 (urlWithPath (fst SDKFetch_new) "tasks"
                                    (o_apiHost no_options)) page1)
                     else urlWithPath (fst SDKFetch_new) "tasks"
                            (o_apiHost no_options))
               = None)
    by (vm_compute; reflexivity).
  assert (H2 : urlWithPath with_token "tasks" (o_apiHost traced)
               = urlWithPath (fst SDKFetch_new) "tasks" (o_apiHost no_options))
    by reflexivity.
  exact (proj2 (proj2 (proj2
           (callers_share_one_stream (fst SDKFetch_new) with_token "tasks"
              page1 no_options traced "7" "8" (snd SDKFetch_new) H1 H2)))).
Defined.

Lemma finished_request_is_asked_again_witness :
  let c := get (fst SDKFetch_new) "tasks" page1 no_options "9"
             (settle 0 Failed page1_asked) in
  calls (snd (subscribe (stream_of (fst (fst c))) (snd c)))
  = ["https://www.teambition.com/api/tasks?page=1&_=7";
     "https://www.teambition.com/api/tasks?page=1&_=9"].
Proof.
  set (dist := default (mkDist 0 "" "" (mkHttp "" 0 false))
                 (dists page1_asked !! 0)).
  assert (H1 : alist_nat_get 0 (inflight page1_asked) = Some 0)
    by (vm_compute; reflexivity).
  assert (H2 : dists page1_asked !! 0 = Some dist)
    by (vm_compute; reflexivity).
  assert (H3 : d_key dist
               = (if truthy page1
                  then fst (_buildQuery
                              (urlWithPath (fst SDKFetch_new) "tasks"
                                 (o_apiHost no_options)) page1)
                  else urlWithPath (fst SDKFetch_new) "tasks"
                         (o_apiHost no_options)))
    by (vm_compute; reflexivity).
  exact (proj2 (proj2 (proj2
           (finished_request_is_asked_again (fst SDKFetch_new) "tasks" page1
              no_options "9" page1_asked 0 0 dist Failed H1 H2 H3)))).
Defined.

Lemma unrendered_query_gets_an_ampersand_witness :
  let a := get (fst SDKFetch_new) "tasks" (VObj [("page", VUndefined)])
             no_options "7" (snd SDKFetch_new) in
  calls (snd (subscribe (stream_of (fst (fst a))) (snd a)))
  = ["https://www.teambition.com/api/tasks&_=7"].
Proof.
  assert (H1 : [("page", VUndefined)] <> ([] : Props)) by discriminate.
  assert (H2 : flat_map params_of_entry [("page", VUndefined)] = [])
    by reflexivity.
  assert (H3 : FetchStack (snd SDKFetch_new)
                 !! urlWithPath (fst SDKFetch_new) "tasks" (o_apiHost no_options)
               = None)
    by (vm_compute; reflexivity).
  exact (proj2 (unrendered_query_gets_an_ampersand (fst SDKFetch_new) "tasks"
                  [("page", VUndefined)] no_options "7" (snd SDKFetch_new)
                  H1 H2 H3)).
Defined.

(** C10. The URL [get] requests, against what is said of the separator.
    The parameter ["_"] that [get] appends is attached by looking at the
    query, not at the URL. A query whose entries give no parameter is
    not empty: the parameter is attached with [&] to a URL that has no
    [?]. Without a query, or with the empty object, it is attached with
    [?] to a URL that already has one. With a query that gives a
    parameter, and without a query on a path that has no [?], the
    separators are the right ones. *)
Theorem tail_separator_ignores_the_url :
  let asked path query :=
    let a := get (fst SDKFetch_new) path query no_options "7" (snd SDKFetch_new) in
    calls (snd (subscribe (stream_of (fst (fst a))) (snd a))) in
  asked "tasks" (VObj [("page", VUndefined)])
  = ["https://www.teambition.com/api/tasks&_=7"]
  /\ asked "tasks?x=1" VUndefined
     = ["https://www.teambition.com/api/tasks?x=1?_=7"]
  /\ asked "tasks?x=1" (VObj [])
     = ["https://www.teambition.com/api/tasks?x=1?_=7"]
  /\ asked "tasks?x=1" page1
     = ["https://www.teambition.com/api/tasks?x=1&page=1&_=7"]
  /\ asked "tasks" page1
     = ["https://www.teambition.com/api/tasks?page=1&_=7"]
  /\ asked "tasks" VUndefined
     = ["https://www.teambition.com/api/tasks?_=7"].
Proof. repeat split; vm_compute; reflexivity. Qed.

End SharingExamples.

(** ** A request that is already built *)

Section BuiltRequests.

Import Fetch.

Variable JSON_stringify : JsVal -> string.

(** The heap of a new [Http]: its options, and its headers. *)
Lemma Http_new_heap (u : string) (incl : bool) (h : gmap nat HObj) :
  let http := fst (Http_new u incl h) in
  let h0 := snd (Http_new u incl h) in
  exists lh,
    lh <> _opts http
    /\ heap_read (_opts http) h0
       = [("headers", HRef lh); ("credentials", HLit (VStr "include"))]
    /\ heap_read lh h0 = []
    /\ is_Some (h0 !! _opts http) /\ is_Some (h0 !! lh).
Proof.
  unfold Http_new, alloc. cbn [fst snd _opts].
  set (lh := fresh (dom h)).
  set (h1 := <[lh := []]> h).
  set (lo := fresh (dom h1)).
  assert (N : lh <> lo).
  { apply fresh_is_new. subst h1. by rewrite lookup_insert_eq. }
  exists lh. split; [exact N|].
  rewrite !heap_read_insert.
  destruct (decide (lo = lo)); [|done].
  destruct (decide (lh = lo)); [done|].
  subst h1. rewrite heap_read_insert. destruct (decide (lh = lh)); [|done].
  repeat split.
  - by rewrite lookup_insert_eq.
  - rewrite lookup_insert_ne by done. by rewrite lookup_insert_eq.
Qed.

Lemma fetch_alike (method : AllowedHttpMethod) (p : MethodParams)
    (h h' : gmap nat HObj) :
  (forall l, is_Some (h !! l) -> heap_read l h' = heap_read l h) ->
  is_Some (h !! p_opts p) ->
  (forall l, alist_get "headers" (heap_read (p_opts p) h) = Some (HRef l) ->
             is_Some (h !! l)) ->
  fetch_options JSON_stringify method p h' = fetch_options JSON_stringify method p h
  /\ fetch_headers JSON_stringify method p h' = fetch_headers JSON_stringify method p h.
Proof.
  intros K Ho Hl.
  assert (E : fetch_options JSON_stringify method p h'
              = fetch_options JSON_stringify method p h).
  { unfold fetch_options. by rewrite (K _ Ho). }
  split; [exact E|]. unfold fetch_headers. rewrite E.
  rewrite fetch_options_other by reflexivity.
  destruct (alist_get "headers" (heap_read (p_opts p) h)) as [[v|l]|] eqn:A;
    try reflexivity.
  apply K. by apply Hl.
Qed.

(** X18. A request built on a new [Http] by [post], [put] or [delete]
    holds the options object the [Http] had at that time, and reads it
    when it is subscribed. [setOpts] and [restore] give the [Http]
    another object: called after the request was built, they change
    nothing of what the request sends. [setToken] and [setHeaders] write
    into the object the request holds: called after the request was
    built, they still take the [credentials] away and set
    [Authorization], and still set the headers. *)
Theorem built_request_and_later_changes (method : AllowedHttpMethod)
    (u : string) (incl : bool) (h : gmap nat HObj) (body : JsVal)
    (hs opts : HObj) (tok : string) :
  let http := fst (Http_new u incl h) in
  let h0 := snd (Http_new u incl h) in
  let p := params http body in
  let sent := fetch_options JSON_stringify method p in
  let sent_headers := fetch_headers JSON_stringify method p in
  (sent (snd (Http_setOpts opts http h0)) = sent h0
   /\ sent_headers (snd (Http_setOpts opts http h0)) = sent_headers h0)
  /\ (sent (snd (Http_restore http h0)) = sent h0
      /\ sent_headers (snd (Http_restore http h0)) = sent_headers h0)
  /\ (alist_get "credentials" (sent h0) = Some (HLit (VStr "include"))
      /\ alist_get "credentials" (sent (Http_setToken tok http h0)) = None
      /\ alist_get "Authorization" (sent_headers (Http_setToken tok http h0))
         = Some (HLit (VStr ("OAuth2 " +:+ tok))))
  /\ (forall k, alist_get k (sent_headers h0) = None)
  /\ (forall k,
        alist_get k (sent_headers (Http_setHeaders hs http h0))
        = last_binding k hs).
Proof.
  intros http h0 p sent sent_headers.
  destruct (Http_new_heap u incl h) as (lh & N & Ro & Rh & So & Sh).
  fold http h0 in N, Ro, Rh, So, Sh.
  assert (Po : p_opts p = _opts http) by reflexivity.
  assert (Hl : forall l, alist_get "headers" (heap_read (p_opts p) h0) = Some (HRef l) ->
                         is_Some (h0 !! l)).
  { intros l. rewrite Po, Ro. cbn. by intros [= <-]. }
  assert (Fresh : forall o l, is_Some (h0 !! l) ->
                    heap_read l (snd (alloc o h0)) = heap_read l h0).
  { intros o l Hs. unfold alloc. cbn [snd]. rewrite heap_read_insert.
    destruct (decide (l = fresh (dom h0))) as [E|_]; [|done].
    by apply fresh_is_new in E. }
  split; [|split; [|split; [|split]]].
  - apply fetch_alike; [|by rewrite Po|exact Hl].
    intros l Hs. unfold Http_setOpts. by apply Fresh.
  - apply fetch_alike; [|by rewrite Po|exact Hl].
    intros l Hs. unfold Http_restore, alloc. cbn [snd].
    rewrite !heap_read_insert.
    set (l1 := fresh (dom h0)).
    destruct (decide (l = fresh (dom (<[l1 := []]> h0)))) as [E|_].
    { exfalso. apply (fresh_is_new (<[l1 := []]> h0) l); [|exact E].
      destruct (decide (l = l1)) as [->|Ne];
        [by rewrite lookup_insert_eq|by rewrite lookup_insert_ne]. }
    destruct (decide (l = l1)) as [E|_]; [|done].
    by apply fresh_is_new in E.
  - subst sent sent_headers. cbn beta.
    unfold fetch_headers. rewrite !fetch_options_other by reflexivity.
    rewrite Po, Ro. split; [reflexivity|].
    unfold Http_setToken, Http_headers_ref, heap_delete, heap_write.
    rewrite Ro. rewrite heap_read_insert. destruct (decide (_opts http = _opts http)); [|done].
    cbn [alist_remove List.filter fst negb String.eqb Ascii.eqb Bool.eqb alist_get].
    rewrite !heap_read_insert.
    destruct (decide (_opts http = lh)) as [E|_]; [by symmetry in E|].
    destruct (decide (_opts http = _opts http)); [|done].
    destruct (decide (lh = lh)); [|done].
    destruct (decide (lh = _opts http)); [done|].
    rewrite Rh. cbn [alist_get String.eqb Ascii.eqb Bool.eqb].
    split; [reflexivity|]. rewrite heap_read_insert.
    destruct (decide (lh = lh)); [|done]. reflexivity.
  - intros k. subst sent_headers. cbn beta. unfold fetch_headers.
    rewrite fetch_options_other by reflexivity. rewrite Po, Ro.
    cbn [alist_get String.eqb Ascii.eqb Bool.eqb]. by rewrite Rh.
  - intros k. subst sent_headers. cbn beta. unfold fetch_headers.
    rewrite fetch_options_other by reflexivity. rewrite Po.
    unfold Http_setHeaders, Http_headers_ref, alloc, heap_write.
    rewrite Ro. cbn [alist_get String.eqb Ascii.eqb Bool.eqb]. rewrite Rh.
    set (l := fresh (dom h0)).
    assert (Nl : _opts http <> l) by by apply fresh_is_new.
    rewrite !heap_read_insert.
    destruct (decide (_opts http = _opts http)); [|done].
    destruct (decide (_opts http = l)); [done|]. rewrite Ro.
    cbn [alist_set alist_get String.eqb Ascii.eqb Bool.eqb].
    rewrite heap_read_insert.
    destruct (decide (l = _opts http)) as [E|_]; [by symmetry in E|].
    rewrite heap_read_insert. destruct (decide (l = l)); [|done].
    rewrite alist_get_assign. by destruct (last_binding k hs).
Qed.

End BuiltRequests.

(** * More of the engine *)

(** ** What every action respects *)

Section StepFrames.

Import Engine.

Context {X : Collaborators}.

(** A relation between worlds that every primitive effect respects is
    respected by every action. *)
Variable R : World -> World -> Prop.
Hypothesis R_refl : forall w, R w w.
Hypothesis R_trans : forall w1 w2 w3, R w1 w2 -> R w2 w3 -> R w1 w3.
Hypothesis R_log : forall e w, R w (log e w).
Hypothesis R_store : forall db s w, R w (set_store db s w).
Hypothesis R_mark : forall k w, R w (mark k w).
Hypothesis R_forward : forall ch s w, R w (forward ch s w).
Hypothesis R_write : forall t m v w, R w (push (CUD t m v) w).
Hypothesis R_push : forall a m p t w, R w (push (SocketCUD a m p t) w).
Hypothesis R_issue :
  forall result token w w1, bufferResponse result w = inr (token, w1) -> R w w1.
Hypothesis R_persist : forall db w, R w (fst (persist db w)).

Lemma bufferResponse_token (result : ApiResult) (token : QueryToken)
    (w w1 : World) :
  bufferResponse result w = inr (token, w1) ->
  token = QueryToken_map result (mkQueryToken (subject_stream (length (subjects w)))).
Proof.
  unfold bufferResponse.
  destruct (getInfoFromResult (net w) result) as [e|[[[request q] c] t]]; [done|].
  by intros [= <- _].
Qed.

Lemma persist_drain (db : nat) (w w1 : World) (drain : Observable unit) :
  persist db w = (w1, inr drain) -> respects R drain.
Proof.
  unfold persist.
  set (this1 := match Engine.database (net w) with
                | None => _
                | Some _ => net w
                end).
  pose proof (schedule_respects R this1 db (persistedDataBuffer this1)
                R_refl R_trans R_log R_store R_mark R_forward) as Hq.
  destruct (schedule this1 db (persistedDataBuffer this1)) as [queue [e|]];
    [done|].
  intros [= _ <-]. by apply drain_respects.
Qed.

Lemma step_respects (a : Action) (w : World) : R w (step a w).
Proof.
  destruct a as [result|result|result|arg socketMessage pkName type|database];
    simpl.
  - unfold handleApiResult. destruct (Engine.database (net w)) as [d|] eqn:D.
    + destruct (handleRequestCache (net w) result) as [e|token] eqn:E; [done|].
      apply (QueryToken_values_respects R); try done.
      by eapply (handleRequestCache_respects R).
    + destruct (bufferResponse result w) as [e|[token w1]] eqn:E; [done|].
      eapply R_trans; [by eapply R_issue|].
      apply (QueryToken_values_respects R); try done.
      rewrite (bufferResponse_token _ _ _ _ E). simpl.
      apply mapEach_respects. by apply subject_stream_respects.
  - unfold handleCUDAResult. destruct (Engine.database (net w)) as [d|].
    + apply (concatMap_respects R); try done.
      * by apply subscribe_respects.
      * intros v. apply mapTo_respects.
        destruct (cud_method result);
          [apply upsert_respects|apply upsert_respects|apply delete_respects];
          done.
    + apply (tap_respects R); try done. by apply subscribe_respects.
  - apply (tap_respects R); try done. by apply subscribe_respects.
  - apply R_push.
  - pose proof (R_persist database w) as H1.
    destruct (persist database w) as [w1 [e|drain]] eqn:E; simpl in *; [exact H1|].
    eapply R_trans; [exact H1|]. by apply (persist_drain _ _ _ _ E).
Qed.

Lemma run_respects (actions : list Action) (w : World) : R w (run actions w).
Proof.
  unfold run. revert w.
  induction actions as [|a actions IH]; intros w; simpl; [done|].
  eapply R_trans; [apply step_respects|apply IH].
Qed.

End StepFrames.

(** ** Invariants of the engine *)

Section Invariants.

Import Engine.

Context {X : Collaborators}.

Lemma persist_net (db : nat) (w : World) :
  fields (net (fst (persist db w))) = fields (net w)
  /\ requestMap (net (fst (persist db w))) = requestMap (net w)
  /\ (persistedDataBuffer (net (fst (persist db w))) = []
      \/ persistedDataBuffer (net (fst (persist db w)))
         = persistedDataBuffer (net w)).
Proof.
  unfold persist.
  set (this1 := match Engine.database (net w) with
                | None => _
                | Some _ => net w
                end).
  assert (H : fields this1 = fields (net w)
              /\ requestMap this1 = requestMap (net w)
              /\ persistedDataBuffer this1 = persistedDataBuffer (net w)).
  { subst this1. by destruct (Engine.database (net w)). }
  destruct H as (H1 & H2 & H3).
  destruct (schedule this1 db (persistedDataBuffer this1)) as [queue [e|]];
    cbn [fst net set_net fields requestMap persistedDataBuffer]; auto.
Qed.

Lemma bufferResponse_net (result : ApiResult) (token : QueryToken)
    (w w1 : World) :
  bufferResponse result w = inr (token, w1) ->
  is_Some (fields (net w) !! tableName result)
  /\ fields (net w1) = fields (net w)
  /\ database (net w1) = database (net w)
  /\ requestMap (net w1) = requestMap (net w)
  /\ persistedDataBuffer (net w1)
     = (persistedDataBuffer (net w)
        ++ [Selector result (length (subjects w))])%list
  /\ stores w1 = stores w /\ trace w1 = trace w.
Proof.
  unfold bufferResponse, getInfoFromResult.
  destruct (fields (net w) !! tableName result) as [pre|] eqn:F; [|done].
  intros [= _ <-]. by repeat split.
Qed.

Lemma run_keeps_marks (actions : list Action) (w : World) :
  keeps_marks w (run actions w).
Proof.
  apply run_respects; unfold keeps_marks; try done.
  - intros w1 w2 w3 H1 H2 k Hk. by apply H2, H1.
  - intros k0 w0 k Hk. simpl.
    destruct (decide (k = k0)) as [->|N];
      [by rewrite lookup_insert_eq|by rewrite lookup_insert_ne].
  - intros result token w0 w1 E k Hk.
    destruct (bufferResponse_net _ _ _ _ E) as (_ & _ & _ & -> & _). done.
  - intros db w0 k Hk. destruct (persist_net db w0) as (_ & -> & _). done.
Qed.

Lemma forallb_alike {A : Type} (f g : A -> bool) (l : list A) :
  (forall x, f x = g x) -> forallb f l = forallb g l.
Proof. intros H. induction l as [|x l IH]; simpl; [done|]. by rewrite H, IH. Qed.

Lemma well_formed_fields (this this' : Net) (v : BufferObject) :
  fields this' = fields this -> well_formed this' v = well_formed this v.
Proof. intros F. destruct v; simpl; by rewrite ?F. Qed.

Lemma sound_buffer_alike (w w' : World) :
  fields (net w') = fields (net w) ->
  persistedDataBuffer (net w') = persistedDataBuffer (net w) ->
  sound_buffer w -> sound_buffer w'.
Proof.
  unfold sound_buffer. intros F ->. intros H.
  rewrite <- H. apply forallb_alike. intros v. by apply well_formed_fields.
Qed.

Lemma sound_buffer_push (v : BufferObject) (w : World) :
  well_formed (net w) v = true -> sound_buffer w -> sound_buffer (push v w).
Proof.
  unfold sound_buffer. simpl. intros Hv H.
  rewrite forallb_app. simpl.
  rewrite andb_true_r.
  apply andb_true_iff. split; [|exact Hv]. exact H.
Qed.

Lemma run_keeps_buffer_sound (actions : list Action) (w : World) :
  keeps_buffer_sound w (run actions w).
Proof.
  apply run_respects; unfold keeps_buffer_sound.
  - done.
  - intros w1 w2 w3 [F1 H1] [F2 H2]. split; [congruence|auto].
  - intros e w0. split; [done|]. by apply sound_buffer_alike.
  - intros db s w0. split; [done|]. by apply sound_buffer_alike.
  - intros k w0. split; [done|]. by apply sound_buffer_alike.
  - intros ch s w0. split; [done|]. by apply sound_buffer_alike.
  - intros t m v w0. split; [done|]. by apply sound_buffer_push.
  - intros a m p t w0. split; [done|]. by apply sound_buffer_push.
  - intros result token w0 w1 E.
    destruct (bufferResponse_net _ _ _ _ E) as ([pre F] & F1 & _ & _ & B & _).
    split; [done|]. unfold sound_buffer. rewrite B, forallb_app. intros H.
    apply andb_true_iff. split.
    + rewrite <- H. apply forallb_alike. intros v. by apply well_formed_fields.
    + simpl. by rewrite F1, F.
  - intros db w0. destruct (persist_net db w0) as (F & _ & [B|B]).
    + split; [done|]. unfold sound_buffer. by rewrite B.
    + split; [done|]. by apply sound_buffer_alike.
Qed.

Lemma schedule_sound (this : Net) (db d : nat) (buffer : list BufferObject) :
  database this = Some d ->
  forallb (well_formed this) buffer = true ->
  snd (schedule this db buffer) = None.
Proof.
  intros D. induction buffer as [|v buffer IH]; [done|].
  cbn [forallb]. intros H. apply andb_true_iff in H as [Hv H].
  rewrite schedule_cons.
  destruct v as [t m value|arg m pk type|result ch].
  - destruct m; simpl; by apply IH.
  - rewrite push_dispatch.
    destruct (push_call db arg m pk type) as [[ev op]|]; simpl; by apply IH.
  - simpl in Hv. unfold materialize, handleRequestCache.
    pose proof (getInfoFromResult_declared this result) as G.
    destruct (fields this !! tableName result) as [pre|]; [|done].
    destruct G as [q ->]. rewrite D.
    destruct (cacheValidate result);
      [destruct (negb _)|]; simpl; by apply IH.
Qed.

(** X13. [persist] never throws on an engine that was built by the
    constructor and then used through its methods, whatever was done to
    it: every pending read in the buffer passed the schema check when it
    was issued, and the schemas do not change. The call attaches the
    store, unless one is attached already, empties the buffer and returns
    the stream of the drain. *)
Theorem attach_never_throws (schemas : list (string * SchemaDef))
    (dbs : nat -> Store) (actions : list Action) (db : nat) :
  let w := run actions (boot schemas dbs) in
  exists drain,
    persist db w
    = (set_net (mkNet (fields (net w)) (Some (default db (database (net w))))
                  (requestMap (net w)) (primaryKeys (net w)) []) w,
       inr drain).
Proof.
  intros w.
  assert (S : sound_buffer w).
  { apply (run_keeps_buffer_sound actions (boot schemas dbs)).
    unfold sound_buffer, boot, Net_new. simpl.
    by destruct (forEach schemas _ _). }
  unfold persist.
  set (this1 := match Engine.database (net w) with
                | None => _
                | Some _ => net w
                end).
  assert (H : fields this1 = fields (net w)
              /\ requestMap this1 = requestMap (net w)
              /\ primaryKeys this1 = primaryKeys (net w)
              /\ persistedDataBuffer this1 = persistedDataBuffer (net w)
              /\ database this1 = Some (default db (database (net w)))).
  { subst this1. destruct (Engine.database (net w)) eqn:D; simpl; by rewrite ?D. }
  destruct H as (H1 & H2 & H3 & H4 & H5).
  pose proof (schedule_sound this1 db _ (persistedDataBuffer this1) H5) as Q.
  destruct (schedule this1 db (persistedDataBuffer this1)) as [queue [e|]].
  - exfalso. simpl in Q. rewrite H4 in Q.
    assert (Some e = None); [|done]. apply Q. rewrite <- S.
    apply forallb_alike. intros v. by apply well_formed_fields.
  - eexists. by rewrite H1, H2, H3, H5.
Qed.

End Invariants.

(** ** Reads and the network *)

Section Network.

Import Engine.

Context {X : Collaborators}.

Lemma network_calls_app (t1 t2 : list Event) :
  network_calls (t1 ++ t2) = (network_calls t1 ++ network_calls t2)%list.
Proof. apply flat_map_app. Qed.

Lemma offline_refl (w : World) : offline w w.
Proof. exists []. by rewrite app_nil_r. Qed.

Lemma offline_trans (w1 w2 w3 : World) :
  offline w1 w2 -> offline w2 w3 -> offline w1 w3.
Proof.
  intros (t1 & E1 & N1) (t2 & E2 & N2). exists (t1 ++ t2)%list.
  rewrite E2, E1, <- app_assoc, network_calls_app, N1, N2. done.
Qed.

Lemma offline_calls (w w' : World) :
  offline w w' -> network_calls (trace w') = network_calls (trace w).
Proof.
  intros (t & -> & N). by rewrite network_calls_app, N, app_nil_r.
Qed.

Lemma settle_paddings_offline (tableName : string)
    (ps : list (JsVal * option Reply)) (w : World) :
  offline w (settled_in (settle_paddings tableName ps w)).
Proof.
  revert w. induction ps as [|[datum [[r|e]|]] ps IH]; intros w; simpl;
    try apply offline_refl; try apply IH.
  destruct (not_nullish r); [|apply IH].
  unfold on_database.
  destruct (database (net w)) as [d|]; [|apply offline_refl].
  unfold upsert, run_store. simpl.
  destruct (db_upsert tableName r (stores w d)) as [e|s]; simpl.
  - exists [Upserted d tableName r]. done.
  - eapply offline_trans; [|apply IH]. exists [Upserted d tableName r]. done.
Qed.

Lemma validate_offline (result : ApiResult) (data : list JsVal) :
  respects offline (validate result data).
Proof.
  intros w. unfold validate. destruct data as [|datum data]; [apply offline_refl|].
  rewrite ask_paddings_spec.
  set (ps := map _ (datum :: data)).
  set (w1 := mkWorld _ _ _ _).
  assert (H1 : offline w w1).
  { eexists. split; [reflexivity|].
    clear. induction (datum :: data) as [|x l IH]; [done|].
    simpl. rewrite network_calls_app, IH, app_nil_r.
    unfold padding_call. destruct (padding_setup (net w) result) as [[[pad pk] req]|]; [|done].
    by destruct (complete req x). }
  pose proof (settle_paddings_offline (tableName result) ps w1) as H2.
  assert (H : offline w (settled_in (settle_paddings (tableName result) ps w1)))
    by (eapply offline_trans; eauto).
  destruct (first_error _); [exact H|]. by destruct (count _).
Qed.

Lemma stored_values_offline (d : nat) (t : string) (q : JsVal)
    (fn : option ApiResult) :
  respects offline (values (mkSelector (FromStore d t q) fn)).
Proof.
  assert (H : respects offline
                (fun w => let w1 := log (RowsRead d t q) w in
                          match db_get t q (stores w d) with
                          | inr rows => mkOutcome [rows] None w1
                          | inl e => mkOutcome [] (Some e) w1
                          end)).
  { intros w. simpl. destruct (db_get t q (stores w d)); simpl;
      by exists [RowsRead d t q]. }
  unfold values. simpl. destruct fn as [result|]; [|exact H].
  apply (concatMap_respects offline offline_refl offline_trans); [exact H|].
  intros data. apply validate_offline.
Qed.

End Network.

Section ReadsAndTheNetwork.

Import Engine.

Context {X : Collaborators}.

Lemma concatMap_after {A B : Type} (project : A -> Observable B)
    (src : Observable A) (w : World) :
  after (concatMap project src w)
  = after (concat_each project (emitted (src w)) (after (src w))).
Proof. unfold concatMap. by destruct (failure (concat_each _ _ _)). Qed.

Lemma keeps_marks_refl (w : World) : keeps_marks w w.
Proof. by intros k. Qed.

Lemma keeps_marks_trans (w1 w2 w3 : World) :
  keeps_marks w1 w2 -> keeps_marks w2 w3 -> keeps_marks w1 w3.
Proof. intros H1 H2 k Hk. by apply H2, H1. Qed.

Lemma values_keep_marks (vs : list SelectorMeta) :
  respects keeps_marks (concat_each values vs).
Proof.
  apply (concat_each_respects keeps_marks keeps_marks_refl keeps_marks_trans).
  intros s.
  apply (values_respects keeps_marks keeps_marks_refl keeps_marks_trans);
    by intros ? ? ? ?.
Qed.

Lemma selected_query_fields (this this' : Net) (result : ApiResult) :
  fields this' = fields this ->
  getInfoFromResult this' result = getInfoFromResult this result.
Proof. intros F. unfold getInfoFromResult. by rewrite F. Qed.

(** A read whose key is marked asks the store only. *)
Lemma marked_read_is_offline (result : ApiResult) (w : World) (d : nat) :
  database (net w) = Some d ->
  is_Some (fields (net w) !! tableName result) ->
  cacheValidate result = Request ->
  requestMap (net w)
    !! genCacheKey (tableName result) (selected_query (net w) result) = Some true ->
  offline w (step (Read result) w).
Proof.
  intros D [pre F] S M. unfold step, handleApiResult, handleRequestCache.
  rewrite D. unfold selected_query in M.
  pose proof (getInfoFromResult_declared (net w) result) as G.
  rewrite F in G. destruct G as [q G]. rewrite G in *. rewrite S, M.
  cbn [default negb id]. unfold QueryToken_values. rewrite concatMap_after.
  cbn [selector_ QueryToken_map dbGetWithSelfJoinEnabled mapEach emitted after
       map source concat_each].
  set (o := values _ _).
  assert (H : offline w (after o)).
  { eapply offline_trans; [|apply stored_values_offline].
    by exists [Got d (tableName result) q]. }
  by destruct (failure o).
Qed.

(** A read with the strategy [Request] whose request and upsert succeed
    leaves its key marked. *)
Lemma answered_read_marks (result : ApiResult) (w : World) (d : nat)
    (v : JsVal) (s : Store) :
  database (net w) = Some d ->
  is_Some (fields (net w) !! tableName result) ->
  cacheValidate result = Request ->
  reply (request result) = Emits v ->
  db_upsert (tableName result) v (stores w d) = inr s ->
  requestMap (net (step (Read result) w))
    !! genCacheKey (tableName result) (selected_query (net w) result) = Some true.
Proof.
  intros D [pre F] S Rp U. unfold step, handleApiResult, handleRequestCache.
  rewrite D. unfold selected_query.
  pose proof (getInfoFromResult_declared (net w) result) as G.
  rewrite F in G. destruct G as [q G]. rewrite G, S.
  set (key := genCacheKey (tableName result) q).
  destruct (default false (requestMap (net w) !! key)) eqn:M; cbn [negb].
  - cbn [id]. unfold QueryToken_values. rewrite concatMap_after.
    apply values_keep_marks. simpl.
    destruct (requestMap (net w) !! key) as [[|]|]; done.
  - cbn [id]. unfold QueryToken_values. rewrite concatMap_after.
    apply values_keep_marks.
    cbn [selector_ QueryToken_map mapEach after].
    unfold fetch_then_get. rewrite !concatMap_after.
    unfold tap, concatMap, subscribe, on_database, upsert, run_store.
    rewrite Rp. simpl. rewrite U. simpl. by rewrite lookup_insert_eq.
Qed.

(** X15. A read with the strategy [Request] whose request is answered and
    whose answer the store takes leaves its cache key marked, and the
    mark stays whatever is done to the engine afterwards. The same read
    issued again, at any later time, asks the store only: its rows are
    read, and completed where fields are missing, without a transport
    call. *)
Theorem marked_reads_stay_off_the_network (result : ApiResult) (w : World)
    (d : nat) (v : JsVal) (s : Store) (actions : list Action) :
  database (net w) = Some d ->
  is_Some (fields (net w) !! tableName result) ->
  cacheValidate result = Request ->
  reply (request result) = Emits v ->
  db_upsert (tableName result) v (stores w d) = inr s ->
  let key := genCacheKey (tableName result) (selected_query (net w) result) in
  let w1 := run actions (step (Read result) w) in
  requestMap (net w1) !! key = Some true
  /\ network_calls (trace (step (Read result) w1)) = network_calls (trace w1).
Proof.
  intros D F S Rp U key w1.
  assert (M : requestMap (net w1) !! key = Some true).
  { apply (run_keeps_marks actions). by eapply answered_read_marks. }
  split; [exact M|].
  assert (A : stays_attached w w1).
  { eapply stays_attached_trans; [apply step_stays_attached|apply run_stays_attached]. }
  destruct A as (A1 & _ & A3).
  apply offline_calls, (marked_read_is_offline result w1 d); auto.
  - by rewrite A1.
  - unfold selected_query. by rewrite (selected_query_fields (net w) (net w1)).
Qed.

(** X16. A read with the strategy [Cache], issued while a store is
    attached, subscribes to its request every time, exactly once, whether
    the request, the upsert and the query of the store succeed or not;
    it marks no cache key. *)
Theorem cache_reads_always_fetch (result : ApiResult) (w : World) (d : nat) :
  database (net w) = Some d ->
  is_Some (fields (net w) !! tableName result) ->
  cacheValidate result = Cache ->
  network_calls (trace (step (Read result) w))
  = (network_calls (trace w) ++ [r_id (request result)])%list
  /\ requestMap (net (step (Read result) w)) = requestMap (net w).
Proof.
  intros D [pre F] S. unfold step, handleApiResult, handleRequestCache.
  rewrite D.
  pose proof (getInfoFromResult_declared (net w) result) as G.
  rewrite F in G. destruct G as [q G]. rewrite G, S.
  unfold QueryToken_values. rewrite concatMap_after.
  cbn [selector_]. unfold fetch_then_get, concatMap, subscribe, on_database,
    upsert, run_store, dbGetWithSelfJoinEnabled, values.
  destruct (reply (request result)) as [v|e]; simpl.
  - destruct (db_upsert (tableName result) v (stores w d)) as [e|s]; simpl.
    + rewrite <- ?app_assoc, network_calls_app. by split.
    + rewrite Nat.eqb_refl.
      destruct (db_get (tableName result) q s); simpl;
        rewrite <- ?app_assoc, network_calls_app; by split.
  - by rewrite network_calls_app.
Qed.

End ReadsAndTheNetwork.

(** ** The constructor *)

Section Constructor.

Import Engine.

Context {X : Collaborators}.

Lemma forEach_primaryKey (name : string) (schema : SchemaDef)
    (pks : gmap string string) :
  forEach schema
    (fun (col : string * ColumnDef) (pks : gmap string string) =>
       if primaryKey (snd col)
       then (<[name := fst col]> pks, false)
       else (pks, true)) pks
  = match declared_pk schema with
    | Some k => <[name := k]> pks
    | None => pks
    end.
Proof.
  unfold declared_pk. induction schema as [|col schema IH]; [done|].
  simpl. destruct (primaryKey (snd col)); [done|exact IH].
Qed.

Lemma Net_new_acc (schemas : list (string * SchemaDef))
    (fs : gmap string (list string)) (pks : gmap string string) (t : string) :
  NoDup (map fst schemas) ->
  let st :=
    forEach schemas
      (fun (d : string * SchemaDef)
           (st : gmap string (list string) * gmap string string) =>
         let '(name, schema) := d in
         let '(fs, pks) := st in
         let fs' :=
           <[name := map fst (List.filter (fun kv => negb (virtual (snd kv))) schema)]> fs in
         let pks' :=
           forEach schema
             (fun (col : string * ColumnDef) (pks : gmap string string) =>
                if primaryKey (snd col)
                then (<[name := fst col]> pks, false)
                else (pks, true)) pks in
         ((fs', pks'), true))
      (fs, pks) in
  fst st !! t = match alist_get t schemas with
                | Some schema => Some (stored_columns schema)
                | None => fs !! t
                end
  /\ snd st !! t = match alist_get t schemas with
                   | Some schema =>
                       match declared_pk schema with
                       | Some k => Some k
                       | None => pks !! t
                       end
                   | None => pks !! t
                   end.
Proof.
  revert fs pks.
  induction schemas as [|[name schema] schemas IH]; intros fs pks N; [done|].
  simpl in N. apply NoDup_cons in N as [N1 N2].
  cbn [forEach]. rewrite forEach_primaryKey.
  specialize (IH (<[name := stored_columns schema]> fs)
                (match declared_pk schema with
                 | Some k => <[name := k]> pks
                 | None => pks
                 end) N2).
  cbn zeta in IH. unfold stored_columns in *.
  destruct IH as [IH1 IH2]. rewrite IH1, IH2. cbn [alist_get].
  destruct (String.eqb_spec t name) as [->|Ne].
  - rewrite alist_get_absent by done. rewrite lookup_insert_eq. split; [done|].
    destruct (declared_pk schema); [by rewrite lookup_insert_eq|done].
  - destruct (alist_get t schemas) as [schema'|].
    + split; [done|]. destruct (declared_pk schema'); [done|].
      destruct (declared_pk schema); [by rewrite lookup_insert_ne|done].
    + rewrite lookup_insert_ne by done. split; [done|].
      destruct (declared_pk schema); [by rewrite lookup_insert_ne|done].
Qed.

(** X8. What the constructor registers, and keeps for good. For schemas
    with different names: the fields of a table are the names of the
    columns of its schema that are not virtual, in the order of the
    schema, and its primary key is the first column marked as one; a
    table without schema has neither. Nothing that is done to the engine
    afterwards changes this. *)
Theorem schemas_are_registered_for_good (schemas : list (string * SchemaDef))
    (dbs : nat -> Store) (actions : list Action) (t : string) :
  NoDup (map fst schemas) ->
  let this := net (run actions (boot schemas dbs)) in
  fields this !! t = stored_columns <$> alist_get t schemas
  /\ primaryKeys this !! t = alist_get t schemas ≫= declared_pk.
Proof.
  intros N this.
  destruct (run_stays_attached actions (boot schemas dbs)) as (F & P & _).
  subst this. rewrite F, P. unfold boot, Net_new. cbn [net].
  pose proof (Net_new_acc schemas ∅ ∅ t N) as H. cbn zeta in H.
  destruct (forEach schemas _ (∅, ∅)) as [fs pks]. cbn [fields primaryKeys fst snd] in *.
  destruct H as [-> ->]. rewrite !lookup_empty.
  destruct (alist_get t schemas) as [schema|]; [|done].
  simpl. split; [done|]. by destruct (declared_pk schema).
Qed.

End Constructor.

(** ** The query of a read, and writes *)

Section SelectedFields.

Import Engine.

Lemma forEach_fields (set : list string) (pre : list string) (acc : list JsVal) :
  forEach pre
    (fun f (acc : list JsVal) =>
       (if existsb (String.eqb f) set then acc else (acc ++ [VStr f])%list, true))
    acc
  = (acc ++ map VStr
              (List.filter (fun f => negb (existsb (String.eqb f) set)) pre))%list.
Proof.
  revert acc. induction pre as [|f pre IH]; intros acc; simpl.
  - by rewrite app_nil_r.
  - rewrite IH. destruct (existsb (String.eqb f) set); simpl; [done|].
    by rewrite <- app_assoc.
Qed.

(** X9. The query a read selects with, for a table that has a schema:
    the query of the caller with its entry [fields] replaced; the new
    [fields] are the associated fields, if there are any, followed by the
    columns of the table that are not excluded; every other entry of the
    query is kept. *)
Theorem read_selects_the_declared_columns (this : Net) (result : ApiResult)
    (pre : list string) :
  fields this !! tableName result = Some pre ->
  exists o,
    getInfoFromResult this result
    = inr (request result, VObj o, cacheValidate result, tableName result)
    /\ alist_get "fields" o = Some (VArr (selected_fields pre result))
    /\ forall k, k <> "fields" -> alist_get k o = alist_get k (spread (query result)).
Proof.
  intros F. unfold getInfoFromResult. rewrite F. rewrite forEach_fields.
  eexists. split; [reflexivity|]. split.
  - apply alist_get_set_eq.
  - intros k Hk. apply alist_get_set_ne. by apply String.eqb_neq.
Qed.

End SelectedFields.

Section Writes.

Import Engine.

Context {X : Collaborators}.

(** X10. A write issued while the store [d] is attached. Its stream
    subscribes to the request. If the request fails, the stream fails
    with that error and the store is not called. Otherwise the store is
    called once, with an upsert of the answer for a create or an update
    and with a delete of the clause for a delete; the stream emits the
    answer of the network if the store takes the call, and fails with
    the error of the store, emitting nothing, if it does not. The engine
    itself is left as it was. *)
Theorem write_reaches_the_store (result : CUDApiResult) (w : World) (d : nat) :
  database (net w) = Some d ->
  let o := handleCUDAResult (net w) result w in
  let fetched := (trace w ++ [Fetched (r_id (cud_request result))])%list in
  net (after o) = net w
  /\ match reply (cud_request result) with
     | Throws e =>
         failure o = Some e /\ emitted o = []
         /\ trace (after o) = fetched /\ stores (after o) = stores w
     | Emits v =>
         match snd (write_call d result v) (stores w d) with
         | inr s =>
             failure o = None /\ emitted o = [v]
             /\ trace (after o) = (fetched ++ [fst (write_call d result v)])%list
             /\ stores (after o) = stores (set_store d s w)
         | inl e =>
             failure o = Some e /\ emitted o = []
             /\ trace (after o) = (fetched ++ [fst (write_call d result v)])%list
             /\ stores (after o) = stores w
         end
     end.
Proof.
  intros D o fetched. subst o fetched. unfold handleCUDAResult. rewrite D.
  unfold concatMap, subscribe, write_call.
  destruct (reply (cud_request result)) as [v|e]; [|by repeat split].
  cbn [emitted after failure concat_each].
  destruct (cud_method result); unfold mapTo, upsert, delete, run_store;
    cbn [stores log fst snd];
    match goal with
    | |- context [match ?op (stores w d) with inl _ => _ | inr _ => _ end] =>
        destruct (op (stores w d))
    end; by repeat split.
Qed.

(** X11. With an empty buffer and no store attached, a write followed by
    the attachment of a store leaves the same stores, the same engine,
    the same placeholders and the same trace as the attachment followed
    by the write, whether the request fails, the store refuses the call
    or it accepts it. *)
Theorem write_before_or_after_attach (result : CUDApiResult) (db : nat)
    (w : World) :
  database (net w) = None ->
  persistedDataBuffer (net w) = [] ->
  let early := run [Write result; Attach db] w in
  let late := run [Attach db; Write result] w in
  stores early = stores late
  /\ net early = net late
  /\ subjects early = subjects late
  /\ trace early = trace late.
Proof.
  intros D B early late. subst early late.
  destruct w as [[f d r p b] st sj tr]. simpl in D, B. subst d b.
  unfold run, step, handleCUDAResult, bufferCUDResponse, persist, tap,
    concatMap, subscribe, log_error, await_toPromise.
  cbn [fold_left net database persistedDataBuffer].
  rewrite schedule_nil.
  destruct (reply (cud_request result)) as [v|e]; simpl.
  - rewrite schedule_cons.
    destruct (cud_method result); cbn [materialize fst snd];
      rewrite schedule_nil; cbn [fst snd];
      unfold tapError, concatAll, mapTo, upsert, delete, run_store; simpl;
      match goal with
      | |- context [match ?op (st db) with inl _ => _ | inr _ => _ end] =>
          destruct (op (st db))
      end; simpl; repeat split; eauto.
  - rewrite ?schedule_nil. simpl. repeat split; eauto.
Qed.

End Writes.

(** ** Before a store is attached *)

Section BeforeAttach.

Import Engine.

Context {X : Collaborators}.

Lemma detached_refl (w : World) : detached w w.
Proof. by intros D. Qed.

Lemma detached_trans (w1 w2 w3 : World) :
  detached w1 w2 -> detached w2 w3 -> detached w1 w3.
Proof.
  intros H1 H2 D. destruct (H1 D) as [D2 S2]. destruct (H2 D2) as [D3 S3].
  split; [done|congruence].
Qed.

Lemma detached_log (e : Event) (w : World) : detached w (log e w).
Proof. by intros D. Qed.

Lemma settle_paddings_detached (tableName : string)
    (ps : list (JsVal * option Reply)) (w : World) :
  detached w (settled_in (settle_paddings tableName ps w)).
Proof.
  intros D. induction ps as [|[datum [[r|e]|]] ps IH]; simpl; try done.
  destruct (not_nullish r); [|done]. by rewrite D.
Qed.

Lemma validate_detached (result : ApiResult) (data : list JsVal) :
  respects detached (validate result data).
Proof.
  intros w. unfold validate. destruct data as [|datum data]; [apply detached_refl|].
  pose proof (ask_paddings_respects detached detached_refl detached_trans
                detached_log (padding_setup (net w) result) (datum :: data) w) as H1.
  destruct (ask_paddings (padding_setup (net w) result) (datum :: data) w)
    as [ps w1]. cbn [snd] in H1.
  pose proof (settle_paddings_detached (tableName result) ps w1) as H2.
  assert (H : detached w (settled_in (settle_paddings (tableName result) ps w1)))
    by (eapply detached_trans; eauto).
  destruct (first_error _); [exact H|]. by destruct (count _).
Qed.

Lemma values_detached (s : SelectorMeta) : respects detached (values s).
Proof.
  assert (H : respects detached
                match source s with
                | FromStore db table q =>
                    fun w =>
                      let w1 := log (RowsRead db table q) w in
                      match db_get table q (stores w db) with
                      | inr rows => mkOutcome [rows] None w1
                      | inl e => mkOutcome [] (Some e) w1
                      end
                | FromRequest request _ _ => mapEach as_rows (subscribe request)
                end).
  { destruct (source s) as [db table q|request q table].
    - intros w. simpl. destruct (db_get table q (stores w db)); by intros D.
    - apply mapEach_respects, subscribe_respects, detached_log. }
  unfold values. destruct (mapFn s) as [result|]; [|exact H].
  apply (concatMap_respects detached detached_refl detached_trans); [exact H|].
  intros data. apply validate_detached.
Qed.

Lemma step_detached (a : Action) (w : World) :
  match a with
  | Attach _ => True
  | _ => detached w (step a w)
  end.
Proof.
  destruct a as [result|result|result|arg m pk type|db]; [| | | |done].
  - intros D. simpl. unfold handleApiResult. rewrite D.
    destruct (bufferResponse result w) as [e|[token w1]] eqn:E; [done|].
    destruct (bufferResponse_net _ _ _ _ E) as (_ & _ & D1 & _ & _ & S1 & _).
    rewrite (bufferResponse_token _ _ _ _ E).
    assert (H : detached w1
                  (after (QueryToken_values
                            (QueryToken_map result
                               (mkQueryToken (subject_stream (length (subjects w)))))
                            w1))).
    { apply (concatMap_respects detached detached_refl detached_trans).
      - simpl. apply mapEach_respects, subject_stream_respects, detached_refl.
      - apply values_detached. }
    destruct H as [D2 S2]; [congruence|]. split; congruence.
  - intros D. simpl. unfold handleCUDAResult. rewrite D.
    revert D. apply (tap_respects detached detached_refl detached_trans).
    + apply subscribe_respects, detached_log.
    + by intros v w0 D0.
  - simpl. apply (tap_respects detached detached_refl detached_trans).
    + apply subscribe_respects, detached_log.
    + by intros v w0 D0.
  - by intros D.
Qed.

(** X12. As long as no store is attached, nothing the engine is asked to
    do reaches a store: after any reads, writes, late answers and pushes
    the stores are what they were, and still none is attached. A read
    whose rows need padding fails at the upsert rather than touching a
    store. *)
Theorem nothing_reaches_a_store_before_attach (actions : list Action)
    (w : World) :
  database (net w) = None ->
  Forall (fun a => match a with
                   | Attach _ => False
                   | _ => True
                   end) actions ->
  stores (run actions w) = stores w
  /\ database (net (run actions w)) = None.
Proof.
  intros D H. revert w D. unfold run.
  induction H as [|a actions Ha H IH]; intros w D; [done|].
  cbn [fold_left]. pose proof (step_detached a w) as S.
  destruct a; try done; destruct (S D) as [D1 S1];
    destruct (IH _ D1) as [IH1 IH2]; split; congruence.
Qed.

End BeforeAttach.

(** ** The hand-over to the store *)

Section HandOver.

Import Engine.

Context {X : Collaborators}.

(** X14. A read issued while no store is attached, into an empty buffer,
    and then the attachment of the store [db]. Issuing the read makes a
    placeholder that holds the selector over the network answer, and
    buffers the read; nothing is sent. Attaching the store runs the read
    against it and, if its request and upsert succeed, hands the selector
    of the store to the placeholder as the last thing it does; the
    selector carries the field completion for the strategy [Request]
    only. *)
Theorem pending_read_is_handed_the_store (result : ApiResult) (w : World)
    (db : nat) (v : JsVal) (s : Store) :
  database (net w) = None ->
  persistedDataBuffer (net w) = [] ->
  is_Some (fields (net w) !! tableName result) ->
  reply (request result) = Emits v ->
  db_upsert (tableName result) v (stores w db) = inr s ->
  let placeholder := length (subjects w) in
  let t := tableName result in
  let q := selected_query (net w) result in
  let w1 := issued result w in
  let w2 := step (Attach db) w1 in
  persistedDataBuffer (net w1) = [Selector result placeholder]
  /\ subjects w1 !! placeholder
     = Some (mkSelector (FromRequest (request result) q t) None)
  /\ trace w1 = trace w
  /\ subjects w2 !! placeholder
     = Some (mkSelector (FromStore db t q)
               match cacheValidate result with
               | Request => Some result
               | Cache => None
               end)
  /\ persistedDataBuffer (net w2) = []
  /\ last (trace w2) = Some (Forwarded placeholder).
Proof.
  intros D B [pre F] Rp U placeholder t q w1 w2.
  subst placeholder t q w1 w2.
  unfold issued, handleApiResult, selected_query. rewrite D.
  unfold bufferResponse.
  pose proof (getInfoFromResult_declared (net w) result) as G.
  rewrite F in G. destruct G as [q G]. rewrite G.
  destruct w as [[f d r p b] st sj tr]. simpl in D, B, F, G, U. subst d b.
  cbn [net set_net push persistedDataBuffer subjects trace app fields database
       requestMap primaryKeys stores].
  assert (L : (sj ++ [mkSelector (FromRequest (request result) q (tableName result)) None])%list
              !! length sj
              = Some (mkSelector (FromRequest (request result) q (tableName result)) None)).
  { rewrite lookup_app_r by done. by rewrite Nat.sub_diag. }
  split; [reflexivity|]. split; [exact L|]. split; [reflexivity|].
  unfold step, persist.
  cbn [net set_net push persistedDataBuffer subjects trace app fields database
       requestMap primaryKeys stores].
  rewrite schedule_cons. unfold materialize, handleRequestCache.
  match goal with
  | |- context [getInfoFromResult ?n result] =>
      change (getInfoFromResult n result)
        with (getInfoFromResult (mkNet f None r p []) result)
  end.
  rewrite G. cbn [database requestMap].
  assert (W : forall (sel : Observable SelectorMeta) fn w0,
            failure (sel w0) = None ->
            emitted (sel w0) = [mkSelector (FromStore db (tableName result) q) None] ->
            subjects (after (sel w0))
            = (sj ++ [mkSelector (FromRequest (request result) q (tableName result)) None])%list ->
            persistedDataBuffer (net (after (sel w0))) = [] ->
            let o := tapError log_error
                       (concatAll
                          [mapTo tt (tap (forward (length sj))
                                       (selector_ (match fn with
                                                   | Some fn => QueryToken_map fn (mkQueryToken sel)
                                                   | None => mkQueryToken sel
                                                   end)))]) w0 in
            subjects (after o) !! length sj
            = Some (mkSelector (FromStore db (tableName result) q) fn)
            /\ persistedDataBuffer (net (after o)) = []
            /\ last (trace (after o)) = Some (Forwarded (length sj))).
  { intros sel fn w0 Hf He Hs Hb o. subst o.
    unfold tapError, concatAll. cbn [concat_each].
    unfold mapTo, tap.
    destruct fn as [fn|]; cbn [selector_ QueryToken_map mapEach emitted failure after];
      rewrite Hf, He; cbn [map fold_left source emitted failure after app];
      unfold forward; cbn [subjects net log trace persistedDataBuffer];
      rewrite Hs, Hb, last_snoc;
      (split; [|done]);
      apply list_lookup_insert_eq; rewrite length_app; simpl; lia. }
  destruct (cacheValidate result).
  - destruct (default false (r !! genCacheKey (tableName result) q)) eqn:M;
      cbn [negb fst snd]; rewrite schedule_nil; cbn [fst snd].
    + apply (W (selector_ (dbGetWithSelfJoinEnabled db (tableName result) q))
               (Some result)); reflexivity.
    + apply (W (fetch_then_get (Some db) (request result) (tableName result) q
                  (Some (genCacheKey (tableName result) q)))
               (Some result));
        unfold fetch_then_get, concatMap, tap, subscribe, on_database, upsert,
          run_store; rewrite Rp; simpl; rewrite U; reflexivity.
  - cbn [fst snd]. rewrite schedule_nil. cbn [fst snd].
    apply (W (fetch_then_get (Some db) (request result) (tableName result) q None) None);
      unfold fetch_then_get, concatMap, tap, subscribe, on_database, upsert,
        run_store; rewrite Rp; simpl; rewrite U; reflexivity.
Qed.

End HandOver.

(** ** Rows that need no padding *)

Section CompleteRows.

Import Engine.

Context {X : Collaborators}.

Lemma settle_unpatched (t : string) (data : list JsVal) (w : World) :
  settle_paddings t (map (fun datum => (datum, None)) data) w
  = mkSettled data (length data) None w.
Proof. induction data as [|datum data IH]; simpl; [done|]. by rewrite IH. Qed.

(** Where no row is to be patched, [validate] hands the rows on. *)
Lemma validate_unpatched (result : ApiResult)
    (data : list JsVal) (w : World) :
  (forall pad pk req,
     padding_setup (net w) result = Some (pad, pk, req) ->
     Forall (fun datum => complete req datum = true) data) ->
  validate result data w = mkOutcome [data] None w.
Proof.
  intros H. unfold validate. destruct data as [|datum data]; [done|].
  rewrite ask_paddings_spec.
  set (setup := padding_setup (net w) result) in *.
  assert (P : Forall (fun d => patch_of setup d = None /\ padding_call setup d = [])
                (datum :: data)).
  { unfold patch_of, padding_call.
    destruct setup as [[[pad pk] req]|]; [|by apply Forall_forall].
    eapply Forall_impl; [exact (H pad pk req eq_refl)|].
    intros d Hd. simpl in Hd. by rewrite Hd. }
  assert (E1 : map (fun d => (d, patch_of setup d)) (datum :: data)
               = map (fun d => (d, None)) (datum :: data)).
  { clear -P. induction P as [|d l [Hd _] _ IH]; [done|]. simpl. by rewrite Hd, IH. }
  assert (E2 : flat_map (padding_call setup) (datum :: data) = []).
  { clear -P. induction P as [|d l [_ Hd] _ IH]; [done|]. simpl. by rewrite Hd, IH. }
  rewrite E1, E2, app_nil_r, settle_unpatched. simpl. by destruct w.
Qed.

(** X17. [validate] leaves alone the rows it has nothing to do for: if
    padding is not set up for the read (no [required], no [padding], or
    no primary key for the table), or every row has all the required
    fields, the rows are emitted as they are, once, and nothing else
    happens: no padding call, no call of the store, with or without a
    store attached. *)
Theorem complete_rows_pass_unchanged (result : ApiResult)
    (data : list JsVal) (w : World) :
  (forall pad pk req,
     padding_setup (net w) result = Some (pad, pk, req) ->
     Forall (fun datum => complete req datum = true) data) ->
  validate result data w = mkOutcome [data] None w.
Proof. apply validate_unpatched. Qed.

End CompleteRows.

(** ** The engine in front of the reference store *)

Section EngineExamples.

Import Engine.

#[local] Existing Instance Reference.collaborators.

Lemma schemas_are_registered_for_good_witness :
  let this := net (run [Attach 0] (boot Reference.CustomField_schemas
                                     (fun _ => Reference.empty_store))) in
  fields this !! "CustomField"
  = Some ["_id"; "_creatorId"; "_organizationId"; "_projectId"; "_roleIds";
          "boundType"; "categoryIds"; "choices"; "created"; "description";
          "displayed"; "name"; "pos"; "type"; "updated"]
  /\ primaryKeys this !! "CustomField" = Some "_id".
Proof.
  assert (H : NoDup (map fst Reference.CustomField_schemas))
    by (apply (bool_decide_unpack _); vm_compute; reflexivity).
  exact (schemas_are_registered_for_good Reference.CustomField_schemas
           (fun _ => Reference.empty_store) [Attach 0] "CustomField" H).
Defined.

Lemma read_selects_the_declared_columns_witness :
  exists o,
    getInfoFromResult (net Reference.start) (Reference.read_tasks Cache)
    = inr (request (Reference.read_tasks Cache), VObj o, Cache, "tasks")
    /\ alist_get "fields" o = Some (VArr [VStr "_id"; VStr "content"]).
Proof.
  assert (H : fields (net Reference.start)
                !! tableName (Reference.read_tasks Cache)
              = Some ["_id"; "content"])
    by (vm_compute; reflexivity).
  destruct (read_selects_the_declared_columns (net Reference.start)
              (Reference.read_tasks Cache) ["_id"; "content"] H)
    as (o & E & F & _).
  exists o. split; [exact E|exact F].
Defined.

Lemma write_reaches_the_store_witness :
  emitted (handleCUDAResult (net Reference.attached) Reference.write_rowA
             Reference.attached)
  = [Reference.rowA].
Proof.
  assert (H : database (net Reference.attached) = Some 0)
    by (vm_compute; reflexivity).
  exact (proj1 (proj2 (proj2 (write_reaches_the_store Reference.write_rowA
                                Reference.attached 0 H)))).
Defined.

Lemma write_before_or_after_attach_witness :
  stores (run [Write Reference.write_rowA; Attach 0] Reference.start)
  = stores (run [Attach 0; Write Reference.write_rowA] Reference.start).
Proof.
  assert (H1 : database (net Reference.start) = None)
    by (vm_compute; reflexivity).
  assert (H2 : persistedDataBuffer (net Reference.start) = [])
    by (vm_compute; reflexivity).
  exact (proj1 (write_before_or_after_attach Reference.write_rowA 0
                  Reference.start H1 H2)).
Defined.

Lemma nothing_reaches_a_store_before_attach_witness :
  stores (run [Read (Reference.read_tasks Request);
               Write Reference.write_rowA;
               Push "tasks" Reference.destroy42 "_id" VNull]
            Reference.start42)
  = stores Reference.start42.
Proof.
  assert (H1 : database (net Reference.start42) = None)
    by (vm_compute; reflexivity).
  assert (H2 : Forall (fun a => match a with
                                | Attach _ => False
                                | _ => True
                                end)
                 [Read (Reference.read_tasks Request);
                  Write Reference.write_rowA;
                  Push "tasks" Reference.destroy42 "_id" VNull])
    by (repeat constructor).
  exact (proj1 (nothing_reaches_a_store_before_attach _ Reference.start42 H1 H2)).
Defined.

Lemma pending_read_is_handed_the_store_witness :
  let w1 := issued (Reference.read_tasks Cache) Reference.start in
  subjects (step (Attach 0) w1) !! 0
  = Some (mkSelector
            (FromStore 0 "tasks"
               (selected_query (net Reference.start) (Reference.read_tasks Cache)))
            None).
Proof.
  assert (H1 : database (net Reference.start) = None)
    by (vm_compute; reflexivity).
  assert (H2 : persistedDataBuffer (net Reference.start) = [])
    by (vm_compute; reflexivity).
  assert (H3 : is_Some (fields (net Reference.start)
                          !! tableName (Reference.read_tasks Cache)))
    by (vm_compute; eauto).
  assert (H4 : reply (request (Reference.read_tasks Cache))
               = Emits (VArr [Reference.rowA]))
    by reflexivity.
  assert (H5 : db_upsert (tableName (Reference.read_tasks Cache))
                 (VArr [Reference.rowA]) (stores Reference.start 0)
               = inr [("tasks", Reference.mkTable "_id" [Reference.rowA])])
    by (vm_compute; reflexivity).
  exact (proj1 (proj2 (proj2 (proj2
           (pending_read_is_handed_the_store (Reference.read_tasks Cache)
              Reference.start 0 _ _ H1 H2 H3 H4 H5))))).
Defined.

Lemma marked_reads_stay_off_the_network_witness :
  let read := Read (Reference.read_tasks Request) in
  let w1 := run [Write Reference.write_rowA] (step read Reference.attached) in
  network_calls (trace w1) = [3; 6]
  /\ network_calls (trace (step read w1)) = network_calls (trace w1).
Proof.
  assert (H1 : database (net Reference.attached) = Some 0)
    by (vm_compute; reflexivity).
  assert (H2 : is_Some (fields (net Reference.attached)
                          !! tableName (Reference.read_tasks Request)))
    by (vm_compute; eauto).
  assert (H3 : cacheValidate (Reference.read_tasks Request) = Request)
    by reflexivity.
  assert (H4 : reply (request (Reference.read_tasks Request))
               = Emits (VArr [Reference.rowA]))
    by reflexivity.
  assert (H5 : db_upsert (tableName (Reference.read_tasks Request))
                 (VArr [Reference.rowA]) (stores Reference.attached 0)
               = inr [("tasks", Reference.mkTable "_id" [Reference.rowA])])
    by (vm_compute; reflexivity).
  split; [vm_compute; reflexivity|].
  exact (proj2 (marked_reads_stay_off_the_network (Reference.read_tasks Request)
                  Reference.attached 0 _ _ [Write Reference.write_rowA]
                  H1 H2 H3 H4 H5)).
Defined.

Lemma cache_reads_always_fetch_witness :
  network_calls (trace (step (Read (Reference.read_tasks Cache))
                          Reference.attached))
  = [3].
Proof.
  assert (H1 : database (net Reference.attached) = Some 0)
    by (vm_compute; reflexivity).
  assert (H2 : is_Some (fields (net Reference.attached)
                          !! tableName (Reference.read_tasks Cache)))
    by (vm_compute; eauto).
  assert (H3 : cacheValidate (Reference.read_tasks Cache) = Cache)
    by reflexivity.
  exact (proj1 (cache_reads_always_fetch (Reference.read_tasks Cache)
                  Reference.attached 0 H1 H2 H3)).
Defined.

Lemma complete_rows_pass_unchanged_witness :
  validate (Reference.read_tasks Request) [Reference.noted_rowA]
    Reference.attached
  = mkOutcome [[Reference.noted_rowA]] None Reference.attached.
Proof.
  apply complete_rows_pass_unchanged.
  intros pad pk req E. vm_compute in E. injection E as <- <- <-.
  repeat constructor.
Defined.

End EngineExamples.

(** ** Reads issued before a store is attached *)

Section ReadsBeforeAttach.

Import Engine.

Context {X : Collaborators}.

(** The rows of a token over a placeholder are the rows of the selector
    the placeholder holds, through the operator of the token. *)
Lemma values_of_placeholder (result : ApiResult) (ch : nat)
    (sel : SelectorMeta) (w : World) :
  subjects w !! ch = Some sel ->
  let o := QueryToken_values
             (QueryToken_map result (mkQueryToken (subject_stream ch))) w in
  let o' := values (mkSelector (source sel) (Some result)) w in
  failure o = failure o' /\ emitted o = emitted o' /\ after o = after o'.
Proof.
  intros H o o'. subst o o'. unfold QueryToken_values, concatMap.
  cbn [selector_ QueryToken_map]. unfold mapEach, subject_stream. cbn beta.
  rewrite H.
  cbn [emitted failure after map concat_each].
  destruct (failure (values _ w)) eqn:E; cbn [emitted failure after].
  - by rewrite E.
  - by rewrite app_nil_r.
Qed.

(** X19. A read issued while no store is attached, for a table that has a
    schema: issuing it sends nothing. Asking for its rows subscribes to
    the request, once. If the request fails, so does the read. If it is
    answered and no row needs padding, the rows are the answer of the
    network: an array as it is, anything else as one row. *)
Theorem read_before_attach_asks_the_network (result : ApiResult) (w : World) :
  database (net w) = None ->
  is_Some (fields (net w) !! tableName result) ->
  exists token w1,
    handleApiResult result w = inr (token, w1)
    /\ trace w1 = trace w
    /\ let o := QueryToken_values token w1 in
       let fetched := (trace w ++ [Fetched (r_id (request result))])%list in
       match reply (request result) with
       | Throws e =>
           failure o = Some e /\ emitted o = [] /\ trace (after o) = fetched
       | Emits v =>
           (forall pad pk req,
              padding_setup (net w) result = Some (pad, pk, req) ->
              Forall (fun datum => complete req datum = true) (as_rows v)) ->
           failure o = None /\ emitted o = [as_rows v]
           /\ trace (after o) = fetched
       end.
Proof.
  intros D [pre F]. unfold handleApiResult. rewrite D. unfold bufferResponse.
  pose proof (getInfoFromResult_declared (net w) result) as G.
  rewrite F in G. destruct G as [q G]. rewrite G.
  eexists _, _. split; [reflexivity|]. split; [reflexivity|].
  cbn zeta.
  match goal with
  | |- context [QueryToken_values _ ?w'] => set (w1 := w')
  end.
  assert (L : subjects w1 !! length (subjects w)
              = Some (mkSelector (FromRequest (request result) q (tableName result)) None)).
  { subst w1. cbn [subjects push set_net]. rewrite lookup_app_r by done.
    by rewrite Nat.sub_diag. }
  destruct (values_of_placeholder result _ _ _ L) as (-> & -> & ->).
  cbn [source]. unfold values. cbn [source mapFn].
  unfold concatMap, mapEach, subscribe.
  destruct (reply (request result)) as [v|e];
    cbn [emitted failure after map concat_each]; [|done].
  intros H.
  rewrite (validate_unpatched result (as_rows v)); [done|].
  exact H.
Qed.

(** X20. A pending read whose request fails when the store is attached:
    the request is the one thing that happens at the drain, nothing is
    logged, and the read is gone from the buffer, so it is not tried
    again; its placeholder keeps the selector over the network answer,
    the store is attached and has not been touched. (A read with the
    strategy [Request] whose key is marked does not ask the network and
    is not concerned.) *)
Theorem failed_pending_read_is_dropped (result : ApiResult) (w : World)
    (db : nat) (e : Error) :
  database (net w) = None ->
  persistedDataBuffer (net w) = [] ->
  is_Some (fields (net w) !! tableName result) ->
  reply (request result) = Throws e ->
  (cacheValidate result = Request ->
   default false
     (requestMap (net w)
        !! genCacheKey (tableName result) (selected_query (net w) result))
   = false) ->
  let placeholder := length (subjects w) in
  let w2 := step (Attach db) (issued result w) in
  trace w2 = (trace w ++ [Fetched (r_id (request result))])%list
  /\ subjects w2 !! placeholder
     = Some (mkSelector
               (FromRequest (request result) (selected_query (net w) result)
                  (tableName result))
               None)
  /\ persistedDataBuffer (net w2) = []
  /\ database (net w2) = Some db
  /\ stores w2 = stores w.
Proof.
  intros D B [pre F] Rp M placeholder w2. subst placeholder w2.
  unfold issued, handleApiResult, selected_query in *. rewrite D.
  unfold bufferResponse.
  pose proof (getInfoFromResult_declared (net w) result) as G.
  rewrite F in G. destruct G as [q G]. rewrite G in *.
  destruct w as [[f d r p b] st sj tr]. simpl in D, B, F, G, M. subst d b.
  cbn [net set_net push persistedDataBuffer subjects trace app fields database
       requestMap primaryKeys stores].
  unfold step, persist.
  cbn [net set_net push persistedDataBuffer subjects trace app fields database
       requestMap primaryKeys stores].
  rewrite schedule_cons. unfold materialize, handleRequestCache.
  match goal with
  | |- context [getInfoFromResult ?n result] =>
      change (getInfoFromResult n result)
        with (getInfoFromResult (mkNet f None r p []) result)
  end.
  rewrite G. cbn [database requestMap].
  assert (W : forall marking fn,
            let sel := fetch_then_get (Some db) (request result)
                         (tableName result) q marking in
            let w0 := set_net (mkNet f (Some db) r p [])
                        (push (Selector result (length sj))
                           (mkWorld (mkNet f None r p []) st
                              (sj ++ [mkSelector (FromRequest (request result) q
                                                    (tableName result)) None])%list
                              tr)) in
            let o := tapError log_error
                       (concatAll
                          [mapTo tt (tap (forward (length sj))
                                       (selector_ (match fn with
                                                   | Some fn => QueryToken_map fn (mkQueryToken sel)
                                                   | None => mkQueryToken sel
                                                   end)))]) w0 in
            trace (after o) = (tr ++ [Fetched (r_id (request result))])%list
            /\ subjects (after o) !! length sj
               = Some (mkSelector (FromRequest (request result) q (tableName result)) None)
            /\ persistedDataBuffer (net (after o)) = []
            /\ database (net (after o)) = Some db
            /\ stores (after o) = st).
  { intros marking fn sel w0 o.
    assert (FT : forall w', sel w' = mkOutcome [] (Some e)
                              (log (Fetched (r_id (request result))) w')).
    { intros w'. subst sel. unfold fetch_then_get, concatMap, tap, subscribe.
      rewrite Rp. by destruct marking. }
    subst o. clearbody sel.
    unfold tapError, concatAll. cbn [concat_each].
    unfold mapTo, tap, log_error, await_toPromise.
    destruct fn as [fn|];
      cbn [selector_ QueryToken_map mapEach emitted failure after];
      unfold mapEach; rewrite FT; subst w0; simpl;
      (repeat split; try done);
      rewrite lookup_app_r by done; by rewrite Nat.sub_diag. }
  destruct (cacheValidate result).
  - rewrite (M eq_refl). cbn [negb fst snd]. rewrite schedule_nil. cbn [fst snd].
    apply (W (Some (genCacheKey (tableName result) q)) (Some result)).
  - cbn [fst snd]. rewrite schedule_nil. cbn [fst snd]. apply (W None None).
Qed.

End ReadsBeforeAttach.

Section ReadsBeforeAttachExamples.

Import Engine.

#[local] Existing Instance Reference.collaborators.

Lemma read_before_attach_asks_the_network_witness :
  read_rows Reference.plain_read Reference.start = [[Reference.rowA]].
Proof.
  assert (H1 : database (net Reference.start) = None)
    by (vm_compute; reflexivity).
  assert (H2 : is_Some (fields (net Reference.start)
                          !! tableName Reference.plain_read))
    by (vm_compute; eauto).
  destruct (read_before_attach_asks_the_network Reference.plain_read
              Reference.start H1 H2) as (token & w1 & E & _ & H).
  unfold read_rows. rewrite E.
  apply H. intros pad pk req P. vm_compute in P. discriminate P.
Defined.

Lemma failed_pending_read_is_dropped_witness :
  trace (step (Attach 0) (issued Reference.failing_read Reference.start))
  = [Fetched 5].
Proof.
  assert (H1 : database (net Reference.start) = None)
    by (vm_compute; reflexivity).
  assert (H2 : persistedDataBuffer (net Reference.start) = [])
    by (vm_compute; reflexivity).
  assert (H3 : is_Some (fields (net Reference.start)
                          !! tableName Reference.failing_read))
    by (vm_compute; eauto).
  assert (H4 : reply (request Reference.failing_read) = Throws (VStr "offline"))
    by reflexivity.
  assert (H5 : cacheValidate Reference.failing_read = Request ->
               default false
                 (requestMap (net Reference.start)
                    !! genCacheKey (tableName Reference.failing_read)
                         (selected_query (net Reference.start)
                            Reference.failing_read))
               = false)
    by (intros _; vm_compute; reflexivity).
  exact (proj1 (failed_pending_read_is_dropped Reference.failing_read
                  Reference.start 0 (VStr "offline") H1 H2 H3 H4 H5)).
Defined.

End ReadsBeforeAttachExamples.
